(** * Brand-impersonation detection engine: a shallow embedding

    The JavaScript sources embedded here are
    - [utils/domainSimilarity.js]  (Levenshtein distance, typosquatting rules,
      brand keyword check),
    - [utils/htmlSimilarity.js]    (Jaccard similarity, structural comparison),
    - [features/brandImpersonation.js] (per-candidate analysis and crawl gate),
    - [search/multiEngineSearch.js] (federated search with a shared
      membership set),
    - [utils/httpFetcher.js]       (the retry loop of [fetchUrl]),
    - [monitor.js]                 (duplicate removal and summary update of
      [runFullScan]).

    Conventions.  A JavaScript string is the list of its UTF-16 code units.
    JavaScript numbers that hold lengths and indices are [nat] or [Z].
    The ratios and scores of [domainSimilarity.js] and the module
    [HtmlSimilarity] are exact rationals ([Q]): what is proved there is
    about the formulas, not about the rounding of doubles.  The modules
    [Binary64] and [HtmlSimilarity64] compute the structural score in IEEE
    binary64 numbers, operation by operation as the source does; the
    pipeline of [brandImpersonation.js] and the statements about concrete
    scores use them.  [Set] objects are [gset]s.  Built-ins whose full definition lives in the language standard
    ([toLowerCase]) and the HTML parser are parameters. *)

From Stdlib Require Import Ascii QArith Qround Qpower Lqa.
From Stdlib Require String.
From Stdlib Require SpecFloat.
From stdpp Require Import base decidable option list numbers sets gmap strings sorting pretty.

#[local] Open Scope nat_scope.

(** ** JavaScript strings and the built-ins the sources call *)

Module JS.

Abbreviation jsstring := (list N).

(** The code units of an ASCII literal. *)
Definition js (s : string) : jsstring :=
  (λ a, N_of_ascii a) <$> String.list_ascii_of_string s.

(** [String.prototype.toLowerCase] follows the Unicode case tables; the
    development is parametric in it. *)
Class CaseMapping := toLowerCase : jsstring → jsstring.

(** On strings of ASCII code units [toLowerCase] maps [A-Z] to [a-z]. *)
Definition lowerUnit (c : N) : N :=
  if ((65 <=? c) && (c <=? 90))%N then (c + 32)%N else c.

Definition asciiLowerCase : CaseMapping := fmap lowerUnit.

(** [s.startsWith(p)] *)
Fixpoint startsWith (s p : jsstring) {struct p} : bool :=
  match p, s with
  | [], _ => true
  | _ :: _, [] => false
  | c :: p', d :: s' => bool_decide (c = d) && startsWith s' p'
  end.

(** [s.includes(sub)] *)
Fixpoint includes (s sub : jsstring) : bool :=
  startsWith s sub ||
  match s with
  | [] => false
  | _ :: s' => includes s' sub
  end.

(** [s.replace(pat, rep)] with a string pattern: the first occurrence only. *)
Fixpoint replace (s pat rep : jsstring) : jsstring :=
  if startsWith s pat then rep ++ drop (length pat) s
  else match s with
       | [] => []
       | c :: s' => c :: replace s' pat rep
       end.

(** [s.substring(start, end)]: both indices are clamped to the length and
    swapped when out of order. *)
Definition substring (s : jsstring) (start end_ : nat) : jsstring :=
  take (Nat.max start end_ - Nat.min start end_) (drop (Nat.min start end_) s).

(** [s.substring(start)] *)
Definition substringFrom (s : jsstring) (start : nat) : jsstring :=
  drop start s.

(** [s.charAt(i)]: the empty string when [i] is out of range. *)
Definition charAt (s : jsstring) (i : nat) : jsstring :=
  match s !! i with Some c => [c] | None => [] end.

(** [s[i]] used in a concatenation: [undefined] is printed when [i] is out
    of range. *)
Definition index (s : jsstring) (i : nat) : jsstring :=
  match s !! i with Some c => [c] | None => js "undefined" end.

(** Truthiness of a string: every string but the empty one. *)
Definition truthy (s : jsstring) : bool :=
  match s with [] => false | _ => true end.

(** [Math.round]: the nearest integer, halves rounded up. *)
Definition Math_round (x : Q) : Z := Qfloor (x + (1 # 2))%Q.

(** [for (let i = lo; i < hi; i++) st = body(i, st)] *)
Definition for_range {S : Type} (lo hi : nat) (body : nat → S → S) (st : S) : S :=
  foldl (λ st i, body i st) st (seq lo (hi - lo)).

(** [arr[i] = v]: an in-range index overwrites, the index [arr.length]
    appends, a larger one leaves holes (read back as [hole]) in between. *)
Definition arr_set {A : Type} (hole : A) (arr : list A) (i : nat) (v : A) : list A :=
  if decide (i < length arr) then <[i := v]> arr
  else arr ++ replicate (i - length arr) hole ++ [v].

(** [arr[i]], with [hole] standing for [undefined]. *)
Definition arr_get {A : Type} (hole : A) (arr : list A) (i : nat) : A :=
  default hole (arr !! i).

End JS.

Import JS.

(** ** utils/domainSimilarity.js *)

Module DomainSimilarity.

(** [matrix[i][j] = v] and [matrix[i][j]] on the array of rows. *)
Definition mset (matrix : list (list nat)) (i j v : nat) : list (list nat) :=
  arr_set [] matrix i (arr_set 0 (arr_get [] matrix i) j v).

Definition mget (matrix : list (list nat)) (i j : nat) : nat :=
  arr_get 0 (arr_get [] matrix i) j.

Definition levenshteinDistance (a b : jsstring) : nat :=
  let matrix := [] in
  let matrix := for_range 0 (S (length b)) (λ i matrix, arr_set [] matrix i [i]) matrix in
  let matrix := for_range 0 (S (length a)) (λ j matrix, mset matrix 0 j j) matrix in
  let matrix :=
    for_range 1 (S (length b)) (λ i matrix,
      for_range 1 (S (length a)) (λ j matrix,
        if bool_decide (charAt b (i - 1) = charAt a (j - 1))
        then mset matrix i j (mget matrix (i - 1) (j - 1))
        else mset matrix i j
               (Nat.min (Nat.min (mget matrix (i - 1) (j - 1) + 1)
                                 (mget matrix i (j - 1) + 1))
                        (mget matrix (i - 1) j + 1)))
        matrix)
      matrix in
  mget matrix (length b) (length a).

(** [calculateSimilarity]: the percentage is an exact rational here (where
    JavaScript divides by zero, [Q] gives 0). *)
Definition calculateSimilarity (domain1 domain2 : jsstring) : Q :=
  let distance := levenshteinDistance domain1 domain2 in
  let maxLength := Nat.max (length domain1) (length domain2) in
  ((inject_Z (Z.of_nat maxLength - Z.of_nat distance) / inject_Z (Z.of_nat maxLength)) * 100)%Q.

(** The look-alike table [HOMOGLYPHS]: keys and entries are one code unit
    each (Cyrillic, Greek, Latin Extended, Armenian, digits). *)
Definition HOMOGLYPHS : list (jsstring * list jsstring) :=
  [ (js "a", [[0x430]; [0x251]; [0x3b1]]);
    (js "e", [[0x435]; [0x117]; [0x113]]);
    (js "i", [[0x456]; [0x131]; js "l"; js "1"]);
    (js "o", [[0x43e]; js "0"; [0x3bf]]);
    (js "p", [[0x440]; [0x3c1]]);
    (js "c", [[0x441]; [0x3f2]]);
    (js "x", [[0x445]; [0xd7]]);
    (js "y", [[0x443]; [0x4af]]);
    (js "n", [[0x578]; [0x57c]]);
    (js "m", [[0x43c]; [0x1e43]]) ]%N.

(** [HOMOGLYPHS[char]]; [None] is [undefined]. *)
Definition homoglyphsOf (char : jsstring) : option (list jsstring) :=
  snd <$> find (λ entry, bool_decide (entry.1 = char)) HOMOGLYPHS.

Section detector.
Context {lc : CaseMapping}.

Definition detectHomoglyph (suspiciousDomain legitimateDomain : jsstring) : bool :=
  let suspicious := replace (toLowerCase suspiciousDomain) (js ".onion") [] in
  let legitimate := toLowerCase legitimateDomain in
  if bool_decide (suspicious = legitimate) then false
  else
    existsb (λ i,
      let char := index legitimate i in
      match homoglyphsOf char with
      | Some glyphs =>
          existsb (λ homoglyph,
            let variant := substring legitimate 0 i ++ homoglyph
                           ++ substringFrom legitimate (i + 1) in
            includes suspicious variant) glyphs
      | None => false
      end) (seq 0 (length legitimate)).

Inductive MatchType :=
  | direct_match | character_omission | character_addition
  | character_swap | homoglyph | high_similarity.

Record TypoResult := {
  isTyposquatting : bool;
  type : option MatchType;
  confidence : Q
}.

Definition detectTyposquatting (suspiciousDomain legitimateDomain : jsstring) : TypoResult :=
  let suspicious := replace (toLowerCase suspiciousDomain) (js ".onion") [] in
  let legitimate := toLowerCase legitimateDomain in
  let result := {| isTyposquatting := false; type := None; confidence := 0 |} in
  (* Exact match *)
  if bool_decide (suspicious = legitimate) then result
  (* Character omission *)
  else if bool_decide (Z.of_nat (length suspicious) = (Z.of_nat (length legitimate) - 1)%Z)
          && existsb (λ i,
               let variant := substring legitimate 0 i ++ substringFrom legitimate (i + 1) in
               bool_decide (suspicious = variant)) (seq 0 (length legitimate))
  then {| isTyposquatting := true; type := Some character_omission; confidence := 95 |}
  (* Character addition *)
  else if bool_decide (length suspicious = length legitimate + 1)
          && existsb (λ i,
               existsb (λ c,
                 let variant := substring legitimate 0 i ++ [N.of_nat c]
                                ++ substringFrom legitimate i in
                 bool_decide (suspicious = variant)) (seq 97 26))
               (seq 0 (S (length legitimate)))
  then {| isTyposquatting := true; type := Some character_addition; confidence := 90 |}
  (* Character swap *)
  else if bool_decide (length suspicious = length legitimate)
          && existsb (λ i,
               let variant := substring legitimate 0 i ++ index legitimate (i + 1)
                              ++ index legitimate i ++ substringFrom legitimate (i + 2) in
               bool_decide (suspicious = variant)) (seq 0 (length legitimate - 1))
  then {| isTyposquatting := true; type := Some character_swap; confidence := 95 |}
  (* Homoglyph detection *)
  else if detectHomoglyph suspicious legitimate
  then {| isTyposquatting := true; type := Some homoglyph; confidence := 85 |}
  (* High similarity (Levenshtein) *)
  else
    let similarity := calculateSimilarity suspicious legitimate in
    if Qlt_le_dec 80 similarity
    then {| isTyposquatting := true; type := Some high_similarity; confidence := similarity |}
    else result.

(** The object returned by [checkBrandSimilarity]: [{ match: false }] or a
    match with its keyword, type and confidence. *)
Inductive BrandCheck :=
  | NoMatch
  | Match (keyword : jsstring) (type : option MatchType) (confidence : Q).

(** The body of [for (const keyword of brandKeywords)]. *)
Fixpoint checkKeywords (domain : jsstring) (brandKeywords : list jsstring) : BrandCheck :=
  match brandKeywords with
  | [] => NoMatch
  | keyword :: rest =>
      let brand := toLowerCase keyword in
      (* Direct match *)
      if includes domain brand then Match keyword (Some direct_match) 100
      else
        (* Typosquatting *)
        let typoResult := detectTyposquatting domain brand in
        if isTyposquatting typoResult
        then Match keyword (type typoResult) (confidence typoResult)
        else checkKeywords domain rest
  end.

Definition checkBrandSimilarity (onionDomain : jsstring) (brandKeywords : list jsstring) : BrandCheck :=
  let domain := replace (toLowerCase onionDomain) (js ".onion") [] in
  checkKeywords domain brandKeywords.

(** The detector for one keyword: the direct-containment check of
    [checkBrandSimilarity] followed by [detectTyposquatting]. *)
Definition detect (candidateDomain legitimateKeyword : jsstring) : BrandCheck :=
  checkBrandSimilarity candidateDomain [legitimateKeyword].

End detector.

End DomainSimilarity.

(** ** utils/htmlSimilarity.js

    The formulas of the comparator over exact rationals: what is proved of
    this module (symmetry, the bounds, the score of an exact copy, the title
    sub-score) is about the formulas.  The scores as the code computes them,
    in doubles, are those of [HtmlSimilarity64] below. *)

Module HtmlSimilarity.

(** One entry of [features.inputFields]: [{ type, name, id }]. *)
Record InputField := {
  input_type : jsstring;
  input_name : jsstring;
  input_id : jsstring
}.

(** The object built by [extractStructuralFeatures]. *)
Record Features := {
  title : jsstring;
  formCount : nat;
  inputFields : list InputField;
  cssClasses : list jsstring;
  ids : list jsstring;
  links : list jsstring;
  images : list jsstring
}.

(** The object returned by [compareHtmlStructure]. *)
Record SimilarityScore := {
  overall : Z;
  score_inputFields : Z;
  score_cssClasses : Z;
  score_ids : Z;
  score_title : Z
}.

(** The order of [Array.prototype.sort] without a comparator: strings by
    their code units. *)
Fixpoint unitsLe (x y : jsstring) : bool :=
  match x, y with
  | [], _ => true
  | _ :: _, [] => false
  | c :: x', d :: y' => (c <? d)%N || (bool_decide (c = d) && unitsLe x' y')
  end.

Definition sort (l : list jsstring) : list jsstring :=
  merge_sort (λ x y, Is_true (unitsLe x y)) l.

Definition jaccardSimilarity (set1 set2 : list jsstring) : Q :=
  let s1 : gset jsstring := list_to_set set1 in
  let s2 : gset jsstring := list_to_set set2 in
  let intersection : gset jsstring := list_to_set (List.filter (λ x, bool_decide (x ∈ s2)) (elements s1)) in
  let union : gset jsstring := list_to_set (elements s1 ++ elements s2) in
  if decide (size union = 0) then 0
  else (inject_Z (Z.of_nat (size intersection)) / inject_Z (Z.of_nat (size union)))%Q.

Definition compareInputFields (inputs1 inputs2 : list InputField) : Q :=
  if bool_decide (length inputs1 = 0) && bool_decide (length inputs2 = 0) then 0
  else
    (* Compare input types *)
    let types1 := sort (input_type <$> inputs1) in
    let types2 := sort (input_type <$> inputs2) in
    let typeSimilarity := jaccardSimilarity types1 types2 in
    (* Compare input names *)
    let names1 := List.filter truthy (input_name <$> inputs1) in
    let names2 := List.filter truthy (input_name <$> inputs2) in
    let nameSimilarity := jaccardSimilarity names1 names2 in
    (* Compare input IDs *)
    let ids1 := List.filter truthy (input_id <$> inputs1) in
    let ids2 := List.filter truthy (input_id <$> inputs2) in
    let idSimilarity := jaccardSimilarity ids1 ids2 in
    (typeSimilarity * (4 # 10) + nameSimilarity * (3 # 10) + idSimilarity * (3 # 10))%Q.

(** The title sub-score, the conditional expression bound to
    [titleSimilarity] in [compareHtmlStructure]. *)
Definition titleSimilarity (title1 title2 : jsstring) : Q :=
  if bool_decide (title1 = title2) then 1
  else if includes title1 title2 || includes title2 title1 then 1 # 2
  else 0.

Section comparator.
(** [extractStructuralFeatures] queries the document through the HTML
    parser; the comparison is stated for every such extraction. *)
Variable extractStructuralFeatures : jsstring → Features.

Definition compareHtmlStructure (html1 html2 : jsstring) : SimilarityScore :=
  let features1 := extractStructuralFeatures html1 in
  let features2 := extractStructuralFeatures html2 in
  let inputSimilarity := compareInputFields (inputFields features1) (inputFields features2) in
  let cssSimilarity := jaccardSimilarity (cssClasses features1) (cssClasses features2) in
  let idSimilarity := jaccardSimilarity (ids features1) (ids features2) in
  let titleSimilarity := titleSimilarity (title features1) (title features2) in
  let overallSimilarity :=
    ((inputSimilarity * (4 # 10) + cssSimilarity * (3 # 10)
      + idSimilarity * (2 # 10) + titleSimilarity * (1 # 10)) * 100)%Q in
  {| overall := Math_round overallSimilarity;
     score_inputFields := Math_round (inputSimilarity * 100);
     score_cssClasses := Math_round (cssSimilarity * 100);
     score_ids := Math_round (idSimilarity * 100);
     score_title := Math_round (titleSimilarity * 100) |}.

End comparator.

End HtmlSimilarity.


(** ** Double-precision numbers

    The numbers of [htmlSimilarity.js] as the code computes them: IEEE 754
    binary64 values with the operations of the Standard Library's
    [SpecFloat] (precision 53, infinities at exponent 1024; rounding to
    nearest, ties to even). *)

Module Binary64.

Abbreviation double := SpecFloat.spec_float.

Definition prec : Z := 53.
Definition emax : Z := 1024.

(** The double that an integer converts to. *)
Definition ofZ (n : Z) : double := SpecFloat.binary_normalize prec emax n 0 false.

Definition add : double → double → double := SpecFloat.SFadd prec emax.
Definition mul : double → double → double := SpecFloat.SFmul prec emax.
Definition div : double → double → double := SpecFloat.SFdiv prec emax.

(** [x < y] *)
Definition ltb : double → double → bool := SpecFloat.SFltb.

(** The value of a decimal literal with [places] digits after the point: the
    double nearest to [digits / 10 ^ places], which is what the correctly
    rounded quotient of the two integers is. *)
Definition decimal (digits : Z) (places : Z) : double :=
  div (ofZ digits) (ofZ (10 ^ places)).

(** [Math.round]: the integer nearest to [x], halves towards +∞, that is
    the floor of [x + 1/2] computed exactly; a NaN, an infinity or a zero
    is returned as it is, and a result 0 takes the sign of [x]. *)
Definition Math_round (x : double) : double :=
  match x with
  | SpecFloat.S754_finite s m e =>
      if (0 <=? e)%Z then x
      else
        let n := ((SpecFloat.cond_Zopp s (Z.pos m~0) + 2 ^ (- e)) / 2 ^ (1 - e))%Z in
        if (n =? 0)%Z then SpecFloat.S754_zero s else ofZ n
  | _ => x
  end.

(** The rational number a finite double stands for (0 for the values that
    stand for none). *)
Definition valueOf (x : double) : Q :=
  match x with
  | SpecFloat.S754_finite s m e => (inject_Z (SpecFloat.cond_Zopp s (Z.pos m)) * 2 ^ e)%Q
  | _ => 0
  end.

End Binary64.

(** ** utils/htmlSimilarity.js in double precision

    The same functions with every number a double, as the code has them;
    the module [HtmlSimilarity] above computes the same formulas in exact
    arithmetic. *)

Module HtmlSimilarity64.

Import HtmlSimilarity Binary64.

(** The object returned by [compareHtmlStructure]. *)
Record SimilarityScore := {
  overall : double;
  score_inputFields : double;
  score_cssClasses : double;
  score_ids : double;
  score_title : double
}.

Definition jaccardSimilarity (set1 set2 : list jsstring) : double :=
  let s1 : gset jsstring := list_to_set set1 in
  let s2 : gset jsstring := list_to_set set2 in
  let intersection : gset jsstring := list_to_set (List.filter (λ x, bool_decide (x ∈ s2)) (elements s1)) in
  let union : gset jsstring := list_to_set (elements s1 ++ elements s2) in
  if decide (size union = 0) then ofZ 0
  else div (ofZ (Z.of_nat (size intersection))) (ofZ (Z.of_nat (size union))).

Definition compareInputFields (inputs1 inputs2 : list InputField) : double :=
  if bool_decide (length inputs1 = 0) && bool_decide (length inputs2 = 0) then ofZ 0
  else
    (* Compare input types *)
    let types1 := sort (input_type <$> inputs1) in
    let types2 := sort (input_type <$> inputs2) in
    let typeSimilarity := jaccardSimilarity types1 types2 in
    (* Compare input names *)
    let names1 := List.filter truthy (input_name <$> inputs1) in
    let names2 := List.filter truthy (input_name <$> inputs2) in
    let nameSimilarity := jaccardSimilarity names1 names2 in
    (* Compare input IDs *)
    let ids1 := List.filter truthy (input_id <$> inputs1) in
    let ids2 := List.filter truthy (input_id <$> inputs2) in
    let idSimilarity := jaccardSimilarity ids1 ids2 in
    add (add (mul typeSimilarity (decimal 4 1)) (mul nameSimilarity (decimal 3 1)))
        (mul idSimilarity (decimal 3 1)).

Definition titleSimilarity (title1 title2 : jsstring) : double :=
  if bool_decide (title1 = title2) then ofZ 1
  else if includes title1 title2 || includes title2 title1 then decimal 5 1
  else ofZ 0.

Section comparator.
Variable extractStructuralFeatures : jsstring → Features.

Definition compareHtmlStructure (html1 html2 : jsstring) : SimilarityScore :=
  let features1 := extractStructuralFeatures html1 in
  let features2 := extractStructuralFeatures html2 in
  let inputSimilarity := compareInputFields (inputFields features1) (inputFields features2) in
  let cssSimilarity := jaccardSimilarity (cssClasses features1) (cssClasses features2) in
  let idSimilarity := jaccardSimilarity (ids features1) (ids features2) in
  let titleSimilarity := titleSimilarity (title features1) (title features2) in
  (* Weighted overall similarity *)
  let overallSimilarity :=
    mul (add (add (add (mul inputSimilarity (decimal 4 1))
                       (mul cssSimilarity (decimal 3 1)))
                  (mul idSimilarity (decimal 2 1)))
             (mul titleSimilarity (decimal 1 1)))
        (ofZ 100) in
  {| overall := Math_round overallSimilarity;
     score_inputFields := Math_round (mul inputSimilarity (ofZ 100));
     score_cssClasses := Math_round (mul cssSimilarity (ofZ 100));
     score_ids := Math_round (mul idSimilarity (ofZ 100));
     score_title := Math_round (mul titleSimilarity (ofZ 100)) |}.

End comparator.

End HtmlSimilarity64.

(** ** search/multiEngineSearch.js *)

Module MultiEngineSearch.

(** The table [TOP_SEARCH_ENGINES], in the order of its keys. *)
Definition TOP_SEARCH_ENGINES : list (jsstring * jsstring) :=
  [ (js "ahmia", js "http://juhanurmihxlp77nkq76byazcldy2hlmovfu2epvl5ankdibsot4csyd.onion");
    (js "darksearchio", js "http://darksearch.io");
    (js "onionland", js "http://3bbad7fauom4d6sgppalyqddsqbf5u5p56b5k5uk2zxsy3d6ey2jobad.onion");
    (js "darksearchengine", js "http://l4rsciqnpzdndt2llgjx3luvnxip7vbyj6k6nmdy4xs77tx6gkd24ead.onion");
    (js "phobos", js "http://phobosxilamwcg75xt22id7aywkzol6q6rfl2flipcqoc4e4ahima5id.onion");
    (js "onionsearchserver", js "http://3fzh7yuupdfyjhwt3ugzqqof6ulbcl27ecev33knxe3u7goi3vfn2qqd.onion");
    (js "torgle", js "http://no6m4wzdexe3auiupv2zwif7rm6qwxcyhslkcnzisxgeiw6pvjsgafad.onion");
    (js "tor66", js "http://tor66sewebgixwhcqfnp5inzp5x5uohhdy3kvtnyfxc2e5mxiuh34iid.onion");
    (js "haystak", js "http://haystak5njsmn2hqkewecpaxetahtwhsbsa64jom2k22z5afxhnpxfid.onion");
    (js "torch", js "http://xmh57jrknzkhv6y3ls3ubitzfqnkrwxhopf5aygthi7d6rplyvk3noyd.onion");
    (js "ahmia_clearnet", js "https://ahmia.fi");
    (js "bobby", js "http://bobby64o755x3gsuznts6hf6agxqjcz5bop6hs7ejorekbm7omes34ad.onion");
    (js "sentor", js "http://e27slbec2ykiyo26gfuovaehuzsydffbit5nlxid53kigw3pvz6uosqd.onion");
    (js "gdark", js "http://zb2jtkhnbvhkya3d46twv3g7lkobi4s62tjffqmafjibixk6pmq75did.onion");
    (js "kraken", js "http://krakenai2gmgwwqyo7bcklv2lzcvhe7cxzzva2xpygyax5f33oqnxpad.onion");
    (js "deepsearch", js "http://search7tdrcvri22rieiwgi5g46qnwsesvnubqav2xakhezv4hjzkkad.onion");
    (js "demon", js "http://srcdemonm74icqjvejew6fprssuolyoc2usjdwflevbdpqoetw4x3ead.onion");
    (js "visitor", js "http://uzowkytjk4da724giztttfly4rugfnbqkexecotfp5wjc2uhpykrpryd.onion");
    (js "venus", js "http://venusoseaqnafjvzfmrcpcq6g47rhd7sa6nmzvaa4bj5rp6nm5jl7gad.onion");
    (js "danex", js "http://danexio627wiswvlpt6ejyhpxl5gla5nt2tgvgm2apj2ofrgxtyxrhokfqd.onion") ].

(** Truthiness of [TOP_SEARCH_ENGINES[key]]: an own key of the table, or one
    of the two lower-case names every object inherits. *)
Definition tableHas (key : jsstring) : bool :=
  bool_decide (key ∈ TOP_SEARCH_ENGINES.*1)
  || bool_decide (key = js "constructor") || bool_decide (key = js "__proto__").

(** An awaited call either resolves with a value or throws an [Error] with a
    message. *)
Inductive Response (A : Type) :=
  | Resolved (value : A)
  | Threw (message : jsstring).
Arguments Resolved {A} value.
Arguments Threw {A} message.

(** What the callback of [.each] reads from one selected element: the
    [href] attribute, the trimmed text and the trimmed text of the
    description node. *)
Record Anchor := {
  href : option jsstring;
  text : jsstring;
  snippet : jsstring
}.

Record SearchResult := {
  title : jsstring;
  url : jsstring;
  description : jsstring;
  source_engine : jsstring;
  found_at : jsstring
}.

(** The object a backend task returns: [{ engine, results }] or
    [{ engine, error, results: [] }]. *)
Record EngineResult := {
  engine : jsstring;
  error : option jsstring;
  results : list SearchResult
}.

(** An entry of [Promise.allSettled]. *)
Inductive Settled :=
  | Fulfilled (value : EngineResult)
  | Rejected (reason : jsstring).

(** The object returned by [multiEngineSearch]. *)
Record SearchReport := {
  query : jsstring;
  engines_used : list jsstring;
  total_engines : nat;
  all_results : list SearchResult;
  errors : list (jsstring * jsstring);
  total_results : nat
}.

(** Every JavaScript array is truthy, the empty one included. *)
Definition array_truthy {A : Type} (arr : list A) : bool := true.

Definition normalizeOnionUrl (url : jsstring) : jsstring :=
  let normalized :=
    if startsWith url (js "http://") then drop 7 url
    else if startsWith url (js "https://") then drop 8 url
    else url in
  if negb (startsWith normalized (js "http")) then js "http://" ++ normalized
  else normalized.

Section aggregator.
Context {lc : CaseMapping}.

(** *** The environment of a run

    The HTML parser answers the queries of the code: the elements a
    selector matches, in document order, and the attributes of the hidden
    input of the Ahmia search form.  The two regular expressions of
    [searchAhmia] and [decodeURIComponent] are built-ins.  The network gives
    each backend task (numbered by its position in [enginesToUse]) the
    outcome of its requests; the request URL is not modelled.  [now] is
    the reading of the clock. *)
Variable select : jsstring → jsstring → list Anchor.
Variable hiddenInput : jsstring → option jsstring * option jsstring.
Variable matchRedirectUrl : jsstring → option jsstring.
Variable matchAddress : jsstring → option jsstring.
Variable decodeURIComponent : jsstring → Response jsstring.
Variable fetch : nat → Response jsstring.
Variable fetchAhmiaHome : nat → Response jsstring.
Variable fetchAhmiaSearch : nat → Response jsstring.
Variable now : jsstring.

(** The part of both [.each] callbacks that follows the computation of
    [url]: normalise, test and update the shared set, push the result. *)
Definition record (engineName : jsstring) (elem : Anchor) (url : jsstring)
    (results : list SearchResult) (seenUrls : gset jsstring)
    : list SearchResult * gset jsstring :=
  let normalizedUrl := normalizeOnionUrl url in
  if bool_decide (normalizedUrl ∉ seenUrls) then
    (results ++ [ {| title := if truthy (text elem) then text elem else normalizedUrl;
                     url := normalizedUrl;
                     description := snippet elem;
                     source_engine := engineName;
                     found_at := now |} ],
     {[ normalizedUrl ]} ∪ seenUrls)
  else (results, seenUrls).

(** The callback of [$(selector).each] in [parseSearchResults], run over the
    selected elements; [return false] stops the iteration. *)
Fixpoint parseEach (engineName : jsstring) (maxResults : Z) (elems : list Anchor)
    (results : list SearchResult) (seenUrls : gset jsstring)
    : list SearchResult * gset jsstring :=
  match elems with
  | [] => (results, seenUrls)
  | elem :: rest =>
      if (maxResults <=? Z.of_nat (length results))%Z then (results, seenUrls)
      else
        match href elem with
        | Some url =>
            if truthy url && includes url (js ".onion") then
              let '(results, seenUrls) := record engineName elem url results seenUrls in
              parseEach engineName maxResults rest results seenUrls
            else parseEach engineName maxResults rest results seenUrls
        | None => parseEach engineName maxResults rest results seenUrls
        end
  end.

Definition parseSearchResults (engineName html : jsstring) (maxResults : Z)
    (seenUrls : gset jsstring) : list SearchResult * gset jsstring :=
  let selector :=
    if includes engineName (js "haystak") then js ".result a.title"
    else if includes engineName (js "torch") then js ".result-block a"
    else if includes engineName (js "onionland") then js ".title a"
    else js "a[href]" in
  parseEach engineName maxResults (select html selector) [] seenUrls.

(** The URL an Ahmia result link stands for; [Resolved None] is [url = null],
    [Threw] is the [URIError] of [decodeURIComponent]. *)
Definition ahmiaUrl (href : jsstring) : Response (option jsstring) :=
  if includes href (js "redirect_url=") then
    match matchRedirectUrl href with
    | Some target =>
        if truthy target then
          match decodeURIComponent target with
          | Resolved url => Resolved (Some url)
          | Threw message => Threw message
          end
        else Resolved None
    | None => Resolved None
    end
  else if includes href (js "/address/") then
    match matchAddress href with
    | Some host => Resolved (Some (js "http://" ++ host))
    | None => Resolved None
    end
  else if includes href (js ".onion") then Resolved (Some href)
  else Resolved None.

(** The callback of [$('li.result a').each] in [searchAhmia].  An exception
    leaves the callback and the loop; the shared set keeps what was added. *)
Fixpoint ahmiaEach (maxResults : Z) (elems : list Anchor)
    (results : list SearchResult) (seenUrls : gset jsstring)
    : Response (list SearchResult) * gset jsstring :=
  match elems with
  | [] => (Resolved results, seenUrls)
  | elem :: rest =>
      if (maxResults <=? Z.of_nat (length results))%Z then (Resolved results, seenUrls)
      else
        match href elem with
        | Some href =>
            if truthy href then
              match ahmiaUrl href with
              | Threw message => (Threw message, seenUrls)
              | Resolved (Some url) =>
                  if truthy url && includes url (js ".onion") then
                    let '(results, seenUrls) := record (js "ahmia") elem url results seenUrls in
                    ahmiaEach maxResults rest results seenUrls
                  else ahmiaEach maxResults rest results seenUrls
              | Resolved None => ahmiaEach maxResults rest results seenUrls
              end
            else ahmiaEach maxResults rest results seenUrls
        | None => ahmiaEach maxResults rest results seenUrls
        end
  end.

Definition failed (engineName message : jsstring) : EngineResult :=
  {| engine := engineName; error := Some message; results := [] |}.

Definition searchAhmia (task : nat) (maxResults : Z) (seenUrls : gset jsstring)
    : EngineResult * gset jsstring :=
  (* Step 1: Fetch homepage to get search token *)
  match fetchAhmiaHome task with
  | Threw message => (failed (js "ahmia") message, seenUrls)
  | Resolved home =>
      let '(paramName, paramValue) := hiddenInput home in
      if negb (from_option truthy false paramName) || negb (from_option truthy false paramValue)
      then (failed (js "ahmia") (js "Could not find search token"), seenUrls)
      else
        (* Step 2: Perform search with token *)
        match fetchAhmiaSearch task with
        | Threw message => (failed (js "ahmia") message, seenUrls)
        | Resolved page =>
            match ahmiaEach maxResults (select page (js "li.result a")) [] seenUrls with
            | (Resolved results, seenUrls) =>
                ({| engine := js "ahmia"; error := None; results := results |}, seenUrls)
            | (Threw message, seenUrls) => (failed (js "ahmia") message, seenUrls)
            end
        end
  end.

Definition searchEngine (task : nat) (engineName : jsstring) (maxResults : Z)
    (seenUrls : gset jsstring) : EngineResult * gset jsstring :=
  if bool_decide (engineName = js "ahmia") then searchAhmia task maxResults seenUrls
  else
    match fetch task with
    | Threw message => (failed engineName message, seenUrls)
    | Resolved html =>
        let '(results, seenUrls) := parseSearchResults engineName html maxResults seenUrls in
        ({| engine := engineName; error := None; results := results |}, seenUrls)
    end.

(** *** The concurrent run

    The backend tasks are started in the order of [enginesToUse] and wait
    for their responses concurrently.  A task reads and updates the shared
    set only in the synchronous stretch that follows its last response, so a
    run is determined by the order in which the tasks reach that stretch:
    [order] lists the task numbers in that order.  A task named twice runs
    once; a task that is not named never settles. *)
Fixpoint settle (enginesToUse : list jsstring) (maxResults : Z) (order : list nat)
    (settled : gmap nat Settled) (seenUrls : gset jsstring)
    : gmap nat Settled * gset jsstring :=
  match order with
  | [] => (settled, seenUrls)
  | task :: order =>
      match enginesToUse !! task, settled !! task with
      | Some engineName, None =>
          let '(value, seenUrls) := searchEngine task engineName maxResults seenUrls in
          settle enginesToUse maxResults order (<[task := Fulfilled value]> settled) seenUrls
      | _, _ => settle enginesToUse maxResults order settled seenUrls
      end
  end.

(** [await Promise.allSettled(searchPromises)]: the outcomes in the order of
    the tasks, once every task has settled. *)
Definition allSettled (tasks : nat) (settled : gmap nat Settled) : option (list Settled) :=
  mapM (λ task, settled !! task) (seq 0 tasks).

(** [result.reason || result.value?.error || 'Unknown error'] *)
Definition errorOf (result : Settled) : jsstring :=
  match result with
  | Rejected reason => if truthy reason then reason else js "Unknown error"
  | Fulfilled value =>
      match error value with
      | Some message => if truthy message then message else js "Unknown error"
      | None => js "Unknown error"
      end
  end.

(** One round of the loop over [engineResults]: the branch
    [result.status === 'fulfilled' && result.value.results] extends
    [results.results], the other one [results.errors]. *)
Definition collectStep (acc : list SearchResult * list (jsstring * jsstring))
    (entry : jsstring * Settled) : list SearchResult * list (jsstring * jsstring) :=
  let '(engineName, result) := entry in
  match result with
  | Fulfilled value =>
      if array_truthy (results value) then (acc.1 ++ results value, acc.2)
      else (acc.1, acc.2 ++ [(engineName, errorOf result)])
  | Rejected _ => (acc.1, acc.2 ++ [(engineName, errorOf result)])
  end.

Definition collect (enginesToUse : list jsstring) (engineResults : list Settled)
    : list SearchResult * list (jsstring * jsstring) :=
  foldl collectStep ([], []) (zip enginesToUse engineResults).

(** The [options] argument; an absent field takes its default. *)
Record Options := {
  maxResultsPerEngine : option Z;
  timeout : option Z
}.

(** [multiEngineSearch]; [None] when a backend task never settles, in which
    case the [await] never returns. *)
Definition multiEngineSearch (query : jsstring) (engines : option (list jsstring))
    (options : Options) (order : list nat) : option SearchReport :=
  let maxResultsPerEngine := default 20%Z (maxResultsPerEngine options) in
  let enginesToUse :=
    match engines with
    | Some engines => List.filter (λ e, tableHas (toLowerCase e)) engines
    | None => TOP_SEARCH_ENGINES.*1
    end in
  let seenUrls : gset jsstring := ∅ in
  let '(settled, _) := settle enginesToUse maxResultsPerEngine order ∅ seenUrls in
  engineResults ← allSettled (length enginesToUse) settled;
  let '(results, errors) := collect enginesToUse engineResults in
  Some {| query := query;
          engines_used := enginesToUse;
          total_engines := length enginesToUse;
          all_results := results;
          errors := errors;
          total_results := length results |}.

End aggregator.

End MultiEngineSearch.

(** ** features/brandImpersonation.js *)

Module BrandImpersonation.

Import DomainSimilarity.

Inductive Severity := low | medium | high | critical.

(** The entries of [finding.indicators]. *)
Inductive Indicator :=
  | domain_similarity (confidence : Q) (matched_keyword : jsstring)
      (similarity_type : option MatchType)
  | keyword_in_metadata (keywords : list jsstring)
  | keyword_match (keywords : list jsstring) (total_matches : Z)
  | login_form_detected (confidence : Q)
  | html_similarity (similarity_score : Binary64.double)
      (details : HtmlSimilarity64.SimilarityScore)
  | credentials_found (count : nat)
  | company_domain_mentioned (links : list jsstring).

(** The fields of [dataExtractor.extractAllData] that the analysis reads. *)
Record Extracted := {
  keywords_found : list (jsstring * Z);
  credentials : list jsstring;
  clearnet_links : list jsstring
}.

Record Finding := {
  url : jsstring;
  title : jsstring;
  description : jsstring;
  source_engine : jsstring;
  found_at : jsstring;
  analyzed_at : jsstring;
  indicators : list Indicator;
  severity : Severity;
  severity_score : Q;
  extracted_data : option Extracted;
  was_crawled : option bool;
  crawl_error : option jsstring;
  crawl_reason : option jsstring
}.

Record CompanyProfile := {
  companyName : jsstring;
  domains : list jsstring;
  keywords : list jsstring;
  realLoginUrl : option jsstring
}.

(** The [options] object that [analyzeSearchResults] hands on. *)
Record Options := {
  checkSimilarity : bool;
  crawlHighSimilarity : bool;
  similarityThreshold : Q
}.

Definition calculateSeverity (score : Q) : Severity :=
  if Qle_bool 9 score then critical
  else if Qle_bool 7 score then high
  else if Qle_bool 4 score then medium
  else low.

(** [finding.indicators.push(i); finding.severity_score += points] *)
Definition indicate (i : Indicator) (points : Q) (finding : Finding) : Finding :=
  {| url := url finding; title := title finding; description := description finding;
     source_engine := source_engine finding; found_at := found_at finding;
     analyzed_at := analyzed_at finding;
     indicators := indicators finding ++ [i];
     severity := severity finding;
     severity_score := (severity_score finding + points)%Q;
     extracted_data := extracted_data finding;
     was_crawled := was_crawled finding;
     crawl_error := crawl_error finding;
     crawl_reason := crawl_reason finding |}.

(** The assignments to [extracted_data], [was_crawled], [crawl_error],
    [crawl_reason] and [severity]. *)
Definition withCrawl (extracted : option Extracted) (crawled : option bool)
    (error reason : option jsstring) (finding : Finding) : Finding :=
  {| url := url finding; title := title finding; description := description finding;
     source_engine := source_engine finding; found_at := found_at finding;
     analyzed_at := analyzed_at finding;
     indicators := indicators finding;
     severity := severity finding;
     severity_score := severity_score finding;
     extracted_data := extracted;
     was_crawled := crawled;
     crawl_error := error;
     crawl_reason := reason |}.

Definition withSeverity (s : Severity) (finding : Finding) : Finding :=
  {| url := url finding; title := title finding; description := description finding;
     source_engine := source_engine finding; found_at := found_at finding;
     analyzed_at := analyzed_at finding;
     indicators := indicators finding;
     severity := s;
     severity_score := severity_score finding;
     extracted_data := extracted_data finding;
     was_crawled := was_crawled finding;
     crawl_error := crawl_error finding;
     crawl_reason := crawl_reason finding |}.

Section pipeline.
Context {lc : CaseMapping}.

(** The collaborators: the HTML parser behind [htmlSimilarity] (total on
    strings), the data extractor (which returns its data or throws, as it
    does when a keyword is not a valid regular expression), the HTTP fetcher
    (which resolves with the page or throws) and the clock. *)
Variable extractStructuralFeatures : jsstring → HtmlSimilarity.Features.
Variable hasLoginForm : jsstring → bool.
Variable extractAllData :
  jsstring → jsstring → list jsstring → MultiEngineSearch.Response Extracted.
Variable fetchUrl : jsstring → MultiEngineSearch.Response jsstring.
Variable now : jsstring.

(** The statements of the [if (html)] block that follow the extraction. *)
Definition analyzeHtml (html : jsstring) (extracted : Extracted)
    (companyProfile : CompanyProfile) (realSiteHtml : option jsstring)
    (options : Options) (finding : Finding) : Finding :=
  (* Check for keywords in content *)
  let finding :=
    if bool_decide (0 < length (keywords_found extracted)) then
      indicate (keyword_match ((keywords_found extracted).*1)
                  (foldl (λ sum k, (sum + k.2)%Z) 0%Z (keywords_found extracted)))
               2 finding
    else finding in
  (* Check for login form *)
  let finding :=
    if hasLoginForm html then indicate (login_form_detected 90) 3 finding else finding in
  (* Check HTML similarity with real site *)
  let finding :=
    match realSiteHtml with
    | Some real =>
        if checkSimilarity options && truthy real && hasLoginForm html then
          let similarity :=
            HtmlSimilarity64.compareHtmlStructure extractStructuralFeatures html real in
          if Binary64.ltb (Binary64.ofZ 60) (HtmlSimilarity64.overall similarity) then
            indicate (html_similarity (HtmlSimilarity64.overall similarity) similarity)
                     (Binary64.valueOf (HtmlSimilarity64.overall similarity) / 10) finding
          else finding
        else finding
    | None => finding
    end in
  (* Check for credentials/data leaks *)
  let finding :=
    if bool_decide (0 < length (credentials extracted)) then
      indicate (credentials_found (length (credentials extracted))) 5 finding
    else finding in
  (* Check for company domains in links *)
  let companyDomainMentions :=
    List.filter (λ link, existsb (λ domain, includes link domain) (domains companyProfile))
                (clearnet_links extracted) in
  let finding :=
    if bool_decide (0 < length companyDomainMentions) then
      indicate (company_domain_mentioned companyDomainMentions) 2 finding
    else finding in
  withCrawl (Some extracted) (Some true) (crawl_error finding) (crawl_reason finding) finding.

(** The value of [shouldCrawl].  The two numbers compared are finite doubles
    in the source; a finite double is a rational and [>=] on doubles is the
    order of their values, so the test is the one on [Q]. *)
Definition shouldCrawl (domainCheck : BrandCheck) (realSiteHtml : option jsstring)
    (options : Options) : bool :=
  match domainCheck with
  | Match _ _ confidence => Qle_bool (similarityThreshold options) confidence
  | NoMatch => false
  end
  || (checkSimilarity options && from_option truthy false realSiteHtml).

(** The statements of [analyzeSearchResult] that follow the computation of
    [domainCheck]: they return the finding ([None] is [null]) and, as the
    trace of their effect, the URLs they called the fetcher with. *)
Definition analyzeFrom (domainCheck : BrandCheck)
    (searchResult : MultiEngineSearch.SearchResult)
    (companyProfile : CompanyProfile) (realSiteHtml : option jsstring)
    (options : Options) : option Finding * list jsstring :=
  let finding :=
    {| url := MultiEngineSearch.url searchResult;
       title := MultiEngineSearch.title searchResult;
       description := MultiEngineSearch.description searchResult;
       source_engine := MultiEngineSearch.source_engine searchResult;
       found_at := MultiEngineSearch.found_at searchResult;
       analyzed_at := now;
       indicators := [];
       severity := low;
       severity_score := 0;
       extracted_data := None; was_crawled := None;
       crawl_error := None; crawl_reason := None |} in
  let finding :=
    match domainCheck with
    | Match keyword type confidence =>
        indicate (domain_similarity confidence keyword type) (confidence / 10) finding
    | NoMatch => finding
    end in
  (* Step 2: Check title and description for keywords (no crawling needed) *)
  let textToCheck :=
    toLowerCase (MultiEngineSearch.title searchResult ++ js " "
                 ++ MultiEngineSearch.description searchResult) in
  let keywordMatches :=
    List.filter (λ keyword, includes textToCheck (toLowerCase keyword))
                (keywords companyProfile) in
  let finding :=
    if bool_decide (0 < length keywordMatches) then
      indicate (keyword_in_metadata keywordMatches) 1 finding
    else finding in
  (* Step 3: Decide if we should crawl this site *)
  let '(finding, calls) :=
    if shouldCrawl domainCheck realSiteHtml options then
      match fetchUrl (MultiEngineSearch.url searchResult) with
      | MultiEngineSearch.Resolved html =>
          (if truthy html then
             (* Extract data *)
             match extractAllData html (MultiEngineSearch.url searchResult)
                     (keywords companyProfile) with
             | MultiEngineSearch.Resolved extracted =>
                 analyzeHtml html extracted companyProfile realSiteHtml options finding
             | MultiEngineSearch.Threw message =>
                 withCrawl (extracted_data finding) (Some false) (Some message)
                           (crawl_reason finding) finding
             end
           else finding,
           [MultiEngineSearch.url searchResult])
      | MultiEngineSearch.Threw message =>
          (withCrawl (extracted_data finding) (Some false) (Some message)
                     (crawl_reason finding) finding,
           [MultiEngineSearch.url searchResult])
      end
    else
      (withCrawl (extracted_data finding) (Some false) (crawl_error finding)
                 (Some (js "Low similarity - crawling skipped for efficiency")) finding,
       []) in
  (* Calculate final severity *)
  let finding := withSeverity (calculateSeverity (severity_score finding)) finding in
  (* Only return findings with indicators *)
  (if bool_decide (0 < length (indicators finding)) then Some finding else None, calls).

(** [analyzeSearchResult]: Step 1 computes [domainCheck] from the URL and
    the brand keywords; the rest of the function follows. *)
Definition analyzeSearchResult (searchResult : MultiEngineSearch.SearchResult)
    (companyProfile : CompanyProfile) (realSiteHtml : option jsstring)
    (options : Options) : option Finding * list jsstring :=
  (* Step 1: Check domain similarity (no crawling needed) *)
  let domainCheck :=
    checkBrandSimilarity (MultiEngineSearch.url searchResult) (keywords companyProfile) in
  analyzeFrom domainCheck searchResult companyProfile realSiteHtml options.

End pipeline.

End BrandImpersonation.

(** * Specifications *)

Module Spec.

(** [sub] occurs in [s] as a contiguous run of code units. *)
Definition infix (sub s : jsstring) : Prop :=
  ∃ pre post, s = pre ++ sub ++ post.

(** The edit distance by its recurrence, on strings read from their last
    code unit backwards (the way the matrix of [levenshteinDistance] grows). *)
Fixpoint editDistance (x y : jsstring) : nat :=
  match x with
  | [] => length y
  | c :: x' =>
      (fix inner (y : jsstring) : nat :=
         match y with
         | [] => length x
         | d :: y' =>
             if bool_decide (c = d) then editDistance x' y'
             else Nat.min (Nat.min (editDistance x' y' + 1) (inner y' + 1))
                          (editDistance x' y + 1)
         end) y
  end.

(** The entry that the matrix of [levenshteinDistance a b] holds at row [i],
    column [j] once it is written. *)
Definition cell (a b : jsstring) (i j : nat) : nat :=
  editDistance (rev (take i b)) (rev (take j a)).

(** The matrix while row [i] holds its first [j] entries: full rows above,
    the one-entry rows of the first loop below. *)
Definition filling (a b : jsstring) (i j : nat) : list (list nat) :=
  ((λ k, cell a b k <$> seq 0 (S (length a))) <$> seq 0 i)
  ++ [cell a b i <$> seq 0 j]
  ++ ((λ k, [k]) <$> seq (S i) (length b - i)).

(** *** The rules of the typosquatting detector, as the specification words
    them, on a candidate [cand] and a keyword [kw] *)

Definition omission (cand kw : jsstring) : Prop :=
  Z.of_nat (length cand) = (Z.of_nat (length kw) - 1)%Z
  ∧ ∃ i, i < length kw ∧ cand = delete i kw.

Definition addition (cand kw : jsstring) : Prop :=
  length cand = length kw + 1
  ∧ ∃ i c, i ≤ length kw ∧ (97 ≤ c ≤ 122)%N ∧ cand = take i kw ++ c :: drop i kw.

Definition swap (cand kw : jsstring) : Prop :=
  length cand = length kw
  ∧ ∃ i x y, kw !! i = Some x ∧ kw !! (S i) = Some y
             ∧ cand = take i kw ++ y :: x :: drop (i + 2) kw.

Definition lookalike (cand kw : jsstring) : Prop :=
  ∃ i c glyphs h,
    kw !! i = Some c ∧ DomainSimilarity.homoglyphsOf [c] = Some glyphs ∧ h ∈ glyphs
    ∧ infix (take i kw ++ h ++ drop (S i) kw) cand.

Definition similar (cand kw : jsstring) : Prop :=
  (80 < DomainSimilarity.calculateSimilarity cand kw)%Q.

Section selection.
Context {lc : CaseMapping}.
Import DomainSimilarity.

(** The strings the rules see: every function of the module lower-cases its
    arguments and removes the first [.onion] of the candidate anew. *)
Definition stripped (s : jsstring) : jsstring :=
  replace (toLowerCase s) (js ".onion") [].

(** The homoglyph rule as [detectHomoglyph] applies it. *)
Definition lookalikeRule (cand kw : jsstring) : Prop :=
  stripped cand ≠ toLowerCase kw ∧ lookalike (stripped cand) (toLowerCase kw).

(** The result the rules of [detectTyposquatting] select: every rule is
    enabled only when the rules before it fail. *)
Inductive selectsTypo (cand kw K : jsstring) : BrandCheck → Prop :=
  | select_same :
      cand = kw → selectsTypo cand kw K NoMatch
  | select_omission :
      cand ≠ kw → omission cand kw →
      selectsTypo cand kw K (Match K (Some character_omission) 95)
  | select_addition :
      cand ≠ kw → ¬ omission cand kw → addition cand kw →
      selectsTypo cand kw K (Match K (Some character_addition) 90)
  | select_swap :
      cand ≠ kw → ¬ omission cand kw → ¬ addition cand kw → swap cand kw →
      selectsTypo cand kw K (Match K (Some character_swap) 95)
  | select_homoglyph :
      cand ≠ kw → ¬ omission cand kw → ¬ addition cand kw → ¬ swap cand kw →
      lookalikeRule cand kw →
      selectsTypo cand kw K (Match K (Some homoglyph) 85)
  | select_similar :
      cand ≠ kw → ¬ omission cand kw → ¬ addition cand kw → ¬ swap cand kw →
      ¬ lookalikeRule cand kw → similar cand kw →
      selectsTypo cand kw K
        (Match K (Some high_similarity) (calculateSimilarity cand kw))
  | select_none :
      cand ≠ kw → ¬ omission cand kw → ¬ addition cand kw → ¬ swap cand kw →
      ¬ lookalikeRule cand kw → ¬ similar cand kw →
      selectsTypo cand kw K NoMatch.

(** The result the rule priority selects for the domain [D] and the keyword
    [K]: containment first, then the rules above on the strings that
    [detectTyposquatting] derives from its arguments. *)
Inductive selects (D K : jsstring) : BrandCheck → Prop :=
  | select_direct :
      infix (toLowerCase K) (stripped D) →
      selects D K (Match K (Some direct_match) 100)
  | select_typo result :
      ¬ infix (toLowerCase K) (stripped D) →
      selectsTypo (stripped (stripped D)) (toLowerCase (toLowerCase K)) K result →
      selects D K result.

(** What [checkBrandSimilarity] makes of a [detectTyposquatting] result when
    no further keyword is left. *)
Definition typoCheck (K : jsstring) (r : TypoResult) : BrandCheck :=
  if isTyposquatting r then Match K (type r) (confidence r) else NoMatch.

End selection.

(** *** The crawl gate *)

Section gate.
Context {lc : CaseMapping}.
Import DomainSimilarity BrandImpersonation.

(** The structural check is enabled and a reference page was downloaded
    (a page that is the empty string counts as none). *)
Definition referenceAvailable (realSiteHtml : option jsstring) (options : Options) : Prop :=
  checkSimilarity options = true ∧ ∃ real, realSiteHtml = Some real ∧ real ≠ [].

(** The gate as the specification words it: the kept domain match has a
    confidence of at least the threshold, or the structural check is enabled
    and a reference page was downloaded. *)
Definition gateOpen (domainCheck : BrandCheck) (realSiteHtml : option jsstring)
    (options : Options) : Prop :=
  (∃ keyword type confidence,
      domainCheck = Match keyword type confidence
      ∧ (similarityThreshold options <= confidence)%Q)
  ∨ referenceAvailable realSiteHtml options.

(** Some keyword of the list matches the domain with at least the given
    confidence. *)
Definition someMatchAtLeast (threshold : Q) (D : jsstring) (ks : list jsstring) : Prop :=
  ∃ k keyword type confidence,
    k ∈ ks ∧ detect D k = Match keyword type confidence
    ∧ (threshold <= confidence)%Q.

(** The indicators that metadata scoring produces. *)
Definition metadataIndicator (i : Indicator) : Prop :=
  match i with
  | domain_similarity _ _ _ | keyword_in_metadata _ => True
  | _ => False
  end.

(** The indicator list that metadata scoring leaves: the domain match, if
    any, then the brand keywords found in the title or the description, if
    any. *)
Definition metadataIndicators (domainCheck : BrandCheck)
    (searchResult : MultiEngineSearch.SearchResult) (companyProfile : CompanyProfile)
    : list Indicator :=
  match domainCheck with
  | Match keyword type confidence => [domain_similarity confidence keyword type]
  | NoMatch => []
  end
  ++ match List.filter
             (λ keyword,
                includes (toLowerCase (MultiEngineSearch.title searchResult ++ js " "
                                       ++ MultiEngineSearch.description searchResult))
                         (toLowerCase keyword))
             (keywords companyProfile) with
     | [] => []
     | found => [keyword_in_metadata found]
     end.

End gate.

(** *** The shared membership set *)

Section membership.
Import MultiEngineSearch.

(** What a backend task has recorded since it found the shared set to be
    [seen0]: results with pairwise distinct URLs, each URL new with respect
    to [seen0], now a member of the set, and attributed to the task's
    engine. *)
Definition recorded (engineName : jsstring) (seen0 : gset jsstring)
    (results : list SearchResult) (seenUrls : gset jsstring) : Prop :=
  seen0 ⊆ seenUrls
  ∧ NoDup (url <$> results)
  ∧ ∀ r, r ∈ results →
      url r ∈ seenUrls ∧ (url r ∉ seen0) ∧ source_engine r = engineName.

(** The results a settled task contributes to the aggregated list. *)
Definition resultsOf (s : Settled) : list SearchResult :=
  match s with
  | Fulfilled value => results value
  | Rejected _ => []
  end.

(** The tasks settled so far agree with the shared set: every outcome is a
    fulfilled one of a task of [enginesToUse], its results are recorded in
    the set, and no URL is held by two tasks. *)
Definition consistent (enginesToUse : list jsstring) (settled : gmap nat Settled)
    (seenUrls : gset jsstring) : Prop :=
  (∀ i s, settled !! i = Some s →
     ∃ engineName value,
       enginesToUse !! i = Some engineName ∧ s = Fulfilled value
       ∧ recorded engineName ∅ (results value) seenUrls)
  ∧ (∀ i j s s' r r',
       i ≠ j → settled !! i = Some s → settled !! j = Some s' →
       r ∈ resultsOf s → r' ∈ resultsOf s' → url r ≠ url r').

(** The selector that [parseSearchResults] uses for an engine. *)
Definition selectorOf (engineName : jsstring) : jsstring :=
  if includes engineName (js "haystak") then js ".result a.title"
  else if includes engineName (js "torch") then js ".result-block a"
  else if includes engineName (js "onionland") then js ".title a"
  else js "a[href]".

(** The backend task numbered [task], of the engine [engineName], reports
    the URL [u]: an anchor on its result page carries an onion link that
    normalises to [u]. *)
Definition reports (select : jsstring → jsstring → list Anchor)
    (matchRedirectUrl matchAddress : jsstring → option jsstring)
    (decodeURIComponent : jsstring → Response jsstring)
    (fetch fetchAhmiaSearch : nat → Response jsstring)
    (task : nat) (engineName u : jsstring) : Prop :=
  if bool_decide (engineName = js "ahmia") then
    ∃ page elem link target,
      fetchAhmiaSearch task = Resolved page
      ∧ elem ∈ select page (js "li.result a")
      ∧ href elem = Some link ∧ truthy link = true
      ∧ ahmiaUrl matchRedirectUrl matchAddress decodeURIComponent link
        = Resolved (Some target)
      ∧ truthy target && includes target (js ".onion") = true
      ∧ u = normalizeOnionUrl target
  else
    ∃ html elem link,
      fetch task = Resolved html
      ∧ elem ∈ select html (selectorOf engineName)
      ∧ href elem = Some link
      ∧ truthy link && includes link (js ".onion") = true
      ∧ u = normalizeOnionUrl link.

(** The state of an [.each] loop moves on: the set and the results grow,
    and every new member of the set is the URL of a result. *)
Definition advances (results : list SearchResult) (seenUrls : gset jsstring)
    (results' : list SearchResult) (seen' : gset jsstring) : Prop :=
  seenUrls ⊆ seen' ∧ results `prefix_of` results'
  ∧ ∀ u, u ∈ seen' → u ∈ seenUrls ∨ u ∈ url <$> results'.

(** A backend task got through all the anchors of its page: it ended
    without an error and with fewer results than the cap. *)
Definition finished (value : EngineResult) (maxResults : Z) : Prop :=
  error value = None ∧ (Z.of_nat (length (results value)) < maxResults)%Z.

(** A sample run: a page query that finds one link on the page [A] and the
    same onion address under another scheme, next to a second link, on any
    other page; a network on which task 0 times out and the other tasks get
    the page [B]. *)
Definition samplePage (html selector : jsstring) : list Anchor :=
  if bool_decide (html = js "A") then
    [ {| href := Some (js "http://market.onion"); text := js "Market";
         snippet := js "first" |} ]
  else
    [ {| href := Some (js "https://market.onion"); text := js "Mirror";
         snippet := js "second" |};
      {| href := Some (js "forum.onion/board"); text := [];
         snippet := js "third" |} ].

Definition sampleTimeout (task : nat) : Response jsstring :=
  match task with
  | 0 => Threw (js "Timeout")
  | _ => Resolved (js "B")
  end.

Definition samplePages (task : nat) : Response jsstring :=
  match task with
  | 0 => Resolved (js "A")
  | _ => Resolved (js "B")
  end.

Definition noOptions : Options :=
  {| maxResultsPerEngine := None; timeout := None |}.

(** A run in which Ahmia fails half way: its result page holds a link to
    [http://market.onion] and then a redirect link whose target cannot be
    decoded; the page of every other engine holds the same onion address. *)
Definition lostPage (html selector : jsstring) : list Anchor :=
  if bool_decide (selector = js "li.result a") then
    [ {| href := Some (js "http://market.onion"); text := js "Market";
         snippet := js "first" |};
      {| href := Some (js "/search/redirect?redirect_url=http%"); text := js "Broken";
         snippet := js "second" |} ]
  else
    [ {| href := Some (js "https://market.onion"); text := js "Mirror";
         snippet := js "third" |} ].

Definition lostAhmia (task : nat) (engineName : jsstring) (seenUrls : gset jsstring)
    : EngineResult * gset jsstring :=
  searchEngine lostPage (λ _, (Some (js "token"), Some (js "value")))
    (λ _, Some (js "http%")) (λ _, None) (λ _, Threw (js "URI malformed"))
    (λ _, Resolved (js "results")) (λ _, Resolved (js "home"))
    (λ _, Resolved (js "results")) (js "2026-01-01T00:00:00.000Z")
    task engineName 20 seenUrls.

Definition lostSearch (order : list nat) : option SearchReport :=
  multiEngineSearch (lc := asciiLowerCase) lostPage
    (λ _, (Some (js "token"), Some (js "value")))
    (λ _, Some (js "http%")) (λ _, None) (λ _, Threw (js "URI malformed"))
    (λ _, Resolved (js "results")) (λ _, Resolved (js "home"))
    (λ _, Resolved (js "results")) (js "2026-01-01T00:00:00.000Z")
    (js "market") (Some [js "ahmia"; js "haystak"]) noOptions order.

Definition lostReports (task : nat) (engineName u : jsstring) : Prop :=
  reports lostPage (λ _, Some (js "http%")) (λ _, None) (λ _, Threw (js "URI malformed"))
    (λ _, Resolved (js "results")) (λ _, Resolved (js "results")) task engineName u.

Definition lostReport : SearchReport :=
  {| query := js "market";
     engines_used := [js "ahmia"; js "haystak"];
     total_engines := 2;
     all_results := [];
     errors := [];
     total_results := 0 |}.

(** [multiEngineSearch] in the sample environment, on the fetcher given. *)
Definition sampleSearch (fetch : nat → Response jsstring)
    (engines : list jsstring) (order : list nat) : option SearchReport :=
  multiEngineSearch (lc := asciiLowerCase) samplePage (λ _, (None, None))
    (λ _, None) (λ _, None) Resolved fetch fetch fetch (js "2026-01-01T00:00:00.000Z")
    (js "market") (Some engines) noOptions order.

(** The results and reports expected of the sample runs. *)
Definition sampleResult (title url description engine : jsstring) : SearchResult :=
  {| title := title; url := url; description := description;
     source_engine := engine; found_at := js "2026-01-01T00:00:00.000Z" |}.

Definition sampleReport (results : list SearchResult) : SearchReport :=
  {| query := js "market";
     engines_used := [js "torch"; js "haystak"];
     total_engines := 2;
     all_results := results;
     errors := [];
     total_results := length results |}.

End membership.

(** *** Structural comparison *)

Import HtmlSimilarity.

(** The title sub-score by cases. *)
Inductive titleScore (title1 title2 : jsstring) : Q → Prop :=
  | title_same :
      title1 = title2 → titleScore title1 title2 1
  | title_contained :
      title1 ≠ title2 → infix title2 title1 ∨ infix title1 title2 →
      titleScore title1 title2 (1 # 2)
  | title_unrelated :
      title1 ≠ title2 → ¬ infix title2 title1 → ¬ infix title1 title2 →
      titleScore title1 title2 0.

(** The two inputs of a login form: [{type: password, name: pwd}] and
    [{type: email, name: user}]; an absent [id] attribute is recorded as the
    empty string. *)
Definition passwordInput : InputField :=
  {| input_type := js "password"; input_name := js "pwd"; input_id := [] |}.

Definition emailInput : InputField :=
  {| input_type := js "email"; input_name := js "user"; input_id := [] |}.

(** The features of a page that holds these two inputs, the given title and
    no [class] or [id] attribute. *)
Definition loginPage (title : jsstring) : Features :=
  {| title := title; formCount := 1;
     inputFields := [passwordInput; emailInput];
     cssClasses := []; ids := []; links := []; images := [] |}.

(** Two pages with the two inputs, in either order, and the same title: the
    page [A] has three classes, every other page these and a fourth. *)
Definition classPages (html : jsstring) : Features :=
  if bool_decide (html = js "A") then
    {| title := js "Sign in"; formCount := 1;
       inputFields := [passwordInput; emailInput];
       cssClasses := [js "form"; js "field"; js "button"];
       ids := []; links := []; images := [] |}
  else
    {| title := js "Sign in"; formCount := 1;
       inputFields := [emailInput; passwordInput];
       cssClasses := [js "form"; js "field"; js "button"; js "banner"];
       ids := []; links := []; images := [] |}.


End Spec.

(** * Further functions of the sources *)

(** ** utils/httpFetcher.js *)

Module HttpFetcher.

(** What one [await axios.get(url, config)] does: it resolves with a response
    (status and body) or rejects with an error (its [code], if any, and its
    message). *)
Inductive Attempt :=
  | Answered (status : nat) (data : jsstring)
  | Rejected (code : option jsstring) (message : jsstring).

(** How a call of [fetchUrl] ends: [return response.data], the end of the
    function body (the value [undefined]) or [throw new Error(errorMsg)]. *)
Inductive Outcome :=
  | Returned (data : jsstring)
  | ReturnedUndefined
  | Thrown (message : jsstring).

(** The decimal digits of a status, as the template literal prints it. *)
Definition decimal (n : nat) : jsstring := js (pretty n).

(** The error message the last [catch] throws. *)
Definition simplify (code : option jsstring) (message : jsstring) : jsstring :=
  if bool_decide (code = Some (js "ECONNREFUSED")) then js "Connection refused"
  else if bool_decide (code = Some (js "ETIMEDOUT")) then js "Timeout"
  else if bool_decide (code = Some (js "ENOTFOUND")) then js "Host not found"
  else if includes message (js "403") then js "Access forbidden (403)"
  else if includes message (js "self-signed") then js "SSL error"
  else message.

(** The [try] block of one round: the data to return, or the error (code
    and message) that reaches the [catch]. *)
Definition tryAttempt (a : Attempt) : jsstring + option jsstring * jsstring :=
  match a with
  | Answered status data =>
      (* Handle 4xx errors *)
      if bool_decide (400 ≤ status) then inr (None, js "HTTP " ++ decimal status)
      else inl data
  | Rejected code message => inr (code, message)
  end.

(** The retry loop [for (let attempt = 0; attempt <= retries; attempt++)]
    from round [attempt] on; [retries] is any finite number, and [rounds] is
    the number of values of [attempt] that are left with
    [attempt <= retries].  The second component counts the requests made. *)
Fixpoint retryLoop (axios : nat → Attempt) (retries : Q) (attempt rounds : nat)
    : Outcome * nat :=
  match rounds with
  | 0 => (ReturnedUndefined, attempt)
  | S rounds =>
      match tryAttempt (axios attempt) with
      | inl data => (Returned data, S attempt)
      | inr (code, message) =>
          (* attempt === retries *)
          if Qeq_bool (inject_Z (Z.of_nat attempt)) retries
          then (Thrown (simplify code message), S attempt)
          else (* Quick retry (500ms) *)
               retryLoop axios retries (S attempt) rounds
      end
  end.

(** [fetchUrl]: [axios n] is what the [n]-th request meets; [retries] is the
    option of that name (default 1), a finite number that need not be
    whole.  The values of [attempt] with [attempt <= retries] are
    0, ..., [floor retries], none when [retries] is negative. *)
Definition fetchUrl (axios : nat → Attempt) (retries : option Q) : Outcome * nat :=
  let retries := default 1%Q retries in
  retryLoop axios retries 0 (Z.to_nat (Qfloor retries + 1)).

End HttpFetcher.

(** ** features/brandImpersonation.js: [analyzeSearchResults] *)

Module BrandReport.

(** The [options] argument of [analyzeSearchResults]; an absent field takes
    its default. *)
Record Options := {
  checkSimilarity : option bool;
  downloadRealSite : option bool;
  crawlHighSimilarity : option bool;
  similarityThreshold : option Q
}.

Record SeverityCounts := {
  critical : nat;
  high : nat;
  medium : nat;
  low : nat
}.

(** The object [results] that [analyzeSearchResults] returns. *)
Record Results := {
  companyName : jsstring;
  analyzedAt : jsstring;
  totalAnalyzed : nat;
  totalFindings : nat;
  findings : list BrandImpersonation.Finding;
  severityCounts : SeverityCounts
}.

(** [results.severityCounts[finding.severity]++] *)
Definition count (s : BrandImpersonation.Severity) (c : SeverityCounts) : SeverityCounts :=
  match s with
  | BrandImpersonation.critical =>
      {| critical := S (critical c); high := high c; medium := medium c; low := low c |}
  | BrandImpersonation.high =>
      {| critical := critical c; high := S (high c); medium := medium c; low := low c |}
  | BrandImpersonation.medium =>
      {| critical := critical c; high := high c; medium := S (medium c); low := low c |}
  | BrandImpersonation.low =>
      {| critical := critical c; high := high c; medium := medium c; low := S (low c) |}
  end.

(** The table [severityOrder]. *)
Definition severityOrder (s : BrandImpersonation.Severity) : Z :=
  match s with
  | BrandImpersonation.critical => 0
  | BrandImpersonation.high => 1
  | BrandImpersonation.medium => 2
  | BrandImpersonation.low => 3
  end.

(** [findings.sort((a, b) => severityOrder[a.severity] - severityOrder[b.severity])].
    [Array.prototype.sort] is stable, which fixes its result for this
    comparator; the stable arrangement is computed here by insertion. *)
Fixpoint insertFinding (a : BrandImpersonation.Finding) (sorted : list BrandImpersonation.Finding)
    : list BrandImpersonation.Finding :=
  match sorted with
  | [] => [a]
  | b :: rest =>
      if (severityOrder (BrandImpersonation.severity a)
          - severityOrder (BrandImpersonation.severity b) <=? 0)%Z
      then a :: b :: rest
      else b :: insertFinding a rest
  end.

Definition sortFindings (findings : list BrandImpersonation.Finding)
    : list BrandImpersonation.Finding :=
  foldr insertFinding [] findings.

Section report.
Context {lc : CaseMapping}.

(** The collaborators of the analysis; the fetcher is asked once for the
    real site ([fetchReal]) and at most once for the candidate numbered [i]
    ([fetchUrl i]). *)
Variable extractStructuralFeatures : jsstring → HtmlSimilarity.Features.
Variable hasLoginForm : jsstring → bool.
Variable extractAllData :
  jsstring → jsstring → list jsstring
  → MultiEngineSearch.Response BrandImpersonation.Extracted.
Variable fetchReal : jsstring → MultiEngineSearch.Response jsstring.
Variable fetchUrl : nat → jsstring → MultiEngineSearch.Response jsstring.
Variable now : jsstring.

(** [fetchRealSite]: the page, or [null] ([None]) when the fetcher throws. *)
Definition fetchRealSite (url : jsstring) : option jsstring :=
  match fetchReal url with
  | MultiEngineSearch.Resolved html => Some html
  | MultiEngineSearch.Threw _ => None
  end.

(** The loop [for (const searchResult of searchResults)], from the
    candidate numbered [i] on; the state is [results.findings],
    [results.severityCounts] and the calls of the fetcher made so far. *)
Fixpoint analyzeEach (i : nat) (searchResults : list MultiEngineSearch.SearchResult)
    (companyProfile : BrandImpersonation.CompanyProfile) (realSiteHtml : option jsstring)
    (options : BrandImpersonation.Options)
    (findings : list BrandImpersonation.Finding) (counts : SeverityCounts)
    (calls : list jsstring)
    : list BrandImpersonation.Finding * SeverityCounts * list jsstring :=
  match searchResults with
  | [] => (findings, counts, calls)
  | searchResult :: rest =>
      let '(finding, asked) :=
        BrandImpersonation.analyzeSearchResult extractStructuralFeatures hasLoginForm
          extractAllData (fetchUrl i) now searchResult companyProfile realSiteHtml options in
      match finding with
      | Some finding =>
          analyzeEach (S i) rest companyProfile realSiteHtml options
            (findings ++ [finding]) (count (BrandImpersonation.severity finding) counts)
            (calls ++ asked)
      | None =>
          analyzeEach (S i) rest companyProfile realSiteHtml options
            findings counts (calls ++ asked)
      end
  end.

(** [analyzeSearchResults] returns [results] and, as the trace of its
    effects, the URLs it called [httpFetcher.fetchUrl] with, in order (each
    call may make several HTTP calls). *)
Definition analyzeSearchResults (searchResults : list MultiEngineSearch.SearchResult)
    (companyProfile : BrandImpersonation.CompanyProfile) (options : Options)
    : Results * list jsstring :=
  let checkSimilarity := default true (checkSimilarity options) in
  let downloadRealSite := default true (downloadRealSite options) in
  let crawlHighSimilarity := default true (crawlHighSimilarity options) in
  let similarityThreshold := default 70%Q (similarityThreshold options) in
  (* Download real site once for comparison *)
  let '(realSiteHtml, calls) :=
    match BrandImpersonation.realLoginUrl companyProfile with
    | Some realLoginUrl =>
        if downloadRealSite && truthy realLoginUrl
        then (fetchRealSite realLoginUrl, [realLoginUrl])
        else (None, [])
    | None => (None, [])
    end in
  (* Analyze each search result *)
  let '(findings, counts, calls) :=
    analyzeEach 0 searchResults companyProfile realSiteHtml
      {| BrandImpersonation.checkSimilarity := checkSimilarity;
         BrandImpersonation.crawlHighSimilarity := crawlHighSimilarity;
         BrandImpersonation.similarityThreshold := similarityThreshold |}
      [] {| critical := 0; high := 0; medium := 0; low := 0 |} calls in
  (* Sort findings by severity *)
  ({| companyName := BrandImpersonation.companyName companyProfile;
      analyzedAt := now;
      totalAnalyzed := length searchResults;
      totalFindings := length findings;
      findings := sortFindings findings;
      severityCounts := counts |},
   calls).

End report.

End BrandReport.

(** ** monitor.js: the steps of [runFullScan] that follow the search *)

Module Monitor.

(** The loop under [// Remove duplicates]: [uniqueResults] and [seenUrls]
    after the results [allSearchResults]. *)
Fixpoint removeDuplicatesFrom (allSearchResults uniqueResults : list MultiEngineSearch.SearchResult)
    (seenUrls : gset jsstring) : list MultiEngineSearch.SearchResult :=
  match allSearchResults with
  | [] => uniqueResults
  | result :: rest =>
      if bool_decide (MultiEngineSearch.url result ∉ seenUrls)
      then removeDuplicatesFrom rest (uniqueResults ++ [result])
             ({[ MultiEngineSearch.url result ]} ∪ seenUrls)
      else removeDuplicatesFrom rest uniqueResults seenUrls
  end.

Definition removeDuplicates (allSearchResults : list MultiEngineSearch.SearchResult)
    : list MultiEngineSearch.SearchResult :=
  removeDuplicatesFrom allSearchResults [] ∅.

(** [results.summary] *)
Record Summary := {
  totalFindings : nat;
  criticalAlerts : nat;
  highAlerts : nat;
  mediumAlerts : nat;
  lowAlerts : nat
}.

(** The fields of a feature report that [updateSummary] reads; [None] is an
    absent field. *)
Record Counts := {
  critical : option nat;
  high : option nat;
  medium : option nat;
  low : option nat
}.

Record FeatureReport := {
  report_totalFindings : option nat;
  report_severityCounts : option Counts
}.

Definition updateSummary (summary : Summary) (featureReport : FeatureReport) : Summary :=
  let total :=
    match report_totalFindings featureReport with
    | Some n => if bool_decide (n ≠ 0) then totalFindings summary + n else totalFindings summary
    | None => totalFindings summary
    end in
  match report_severityCounts featureReport with
  | Some counts =>
      {| totalFindings := total;
         criticalAlerts := criticalAlerts summary + default 0 (critical counts);
         highAlerts := highAlerts summary + default 0 (high counts);
         mediumAlerts := mediumAlerts summary + default 0 (medium counts);
         lowAlerts := lowAlerts summary + default 0 (low counts) |}
  | None =>
      {| totalFindings := total;
         criticalAlerts := criticalAlerts summary;
         highAlerts := highAlerts summary;
         mediumAlerts := mediumAlerts summary;
         lowAlerts := lowAlerts summary |}
  end.

(** The feature report that [runFullScan] hands to [updateSummary] after
    brand monitoring. *)
Definition brandFeatureReport (brandReport : BrandReport.Results) : FeatureReport :=
  {| report_totalFindings := Some (BrandReport.totalFindings brandReport);
     report_severityCounts :=
       Some {| critical := Some (BrandReport.critical (BrandReport.severityCounts brandReport));
               high := Some (BrandReport.high (BrandReport.severityCounts brandReport));
               medium := Some (BrandReport.medium (BrandReport.severityCounts brandReport));
               low := Some (BrandReport.low (BrandReport.severityCounts brandReport)) |} |}.

End Monitor.

(** ** Notions used to state further properties *)

Module Props.

(** The points that the analysis adds to [severity_score] when it pushes an
    indicator. *)
Definition points (i : BrandImpersonation.Indicator) : Q :=
  match i with
  | BrandImpersonation.domain_similarity confidence _ _ => confidence / 10
  | BrandImpersonation.keyword_in_metadata _ => 1
  | BrandImpersonation.keyword_match _ _ => 2
  | BrandImpersonation.login_form_detected _ => 3
  | BrandImpersonation.html_similarity similarity_score _ =>
      Binary64.valueOf similarity_score / 10
  | BrandImpersonation.credentials_found _ => 5
  | BrandImpersonation.company_domain_mentioned _ => 2
  end.

Definition total (indicators : list BrandImpersonation.Indicator) : Q :=
  foldr (λ i sum, points i + sum)%Q 0%Q indicators.

(** A finding under construction keeps its score equal to the points of its
    indicators, none of which is negative. *)
Definition scored (finding : BrandImpersonation.Finding) : Prop :=
  (BrandImpersonation.severity_score finding
   == total (BrandImpersonation.indicators finding))%Q
  ∧ Forall (λ i, 0 <= points i)%Q (BrandImpersonation.indicators finding).

(** What a finding records about a crawl that did not get through: the
    flag [false], the message of the error, no extracted data and metadata
    indicators only. *)
Definition failedCrawl (message : jsstring) (finding : BrandImpersonation.Finding) : Prop :=
  BrandImpersonation.was_crawled finding = Some false
  ∧ BrandImpersonation.crawl_error finding = Some message
  ∧ BrandImpersonation.extracted_data finding = None
  ∧ Forall Spec.metadataIndicator (BrandImpersonation.indicators finding).

(** A request attempt that does not end [fetchUrl]: rejected, or answered
    with a status of 400 or more. *)
Definition failing (a : HttpFetcher.Attempt) : Prop :=
  match a with
  | HttpFetcher.Answered status _ => 400 ≤ status
  | HttpFetcher.Rejected _ _ => True
  end.

(** The code and message of the error that a failing attempt raises. *)
Definition raised (a : HttpFetcher.Attempt) : option jsstring * jsstring :=
  match a with
  | HttpFetcher.Answered status _ => (None, js "HTTP " ++ HttpFetcher.decimal status)
  | HttpFetcher.Rejected code message => (code, message)
  end.

(** Sample collaborators and inputs of the analysis. *)
Definition sampleExtracted : BrandImpersonation.Extracted :=
  {| BrandImpersonation.keywords_found := [(js "market", 2%Z)];
     BrandImpersonation.credentials := [];
     BrandImpersonation.clearnet_links := [] |}.

Definition sampleProfile : BrandImpersonation.CompanyProfile :=
  {| BrandImpersonation.companyName := js "Market";
     BrandImpersonation.domains := [js "market.com"];
     BrandImpersonation.keywords := [js "market"];
     BrandImpersonation.realLoginUrl := None |}.

Definition sampleCandidate (url title : jsstring) : MultiEngineSearch.SearchResult :=
  {| MultiEngineSearch.title := title; MultiEngineSearch.url := url;
     MultiEngineSearch.description := js "shop";
     MultiEngineSearch.source_engine := js "torch";
     MultiEngineSearch.found_at := js "2026-01-01T00:00:00.000Z" |}.

Definition sampleOptions : BrandImpersonation.Options :=
  {| BrandImpersonation.checkSimilarity := true;
     BrandImpersonation.crawlHighSimilarity := true;
     BrandImpersonation.similarityThreshold := 70 |}.

(** A profile with two keywords of which the second is a look-alike of the
    first, and options with a threshold of 90. *)
Definition lookalikeProfile : BrandImpersonation.CompanyProfile :=
  {| BrandImpersonation.companyName := js "Google";
     BrandImpersonation.domains := [js "google.com"];
     BrandImpersonation.keywords := [js "google"; js "g0ogle"];
     BrandImpersonation.realLoginUrl := None |}.

Definition strictOptions : BrandImpersonation.Options :=
  {| BrandImpersonation.checkSimilarity := true;
     BrandImpersonation.crawlHighSimilarity := true;
     BrandImpersonation.similarityThreshold := 90 |}.

(** [analyzeSearchResult] with the sample collaborators, on the fetcher
    given. *)
Definition sampleAnalysis (fetchUrl : jsstring → MultiEngineSearch.Response jsstring)
    (candidate : MultiEngineSearch.SearchResult)
    : option BrandImpersonation.Finding * list jsstring :=
  BrandImpersonation.analyzeSearchResult (lc := asciiLowerCase)
    (λ _, Spec.loginPage []) (λ _, true) (λ _ _ _, MultiEngineSearch.Resolved sampleExtracted) fetchUrl
    (js "2026-01-02T00:00:00.000Z") candidate sampleProfile None sampleOptions.

(** [analyzeSearchResults] with the sample collaborators: the candidate
    numbered 1 cannot be fetched. *)
Definition sampleReport (candidates : list MultiEngineSearch.SearchResult)
    : BrandReport.Results * list jsstring :=
  BrandReport.analyzeSearchResults (lc := asciiLowerCase)
    (λ _, Spec.loginPage []) (λ _, true) (λ _ _ _, MultiEngineSearch.Resolved sampleExtracted)
    (λ _, MultiEngineSearch.Threw (js "Timeout"))
    (λ i _, match i with
            | 1 => MultiEngineSearch.Threw (js "Timeout")
            | _ => MultiEngineSearch.Resolved (js "<html>")
            end)
    (js "2026-01-02T00:00:00.000Z") candidates sampleProfile
    {| BrandReport.checkSimilarity := None; BrandReport.downloadRealSite := None;
       BrandReport.crawlHighSimilarity := None; BrandReport.similarityThreshold := None |}.

#[global] Instance Severity_eq_dec : EqDecision BrandImpersonation.Severity.
Proof. solve_decision. Defined.

(** The number of findings of one severity. *)
Definition tally (s : BrandImpersonation.Severity)
    (findings : list BrandImpersonation.Finding) : nat :=
  length (filter (λ f, BrandImpersonation.severity f = s) findings).

(** The page that [analyzeSearchResults] compares candidates against: the
    real login page when it is to be downloaded and the download succeeds. *)
Definition realSite (fetchReal : jsstring → MultiEngineSearch.Response jsstring)
    (companyProfile : BrandImpersonation.CompanyProfile) (options : BrandReport.Options)
    : option jsstring :=
  match BrandImpersonation.realLoginUrl companyProfile with
  | Some realLoginUrl =>
      if default true (BrandReport.downloadRealSite options) && truthy realLoginUrl
      then BrandReport.fetchRealSite fetchReal realLoginUrl
      else None
  | None => None
  end.

(** The options that [analyzeSearchResults] hands on to
    [analyzeSearchResult]. *)
Definition handedOn (options : BrandReport.Options) : BrandImpersonation.Options :=
  {| BrandImpersonation.checkSimilarity := default true (BrandReport.checkSimilarity options);
     BrandImpersonation.crawlHighSimilarity :=
       default true (BrandReport.crawlHighSimilarity options);
     BrandImpersonation.similarityThreshold :=
       default 70%Q (BrandReport.similarityThreshold options) |}.

(** The findings that a list of per-candidate analyses yields, in candidate
    order. *)
Definition found (analyze : nat → MultiEngineSearch.SearchResult
                             → option BrandImpersonation.Finding)
    (searchResults : list MultiEngineSearch.SearchResult)
    : list BrandImpersonation.Finding :=
  omap id (imap analyze searchResults).

(** The findings of the candidates of [analyzeSearchResults], in candidate
    order: what [analyzeSearchResult] returns for each of them. *)
Definition candidateFindings {lc : CaseMapping}
    (extractStructuralFeatures : jsstring → HtmlSimilarity.Features)
    (hasLoginForm : jsstring → bool)
    (extractAllData : jsstring → jsstring → list jsstring
                      → MultiEngineSearch.Response BrandImpersonation.Extracted)
    (fetchReal : jsstring → MultiEngineSearch.Response jsstring)
    (fetchUrl : nat → jsstring → MultiEngineSearch.Response jsstring)
    (now : jsstring)
    (searchResults : list MultiEngineSearch.SearchResult)
    (companyProfile : BrandImpersonation.CompanyProfile) (options : BrandReport.Options)
    : list BrandImpersonation.Finding :=
  found (λ i searchResult,
           (BrandImpersonation.analyzeSearchResult extractStructuralFeatures hasLoginForm
              extractAllData (fetchUrl i) now searchResult companyProfile
              (realSite fetchReal companyProfile options) (handedOn options)).1)
        searchResults.

(** The candidates for which the crawl gate is open. *)
Definition gated {lc : CaseMapping}
    (fetchReal : jsstring → MultiEngineSearch.Response jsstring)
    (searchResults : list MultiEngineSearch.SearchResult)
    (companyProfile : BrandImpersonation.CompanyProfile) (options : BrandReport.Options)
    : list MultiEngineSearch.SearchResult :=
  List.filter
    (λ searchResult,
       BrandImpersonation.shouldCrawl
         (DomainSimilarity.checkBrandSimilarity (MultiEngineSearch.url searchResult)
            (BrandImpersonation.keywords companyProfile))
         (realSite fetchReal companyProfile options) (handedOn options))
    searchResults.

(** The severity counts after the findings given have been counted. *)
Definition counted (findings : list BrandImpersonation.Finding)
    (c : BrandReport.SeverityCounts) : BrandReport.SeverityCounts :=
  foldl (λ c f, BrandReport.count (BrandImpersonation.severity f) c) c findings.

(** The shape of a search result: its URL starts with [http] and contains
    [.onion], and its title is not empty. *)
Definition shaped (r : MultiEngineSearch.SearchResult) : Prop :=
  startsWith (MultiEngineSearch.url r) (js "http") = true
  ∧ includes (MultiEngineSearch.url r) (js ".onion") = true
  ∧ truthy (MultiEngineSearch.title r) = true.

(** The results of one backend: at most [maxResults] of them, all of the
    shape above. *)
Definition bounded (maxResults : Z) (results : list MultiEngineSearch.SearchResult) : Prop :=
  length results ≤ Z.to_nat maxResults ∧ Forall shaped results.

End Props.

(** * Proofs *)

(** ** Strings *)

Section strings.
Import Spec.

Lemma startsWith_spec (s p : jsstring) :
  startsWith s p = true ↔ ∃ post, s = p ++ post.
Proof.
  revert s. induction p as [|c p IH]; intros s; simpl.
  - split; [intros _; by exists s|done].
  - destruct s as [|d s].
    + split; [done|]. intros [post ?]. done.
    + rewrite andb_true_iff, bool_decide_eq_true, IH. split.
      * intros [-> [post ->]]. eauto.
      * intros [post [= -> ->]]. eauto.
Qed.

Lemma includes_spec (s sub : jsstring) :
  includes s sub = true ↔ infix sub s.
Proof.
  unfold infix. induction s as [|d s IH]; simpl.
  - rewrite orb_false_r, startsWith_spec. split.
    + intros [post ->]. exists [], post. done.
    + intros (pre & post & H). symmetry in H.
      apply app_eq_nil in H as [-> H]. apply app_eq_nil in H as [-> ->].
      exists []. done.
  - rewrite orb_true_iff, startsWith_spec, IH. split.
    + intros [[post ->]|(pre & post & ->)].
      * exists [], post. done.
      * exists (d :: pre), post. done.
    + intros (pre & post & H). destruct pre as [|e pre]; simpl in H.
      * left. eauto.
      * right. injection H as -> ->. eauto.
Qed.

Lemma includes_refl (s : jsstring) : includes s s = true.
Proof. apply includes_spec. exists [], []. by rewrite app_nil_r. Qed.

Lemma includes_nil (s : jsstring) : includes s [] = true.
Proof. apply includes_spec. exists [], s. done. Qed.

End strings.

(** ** Loops and arrays *)

Section loops.

Lemma foldl_seq_invariant {S : Type} (P : nat → S → Prop) (body : nat → S → S)
    (n lo : nat) (st : S) :
  P lo st →
  (∀ i s, lo ≤ i < lo + n → P i s → P (Datatypes.S i) (body i s)) →
  P (lo + n) (foldl (λ st i, body i st) st (seq lo n)).
Proof.
  revert lo st. induction n as [|n IH]; intros lo st H0 Hstep; simpl.
  - by rewrite Nat.add_0_r.
  - replace (lo + Datatypes.S n) with (Datatypes.S lo + n) by lia.
    apply IH.
    + apply Hstep; [lia|done].
    + intros i s Hi. apply Hstep. lia.
Qed.

Lemma for_range_invariant {S : Type} (P : nat → S → Prop) (lo hi : nat)
    (body : nat → S → S) (st : S) :
  lo ≤ hi →
  P lo st →
  (∀ i s, lo ≤ i < hi → P i s → P (Datatypes.S i) (body i s)) →
  P hi (for_range lo hi body st).
Proof.
  intros Hle H0 Hstep. unfold for_range.
  replace hi with (lo + (hi - lo)) at 1 by lia.
  apply foldl_seq_invariant; [done|].
  intros i s Hi. apply Hstep. lia.
Qed.

Lemma arr_set_append {A : Type} (hole : A) (arr : list A) (i : nat) (v : A) :
  length arr = i → arr_set hole arr i v = arr ++ [v].
Proof.
  intros <-. unfold arr_set. case_decide; [lia|]. by rewrite Nat.sub_diag.
Qed.

End loops.

(** ** Levenshtein distance *)

Section levenshtein.
Import Spec DomainSimilarity.

Lemma editDistance_nil_r (x : jsstring) : editDistance x [] = length x.
Proof. by destruct x. Qed.

Lemma editDistance_cons (c d : N) (x y : jsstring) :
  editDistance (c :: x) (d :: y) =
    if bool_decide (c = d) then editDistance x y
    else Nat.min (Nat.min (editDistance x y + 1) (editDistance (c :: x) y + 1))
                 (editDistance x (d :: y) + 1).
Proof. done. Qed.

Lemma editDistance_sym (x y : jsstring) : editDistance x y = editDistance y x.
Proof.
  revert y. induction x as [|c x IHx]; intros y.
  - by rewrite editDistance_nil_r.
  - induction y as [|d y IHy]; [done|].
    rewrite !editDistance_cons, IHy, (IHx y), (IHx (d :: y)).
    destruct (decide (c = d)) as [->|Hne].
    + by rewrite !bool_decide_eq_true_2.
    + rewrite !bool_decide_eq_false_2 by congruence. lia.
Qed.

Lemma editDistance_refl (x : jsstring) : editDistance x x = 0.
Proof.
  induction x as [|c x IH]; [done|].
  by rewrite editDistance_cons, bool_decide_eq_true_2.
Qed.

Variables a b : jsstring.

#[local] Abbreviation cell := (cell a b).
#[local] Abbreviation filling := (filling a b).

Lemma cell_0_l (j : nat) : j ≤ length a → cell 0 j = j.
Proof.
  intros Hj. unfold cell. rewrite take_0. simpl.
  rewrite length_rev, length_take. lia.
Qed.

Lemma cell_0_r (i : nat) : i ≤ length b → cell i 0 = i.
Proof.
  intros Hi. unfold cell. rewrite take_0, editDistance_nil_r.
  rewrite length_rev, length_take. lia.
Qed.

Lemma cell_step (i j : nat) (c d : N) :
  b !! i = Some c → a !! j = Some d →
  cell (S i) (S j) =
    if bool_decide (c = d) then cell i j
    else Nat.min (Nat.min (cell i j + 1) (cell (S i) j + 1)) (cell i (S j) + 1).
Proof.
  intros Hb Ha. unfold cell.
  rewrite (take_S_r b i c Hb), (take_S_r a j d Ha), !rev_unit.
  apply editDistance_cons.
Qed.

Lemma filling_length (i j : nat) :
  i ≤ length b → length (filling i j) = S (length b).
Proof.
  intros Hi. unfold filling.
  rewrite !length_app, !length_fmap, !length_seq. simpl. lia.
Qed.

Lemma filling_row_above (i j k : nat) :
  k < i → filling i j !! k = Some (cell k <$> seq 0 (S (length a))).
Proof.
  intros Hk. unfold filling.
  rewrite lookup_app_l by (rewrite length_fmap, length_seq; lia).
  rewrite list_lookup_fmap, lookup_seq_lt by done. done.
Qed.

Lemma filling_row (i j : nat) : filling i j !! i = Some (cell i <$> seq 0 j).
Proof.
  unfold filling.
  rewrite lookup_app_r by (rewrite length_fmap, length_seq; lia).
  rewrite length_fmap, length_seq, Nat.sub_diag. done.
Qed.

Lemma mget_above (i j k l : nat) :
  k < i → l ≤ length a → mget (filling i j) k l = cell k l.
Proof.
  intros Hk Hl. unfold mget, arr_get.
  rewrite filling_row_above by done. cbn [from_option id].
  rewrite list_lookup_fmap, lookup_seq_lt by lia. done.
Qed.

Lemma mget_row (i j l : nat) : l < j → mget (filling i j) i l = cell i l.
Proof.
  intros Hl. unfold mget, arr_get. rewrite filling_row. cbn [from_option id].
  rewrite list_lookup_fmap, lookup_seq_lt by lia. done.
Qed.

Lemma mset_row (i j : nat) :
  i ≤ length b → mset (filling i j) i j (cell i j) = filling i (S j).
Proof.
  intros Hi. unfold mset, arr_get. rewrite filling_row. cbn [from_option id].
  rewrite (arr_set_append 0) by (by rewrite length_fmap, length_seq).
  unfold arr_set.
  rewrite decide_True by (rewrite filling_length; lia).
  unfold filling.
  rewrite insert_app_r_alt by (rewrite length_fmap, length_seq; lia).
  rewrite length_fmap, length_seq, Nat.sub_diag.
  by rewrite (seq_S j), fmap_app.
Qed.

Lemma filling_next_row (i : nat) :
  i < length b → filling i (S (length a)) = filling (S i) 1.
Proof.
  intros Hi. unfold filling.
  rewrite (seq_S i 0), fmap_app, <- app_assoc. simpl. f_equal. f_equal.
  rewrite cell_0_r by lia.
  replace (length b - i) with (S (length b - S i)) by lia. done.
Qed.

Lemma first_loop :
  for_range 0 (S (length b)) (λ i matrix, arr_set [] matrix i [i]) []
  = (λ k, [k]) <$> seq 0 (S (length b)).
Proof.
  apply (for_range_invariant (λ i m, m = (λ k, [k]) <$> seq 0 i)); [lia|done|].
  intros i m _ ->.
  rewrite (arr_set_append []) by (by rewrite length_fmap, length_seq).
  by rewrite seq_S, fmap_app.
Qed.

Lemma second_loop :
  for_range 0 (S (length a)) (λ j matrix, mset matrix 0 j j)
    ((λ k, [k]) <$> seq 0 (S (length b)))
  = filling 0 (S (length a)).
Proof.
  apply (for_range_invariant (λ j m, m = filling 0 (Nat.max 1 j))); [lia| |].
  - unfold filling. simpl. by rewrite Nat.sub_0_r.
  - intros j m Hj ->. destruct j as [|j].
    + unfold filling, mset, arr_get, arr_set. simpl.
      by rewrite (cell_0_l 0) by lia.
    + replace (Nat.max 1 (S j)) with (S j) by lia.
      replace (Nat.max 1 (S (S j))) with (S (S j)) by lia.
      rewrite <- (mset_row 0 (S j)) by lia.
      by rewrite cell_0_l by lia.
Qed.

Lemma inner_step (i j : nat) :
  1 ≤ i ≤ length b → 1 ≤ j ≤ length a →
  (if bool_decide (charAt b (i - 1) = charAt a (j - 1))
   then mset (filling i j) i j (mget (filling i j) (i - 1) (j - 1))
   else mset (filling i j) i j
          (Nat.min (Nat.min (mget (filling i j) (i - 1) (j - 1) + 1)
                            (mget (filling i j) i (j - 1) + 1))
                   (mget (filling i j) (i - 1) j + 1)))
  = filling i (S j).
Proof.
  intros Hi Hj.
  destruct (lookup_lt_is_Some_2 b (i - 1)) as [c Hc]; [lia|].
  destruct (lookup_lt_is_Some_2 a (j - 1)) as [d Hd]; [lia|].
  rewrite (mget_above i j (i - 1) (j - 1)), (mget_above i j (i - 1) j),
    mget_row by lia.
  rewrite <- mset_row by lia.
  pose proof (cell_step (i - 1) (j - 1) c d Hc Hd) as Hstep.
  replace (S (i - 1)) with i in Hstep by lia.
  replace (S (j - 1)) with j in Hstep by lia.
  rewrite Hstep. unfold charAt. rewrite Hc, Hd.
  destruct (decide (c = d)) as [->|Hne].
  - by rewrite !bool_decide_eq_true_2.
  - by rewrite !bool_decide_eq_false_2 by congruence.
Qed.

Lemma levenshteinDistance_editDistance :
  levenshteinDistance a b = editDistance (rev b) (rev a).
Proof.
  unfold levenshteinDistance. rewrite first_loop, second_loop.
  set (body := λ i matrix, for_range 1 (S (length a)) _ matrix).
  assert (for_range 1 (S (length b)) body (filling 0 (S (length a)))
          = filling (length b) (S (length a))) as ->.
  { apply (for_range_invariant (λ i m, m = filling (pred i) (S (length a))));
      [lia|done|].
    intros i m Hi ->. unfold body. cbn [pred].
    replace (pred i) with (i - 1) by lia.
    apply (for_range_invariant (λ j m, m = filling i j)); [lia| |].
    - replace i with (S (i - 1)) at 2 by lia. apply filling_next_row. lia.
    - intros j m Hj ->. apply inner_step; lia. }
  rewrite mget_row by lia. unfold Spec.cell.
  by rewrite !take_ge by lia.
Qed.

End levenshtein.

Section levenshtein_properties.
Import Spec DomainSimilarity.

(** C9.  The Levenshtein distance is symmetric in its two strings, and the
    distance from a string to itself is 0. *)
Theorem levenshteinDistance_symmetric (x y : jsstring) :
  levenshteinDistance x y = levenshteinDistance y x
  ∧ levenshteinDistance x x = 0.
Proof.
  rewrite !levenshteinDistance_editDistance. split.
  - apply editDistance_sym.
  - apply editDistance_refl.
Qed.

End levenshtein_properties.

(** ** The typosquatting detector *)

Section detector_rules.
Context {lc : CaseMapping}.
Import Spec DomainSimilarity.

Lemma existsb_seq (f : nat → bool) (lo n : nat) :
  existsb f (seq lo n) = true ↔ ∃ i, lo ≤ i < lo + n ∧ f i = true.
Proof.
  rewrite existsb_exists. split; intros (i & Hi & Hf); exists i; split;
    try done; apply in_seq; done.
Qed.

Lemma substring_0 (s : jsstring) (i : nat) : substring s 0 i = take i s.
Proof. unfold substring. simpl. by rewrite Nat.sub_0_r. Qed.

Lemma omission_reflect (cand kw : jsstring) :
  bool_decide (Z.of_nat (length cand) = (Z.of_nat (length kw) - 1)%Z)
  && existsb (λ i, bool_decide
                (cand = substring kw 0 i ++ substringFrom kw (i + 1)))
             (seq 0 (length kw)) = true
  ↔ omission cand kw.
Proof.
  unfold omission. rewrite andb_true_iff, bool_decide_eq_true, existsb_seq.
  apply and_iff_compat_l. split.
  - intros (i & Hi & Heq). apply bool_decide_eq_true in Heq. exists i.
    split; [lia|]. rewrite delete_take_drop, Heq, substring_0.
    unfold substringFrom. by rewrite Nat.add_1_r.
  - intros (i & Hi & ->). exists i. split; [lia|]. apply bool_decide_eq_true.
    rewrite delete_take_drop, substring_0. unfold substringFrom.
    by rewrite Nat.add_1_r.
Qed.

Lemma addition_reflect (cand kw : jsstring) :
  bool_decide (length cand = length kw + 1)
  && existsb (λ i,
       existsb (λ c, bool_decide
                  (cand = substring kw 0 i ++ [N.of_nat c] ++ substringFrom kw i))
               (seq 97 26))
       (seq 0 (S (length kw))) = true
  ↔ addition cand kw.
Proof.
  unfold addition. rewrite andb_true_iff, bool_decide_eq_true, existsb_seq.
  apply and_iff_compat_l. split.
  - intros (i & Hi & Hex). apply existsb_seq in Hex as (c & Hc & Heq).
    apply bool_decide_eq_true in Heq. exists i, (N.of_nat c).
    split; [lia|]. split; [lia|]. by rewrite Heq, substring_0.
  - intros (i & c & Hi & Hc & ->). exists i. split; [lia|].
    apply existsb_seq. exists (N.to_nat c). split; [lia|].
    apply bool_decide_eq_true. by rewrite N2Nat.id, substring_0.
Qed.

Lemma index_lookup (s : jsstring) (i : nat) (c : N) :
  s !! i = Some c → index s i = [c].
Proof. unfold index. by intros ->. Qed.

Lemma swap_reflect (cand kw : jsstring) :
  bool_decide (length cand = length kw)
  && existsb (λ i, bool_decide
                (cand = substring kw 0 i ++ index kw (i + 1) ++ index kw i
                        ++ substringFrom kw (i + 2)))
             (seq 0 (length kw - 1)) = true
  ↔ swap cand kw.
Proof.
  unfold swap. rewrite andb_true_iff, bool_decide_eq_true, existsb_seq.
  apply and_iff_compat_l. split.
  - intros (i & Hi & Heq). apply bool_decide_eq_true in Heq.
    destruct (lookup_lt_is_Some_2 kw i) as [x Hx]; [lia|].
    destruct (lookup_lt_is_Some_2 kw (S i)) as [y Hy]; [lia|].
    exists i, x, y. split; [done|]. split; [done|].
    rewrite Heq, substring_0, Nat.add_1_r.
    by rewrite (index_lookup _ _ _ Hx), (index_lookup _ _ _ Hy).
  - intros (i & x & y & Hx & Hy & ->). exists i.
    apply lookup_lt_Some in Hy as Hlt. split; [lia|].
    apply bool_decide_eq_true. rewrite substring_0, Nat.add_1_r.
    by rewrite (index_lookup _ _ _ Hx), (index_lookup _ _ _ Hy).
Qed.

Lemma detectHomoglyph_reflect (cand kw : jsstring) :
  detectHomoglyph cand kw = true ↔ lookalikeRule cand kw.
Proof.
  unfold detectHomoglyph, lookalikeRule, lookalike, stripped.
  set (suspicious := replace (toLowerCase cand) (js ".onion") []).
  set (legitimate := toLowerCase kw).
  destruct (decide (suspicious = legitimate)) as [Heq|Hne].
  - rewrite bool_decide_eq_true_2 by done. split; [done|]. by intros [? _].
  - rewrite bool_decide_eq_false_2 by done. rewrite existsb_seq. split.
    + intros (i & Hi & Hex). split; [done|].
      destruct (lookup_lt_is_Some_2 legitimate i) as [c Hc]; [lia|].
      rewrite (index_lookup _ _ _ Hc) in Hex.
      destruct (homoglyphsOf [c]) as [glyphs|] eqn:Hg; [|done].
      apply existsb_exists in Hex as (h & Hh & Hin).
      exists i, c, glyphs, h. split; [done|]. split; [done|].
      split; [by apply list_elem_of_In|].
      apply includes_spec. rewrite substring_0, Nat.add_1_r in Hin. done.
    + intros (_ & i & c & glyphs & h & Hc & Hg & Hh & Hin). exists i.
      apply lookup_lt_Some in Hc as Hlt. split; [lia|].
      rewrite (index_lookup _ _ _ Hc), Hg. apply existsb_exists. exists h.
      split; [by apply list_elem_of_In|].
      rewrite substring_0, Nat.add_1_r. by apply includes_spec.
Qed.

(** Case analysis on the condition of the next rule of the cascade. *)
Ltac next_rule E :=
  match goal with |- context [if ?c then _ else _] => destruct c eqn:E end.

Lemma detectTyposquatting_selects (s l K : jsstring) :
  selectsTypo (stripped s) (toLowerCase l) K (typoCheck K (detectTyposquatting s l)).
Proof.
  unfold detectTyposquatting. fold (stripped s).
  set (cand := stripped s). set (kw := toLowerCase l).
  destruct (decide (cand = kw)) as [Heq|Hne].
  { rewrite bool_decide_eq_true_2 by done. by apply select_same. }
  rewrite bool_decide_eq_false_2 by done.
  next_rule Eo.
  { apply omission_reflect in Eo. by apply select_omission. }
  assert (¬ omission cand kw) as Ho by (rewrite <- omission_reflect, Eo; done).
  next_rule Ea.
  { apply addition_reflect in Ea. by apply select_addition. }
  assert (¬ addition cand kw) as Ha by (rewrite <- addition_reflect, Ea; done).
  next_rule Es.
  { apply swap_reflect in Es. by apply select_swap. }
  assert (¬ swap cand kw) as Hs by (rewrite <- swap_reflect, Es; done).
  destruct (detectHomoglyph cand kw) eqn:Eh.
  { apply detectHomoglyph_reflect in Eh. by apply select_homoglyph. }
  assert (¬ lookalikeRule cand kw) as Hh
    by (rewrite <- detectHomoglyph_reflect, Eh; done).
  destruct (Qlt_le_dec 80 (calculateSimilarity cand kw)) as [Hlt|Hle].
  - by apply select_similar.
  - apply select_none; try done. unfold similar. by apply Qle_not_lt.
Qed.

Lemma selectsTypo_functional (cand kw K : jsstring) (r r' : BrandCheck) :
  selectsTypo cand kw K r → selectsTypo cand kw K r' → r = r'.
Proof. intros H H'. destruct H; destruct H'; done. Qed.

Lemma detect_selects (D K : jsstring) : selects D K (detect D K).
Proof.
  unfold detect, checkBrandSimilarity. fold (stripped D). simpl.
  destruct (includes (stripped D) (toLowerCase K)) eqn:Ei.
  - apply select_direct. by apply includes_spec.
  - apply select_typo.
    + rewrite <- includes_spec, Ei. done.
    + pose proof (detectTyposquatting_selects (stripped D) (toLowerCase K) K) as H.
      unfold typoCheck in H.
      by destruct (isTyposquatting (detectTyposquatting _ _)).
Qed.

Lemma selects_functional (D K : jsstring) (r r' : BrandCheck) :
  selects D K r → selects D K r' → r = r'.
Proof.
  intros H H'. destruct H; destruct H'; try done.
  by eapply selectsTypo_functional.
Qed.

(** C1 (as amended).  For every domain [D] and keyword [K] the detector
    returns exactly the one result that the rule priority selects: the
    direct match with confidence 100 whenever the lower-cased keyword occurs
    in the lower-cased domain with its first [.onion] removed, and otherwise
    the first of omission (95), addition (90), swap (95), homoglyph (85)
    and high similarity that holds of the strings [detectTyposquatting]
    derives, none when these two strings are equal. *)
Theorem detect_priority (D K : jsstring) (r : BrandCheck) :
  detect D K = r ↔ selects D K r.
Proof.
  split.
  - intros <-. apply detect_selects.
  - intros H. eapply selects_functional; [apply detect_selects|done].
Qed.

Lemma checkKeywords_cons (domain keyword : jsstring) (rest : list jsstring) :
  checkKeywords domain (keyword :: rest) =
    match checkKeywords domain [keyword] with
    | NoMatch => checkKeywords domain rest
    | found => found
    end.
Proof.
  simpl. destruct (includes domain (toLowerCase keyword)); [done|].
  by destruct (isTyposquatting _).
Qed.

Lemma checkBrandSimilarity_cons (D keyword : jsstring) (rest : list jsstring) :
  checkBrandSimilarity D (keyword :: rest) =
    match detect D keyword with
    | NoMatch => checkBrandSimilarity D rest
    | found => found
    end.
Proof. apply checkKeywords_cons. Qed.

(** C4 (as amended).  [checkBrandSimilarity] returns the match of the first
    keyword, in the order of the list, for which the detector reports a
    match, and no match exactly when no keyword of the list matches. *)
Theorem checkBrandSimilarity_first_match (D : jsstring) (ks : list jsstring)
    (r : BrandCheck) :
  checkBrandSimilarity D ks = r ↔
    (r = NoMatch ∧ ∀ k, k ∈ ks → detect D k = NoMatch)
    ∨ (r ≠ NoMatch ∧ ∃ pre k post,
         ks = pre ++ k :: post
         ∧ (∀ k', k' ∈ pre → detect D k' = NoMatch)
         ∧ detect D k = r).
Proof.
  revert r. induction ks as [|k ks IH]; intros r.
  - split.
    + intros <-. left. split; [done|]. intros k Hk. by apply elem_of_nil in Hk.
    + intros [[-> _]|(_ & pre & k & post & Hks & _)]; [done|].
      by destruct pre.
  - rewrite checkBrandSimilarity_cons. destruct (detect D k) eqn:Ek.
    + rewrite IH. split.
      * intros [[-> Hall]|(Hr & pre & k' & post & -> & Hpre & Hk')].
        -- left. split; [done|]. intros k' [->|Hin]%elem_of_cons; auto.
        -- right. split; [done|]. exists (k :: pre), k', post.
           split; [done|]. split; [|done].
           intros k'' [->|Hin]%elem_of_cons; auto.
      * intros [[-> Hall]|(Hr & pre & k' & post & Hks & Hpre & Hk')].
        -- left. split; [done|]. intros k' Hin. apply Hall. by right.
        -- right. split; [done|]. destruct pre as [|p pre].
           ++ injection Hks as <- <-. congruence.
           ++ injection Hks as <- ->. exists pre, k', post.
              split; [done|]. split; [|done].
              intros k'' Hin. apply Hpre. by right.
    + split.
      * intros <-. right. split; [done|]. exists [], k, ks.
        split; [done|]. split; [|done]. intros k' Hk'. by apply elem_of_nil in Hk'.
      * intros [[-> Hall]|(Hr & pre & k' & post & Hks & Hpre & Hk')].
        -- rewrite Hall in Ek by left. done.
        -- destruct pre as [|p pre].
           ++ injection Hks as <- <-. congruence.
           ++ injection Hks as <- ->. rewrite Hpre in Ek by left. done.
Qed.

End detector_rules.

Section detector_examples.
Import Spec DomainSimilarity.
#[local] Existing Instance asciiLowerCase.

(** C1, the claim as stated fails: the keyword [onion] is a substring of the
    domain [x.onion], and the detector reports no match. *)
Lemma detect_substring_unmatched :
  infix (js "onion") (js "x.onion") ∧ detect (js "x.onion") (js "onion") = NoMatch.
Proof.
  split.
  - exists (js "x."), []. done.
  - vm_compute. done.
Qed.

(** Containment wins although a later rule holds as well: [google] is
    [googl] with one letter added. *)
Example detect_direct_before_addition :
  detect (js "google") (js "googl") = Match (js "googl") (Some direct_match) 100
  ∧ addition (js "google") (js "googl").
Proof.
  split; [by vm_compute|]. split; [done|].
  exists 5, 101%N. split; [simpl; lia|]. split; [lia|]. done.
Qed.

(** Upper case and the [.onion] suffix are normalised away before the
    containment test. *)
Example detect_normalises :
  detect (js "Googles-Shop.onion") (js "GOOGLE")
  = Match (js "GOOGLE") (Some direct_match) 100.
Proof. by vm_compute. Qed.

(** The adjacent-swap example of the rules. *)
Example detect_googel :
  detect (js "googel") (js "google") = Match (js "google") (Some character_swap) 95.
Proof. by vm_compute. Qed.

(** C4, the claim as stated fails: for the domain [gogle] and the keywords
    [google], [gogle] the first keyword's omission match (95) is returned,
    and the second keyword matches directly with confidence 100. *)
Lemma checkBrandSimilarity_not_highest :
  checkBrandSimilarity (js "gogle") [js "google"; js "gogle"]
    = Match (js "google") (Some character_omission) 95
  ∧ detect (js "gogle") (js "gogle") = Match (js "gogle") (Some direct_match) 100
  ∧ (95 < 100)%Q.
Proof. vm_compute. done. Qed.

(** C6, the claim as stated fails: the detector reports no match at all for
    [g00gle] against [google]. *)
Lemma detect_g00gle_unmatched :
  ¬ ∃ k t c, detect (js "g00gle") (js "google") = Match k t c
             ∧ (t = Some homoglyph ∨ t = Some high_similarity) ∧ (80 <= c)%Q.
Proof. intros (k & t & c & H & _). vm_compute in H. done. Qed.

(** C6 (as amended).  [g00gle] carries two look-alikes of [google];
    [detectHomoglyph] replaces one position at a time and the edit-distance
    similarity is 200/3, so no rule holds and no match is returned.  With
    one look-alike, [g0ogle], the homoglyph rule gives confidence 85. *)
Theorem detect_g00gle :
  detect (js "g00gle") (js "google") = NoMatch
  ∧ detectHomoglyph (js "g00gle") (js "google") = false
  ∧ (calculateSimilarity (js "g00gle") (js "google") == 200 # 3)%Q
  ∧ detect (js "g0ogle") (js "google") = Match (js "google") (Some homoglyph) 85.
Proof. vm_compute. done. Qed.

End detector_examples.

(** ** Structural similarity *)

Section similarity.
Import Spec HtmlSimilarity.

Lemma jaccard_intersection (s1 s2 : gset jsstring) :
  list_to_set (List.filter (λ x, bool_decide (x ∈ s2)) (elements s1)) =@{gset jsstring} s1 ∩ s2.
Proof.
  apply set_eq. intros x.
  rewrite elem_of_list_to_set, list_elem_of_In, filter_In, <- list_elem_of_In,
    elem_of_elements, bool_decide_eq_true, elem_of_intersection.
  done.
Qed.

Lemma jaccard_union (s1 s2 : gset jsstring) :
  list_to_set (elements s1 ++ elements s2) =@{gset jsstring} s1 ∪ s2.
Proof.
  apply set_eq. intros x.
  rewrite elem_of_list_to_set, elem_of_app, !elem_of_elements, elem_of_union.
  done.
Qed.

Lemma jaccardSimilarity_sets (set1 set2 : list jsstring) :
  jaccardSimilarity set1 set2 =
    let s1 : gset jsstring := list_to_set set1 in
    let s2 : gset jsstring := list_to_set set2 in
    if decide (size (s1 ∪ s2) = 0) then 0%Q
    else (inject_Z (Z.of_nat (size (s1 ∩ s2))) / inject_Z (Z.of_nat (size (s1 ∪ s2))))%Q.
Proof.
  unfold jaccardSimilarity. cbv zeta.
  by rewrite jaccard_intersection, jaccard_union.
Qed.

Lemma jaccardSimilarity_sym (set1 set2 : list jsstring) :
  jaccardSimilarity set1 set2 = jaccardSimilarity set2 set1.
Proof.
  rewrite !jaccardSimilarity_sets. cbv zeta.
  by rewrite (comm_L (∪) (list_to_set set1 : gset jsstring)),
    (comm_L (∩) (list_to_set set1 : gset jsstring)).
Qed.

Lemma jaccardSimilarity_bounds (set1 set2 : list jsstring) :
  (0 <= jaccardSimilarity set1 set2 <= 1)%Q.
Proof.
  rewrite jaccardSimilarity_sets. cbv zeta.
  set (s1 := list_to_set set1 : gset jsstring).
  set (s2 := list_to_set set2 : gset jsstring).
  destruct (decide _) as [Hz|Hz]; [done|].
  assert (size (s1 ∩ s2) ≤ size (s1 ∪ s2)) as Hle
    by (apply subseteq_size; intros x [Hx _]%elem_of_intersection;
        apply elem_of_union; by left).
  assert (0 < inject_Z (Z.of_nat (size (s1 ∪ s2))))%Q as Hpos.
  { change 0%Q with (inject_Z 0). rewrite <- Zlt_Qlt. lia. }
  split.
  - apply Qle_shift_div_l; [done|]. rewrite Qmult_0_l.
    change 0%Q with (inject_Z 0). rewrite <- Zle_Qle. lia.
  - apply Qle_shift_div_r; [done|]. rewrite Qmult_1_l.
    rewrite <- Zle_Qle. lia.
Qed.

Lemma jaccardSimilarity_nil_l (set2 : list jsstring) :
  (jaccardSimilarity [] set2 == 0)%Q.
Proof.
  rewrite jaccardSimilarity_sets. cbv zeta. case_decide; [done|].
  rewrite list_to_set_nil, (left_absorb_L ∅ (∩)), size_empty.
  by unfold Qdiv; rewrite Qmult_0_l.
Qed.

Lemma compareInputFields_sym (inputs1 inputs2 : list InputField) :
  compareInputFields inputs1 inputs2 = compareInputFields inputs2 inputs1.
Proof.
  unfold compareInputFields. rewrite andb_comm.
  destruct (_ && _); [done|].
  by rewrite (jaccardSimilarity_sym (sort _)),
    (jaccardSimilarity_sym (List.filter _ (input_name <$> _))),
    (jaccardSimilarity_sym (List.filter _ (input_id <$> _))).
Qed.

Lemma titleSimilarity_sym (title1 title2 : jsstring) :
  titleSimilarity title1 title2 = titleSimilarity title2 title1.
Proof.
  unfold titleSimilarity. rewrite orb_comm.
  destruct (decide (title1 = title2)) as [->|Hne]; [done|].
  by rewrite !bool_decide_eq_false_2 by congruence.
Qed.

Lemma titleSimilarity_score (title1 title2 : jsstring) :
  titleScore title1 title2 (titleSimilarity title1 title2).
Proof.
  unfold titleSimilarity.
  destruct (decide (title1 = title2)) as [->|Hne].
  { rewrite bool_decide_eq_true_2 by done. by apply title_same. }
  rewrite bool_decide_eq_false_2 by done.
  destruct (includes title1 title2) eqn:E1; simpl.
  { apply title_contained; [done|]. left. by apply includes_spec. }
  destruct (includes title2 title1) eqn:E2.
  { apply title_contained; [done|]. right. by apply includes_spec. }
  apply title_unrelated; [done| |]; rewrite <- includes_spec; congruence.
Qed.

Variable extractStructuralFeatures : jsstring → Features.

(** C10.  The comparator is symmetric: exchanging the two documents leaves
    every field of the returned score unchanged. *)
Theorem compareHtmlStructure_symmetric (html1 html2 : jsstring) :
  compareHtmlStructure extractStructuralFeatures html1 html2
  = compareHtmlStructure extractStructuralFeatures html2 html1.
Proof.
  unfold compareHtmlStructure. cbv zeta.
  by rewrite (compareInputFields_sym (inputFields _)),
    (jaccardSimilarity_sym (cssClasses _)), (jaccardSimilarity_sym (ids _)),
    (titleSimilarity_sym (title _)).
Qed.

(** C7 (as amended).  The title sub-score is 1 when the two titles are the
    same string, 1/2 when they differ and either one, the empty title
    included, occurs in the other, and 0 otherwise; the score reports it
    times 100, rounded. *)
Theorem compareHtmlStructure_title (html1 html2 : jsstring) :
  let title1 := title (extractStructuralFeatures html1) in
  let title2 := title (extractStructuralFeatures html2) in
  titleScore title1 title2 (titleSimilarity title1 title2)
  ∧ score_title (compareHtmlStructure extractStructuralFeatures html1 html2)
    = Math_round (titleSimilarity title1 title2 * 100).
Proof. split; [apply titleSimilarity_score|done]. Qed.

End similarity.

Section similarity_examples.
Import Spec HtmlSimilarity.
#[local] Existing Instance asciiLowerCase.

Lemma Math_round_bounds (x : Q) (lo hi : Z) :
  (inject_Z lo <= x)%Q → (x <= inject_Z hi)%Q → (lo ≤ Math_round x ≤ hi)%Z.
Proof.
  intros Hlo Hhi. unfold Math_round.
  pose proof (Qfloor_le (x + (1 # 2))) as Hle.
  pose proof (Qlt_floor (x + (1 # 2))) as Hlt.
  rewrite inject_Z_plus in Hlt. change (inject_Z 1) with 1%Q in Hlt. split.
  - apply Z.lt_succ_r. rewrite Zlt_Qlt. unfold Z.succ.
    rewrite inject_Z_plus. change (inject_Z 1) with 1%Q. lra.
  - apply Z.lt_succ_r. rewrite Zlt_Qlt. unfold Z.succ.
    rewrite inject_Z_plus. change (inject_Z 1) with 1%Q. lra.
Qed.

Lemma Permutation_pair {A : Type} (l : list A) (a b : A) :
  l ≡ₚ [a; b] → l = [a; b] ∨ l = [b; a].
Proof.
  intros Hperm. pose proof (Permutation_length Hperm) as Hlen.
  destruct l as [|x [|y [|z l]]]; try done.
  assert (x ∈ [a; b]) as Hx by (rewrite <- Hperm; by left).
  assert (y ∈ [a; b]) as Hy by (rewrite <- Hperm; right; by left).
  assert (a ∈ [x; y]) as Ha by (rewrite Hperm; by left).
  assert (b ∈ [x; y]) as Hb by (rewrite Hperm; right; by left).
  rewrite !elem_of_cons, elem_of_nil in Hx, Hy, Ha, Hb.
  destruct Hx as [->|[->|[]]], Hy as [->|[->|[]]]; auto.
  - destruct Hb as [->|[->|[]]]; auto.
  - destruct Ha as [->|[->|[]]]; auto.
Qed.




(** The rounding of the doubles shows in the overall score: with a class
    similarity of 3/4 the weighted sum is 60.499999999999986, reported as 60,
    where exact arithmetic gives 60.5, reported as 61. *)
Example compareHtmlStructure_rounding :
  HtmlSimilarity64.overall (HtmlSimilarity64.compareHtmlStructure classPages (js "A") (js "B"))
  = Binary64.ofZ 60
  ∧ overall (compareHtmlStructure classPages (js "A") (js "B")) = 61%Z.
Proof. vm_compute. done. Qed.

(** C7, the claim as stated fails: against the title [Login] an empty title
    scores 1/2 (reported as 50), although the only title contained in the
    other one is the empty one. *)
Lemma title_empty_scores_half :
  titleSimilarity (js "Login") [] = (1 # 2)%Q
  ∧ ¬ infix (js "Login") []
  ∧ score_title (compareHtmlStructure loginPage (js "Login") []) = 50%Z.
Proof.
  split; [by vm_compute|]. split; [|by vm_compute].
  intros (pre & post & H). by destruct pre.
Qed.

End similarity_examples.

(** ** The analysis pipeline *)

Section pipeline.
Context {lc : CaseMapping}.
Import Spec DomainSimilarity BrandImpersonation.

Lemma detect_confidence (D K keyword : jsstring) (type : option MatchType) (c : Q) :
  detect D K = Match keyword type c → (80 < c)%Q.
Proof.
  intros H. pose proof (detect_selects D K) as Hsel. rewrite H in Hsel.
  inversion Hsel as [|? _ Htypo]; subst; [done|].
  inversion Htypo; subst; done.
Qed.

Lemma checkBrandSimilarity_found (D : jsstring) (ks : list jsstring)
    (keyword : jsstring) (type : option MatchType) (c : Q) :
  checkBrandSimilarity D ks = Match keyword type c →
  ∃ k, k ∈ ks ∧ detect D k = Match keyword type c.
Proof.
  induction ks as [|k ks IH]; [done|].
  rewrite checkBrandSimilarity_cons. destruct (detect D k) eqn:Ek.
  - intros (k' & Hin & Hk')%IH. exists k'. split; [by right|done].
  - intros [= -> -> ->]. exists k. split; [by left|done].
Qed.

Lemma checkBrandSimilarity_none (D : jsstring) (ks : list jsstring) (k : jsstring) :
  checkBrandSimilarity D ks = NoMatch → k ∈ ks → detect D k = NoMatch.
Proof.
  induction ks as [|k' ks IH]; [by intros _ ?%elem_of_nil|].
  rewrite checkBrandSimilarity_cons. destruct (detect D k') eqn:Ek; [|done].
  intros Hks [->|Hin]%elem_of_cons; auto.
Qed.

Lemma truthy_spec (s : jsstring) : truthy s = true ↔ s ≠ [].
Proof. by destruct s. Qed.

Lemma shouldCrawl_gateOpen (domainCheck : BrandCheck) (realSiteHtml : option jsstring)
    (options : Options) :
  shouldCrawl domainCheck realSiteHtml options = true
  ↔ gateOpen domainCheck realSiteHtml options.
Proof.
  unfold shouldCrawl, gateOpen, referenceAvailable.
  rewrite orb_true_iff, andb_true_iff.
  assert (from_option truthy false realSiteHtml = true
          ↔ ∃ real, realSiteHtml = Some real ∧ real ≠ []) as ->.
  { destruct realSiteHtml as [real|]; simpl.
    - rewrite truthy_spec. split; [by eauto|]. by intros (? & [= <-] & ?).
    - split; [done|]. by intros (? & ? & _). }
  destruct domainCheck as [|keyword type confidence].
  - split; [intros [|]; [done|by right]|].
    intros [(? & ? & ? & ? & _)|]; [done|by right].
  - rewrite Qle_bool_iff. split.
    + intros [|]; [left; by eauto|by right].
    + intros [(? & ? & ? & [= <- <- <-] & ?)|]; [by left|by right].
Qed.

Lemma gateOpen_some_match (D : jsstring) (ks : list jsstring)
    (realSiteHtml : option jsstring) (options : Options) :
  (similarityThreshold options <= 80)%Q →
  gateOpen (checkBrandSimilarity D ks) realSiteHtml options
  ↔ someMatchAtLeast (similarityThreshold options) D ks
    ∨ referenceAvailable realSiteHtml options.
Proof.
  intros Hthreshold. unfold gateOpen, someMatchAtLeast.
  apply or_iff_compat_r. split.
  - intros (keyword & type & c & Hcheck & Hc).
    apply checkBrandSimilarity_found in Hcheck as (k & Hin & Hk).
    exists k, keyword, type, c. done.
  - intros (k & keyword & type & c & Hin & Hk & Hc).
    destruct (checkBrandSimilarity D ks) as [|keyword' type' c'] eqn:Hcheck.
    + rewrite (checkBrandSimilarity_none D ks k Hcheck Hin) in Hk. done.
    + exists keyword', type', c'. split; [done|].
      apply checkBrandSimilarity_found in Hcheck as (k' & _ & Hk').
      apply detect_confidence in Hk'. lra.
Qed.

Variable extractStructuralFeatures : jsstring → HtmlSimilarity.Features.
Variable hasLoginForm : jsstring → bool.
Variable extractAllData :
  jsstring → jsstring → list jsstring → MultiEngineSearch.Response Extracted.
Variable fetchUrl : jsstring → MultiEngineSearch.Response jsstring.
Variable now : jsstring.

(** C3 (as amended).  [analyzeSearchResult] runs the statements [analyzeFrom]
    on the match that [checkBrandSimilarity] keeps, which is the first
    keyword's match and not the best one.  Whatever that match is, the page is
    requested from the fetcher exactly when the gate is open: the kept match
    has a confidence of at least [similarityThreshold], or the structural
    check is enabled and a reference page is available.  When the gate is
    closed nothing is requested; a finding is returned exactly when metadata
    scoring left an indicator, and it has these indicators and no other,
    [was_crawled = false], the skip reason and no extracted data.  For a
    threshold of at most 80 (the default is 70) the kept match passes the
    threshold exactly when some keyword's match does. *)
Theorem analyzeSearchResult_crawl_gate
    (searchResult : MultiEngineSearch.SearchResult) (companyProfile : CompanyProfile)
    (realSiteHtml : option jsstring) (options : Options) :
  let url := MultiEngineSearch.url searchResult in
  let kept := checkBrandSimilarity url (keywords companyProfile) in
  analyzeSearchResult extractStructuralFeatures hasLoginForm extractAllData
    fetchUrl now searchResult companyProfile realSiteHtml options
  = analyzeFrom extractStructuralFeatures hasLoginForm extractAllData
      fetchUrl now kept searchResult companyProfile realSiteHtml options
  ∧ (∀ domainCheck : BrandCheck,
       let outcome :=
         analyzeFrom extractStructuralFeatures hasLoginForm extractAllData
           fetchUrl now domainCheck searchResult companyProfile realSiteHtml options in
       let metadata := metadataIndicators domainCheck searchResult companyProfile in
       (outcome.2 = [url] ∧ gateOpen domainCheck realSiteHtml options)
       ∨ (outcome.2 = [] ∧ ¬ gateOpen domainCheck realSiteHtml options
          ∧ Forall metadataIndicator metadata
          ∧ (metadata = [] → outcome.1 = None)
          ∧ (metadata ≠ [] →
             ∃ finding,
               outcome.1 = Some finding
               ∧ indicators finding = metadata
               ∧ BrandImpersonation.url finding = url
               ∧ was_crawled finding = Some false
               ∧ crawl_reason finding
                 = Some (js "Low similarity - crawling skipped for efficiency")
               ∧ crawl_error finding = None
               ∧ extracted_data finding = None)))
  ∧ ((similarityThreshold options <= 80)%Q →
     gateOpen kept realSiteHtml options
     ↔ someMatchAtLeast (similarityThreshold options) url (keywords companyProfile)
       ∨ referenceAvailable realSiteHtml options).
Proof.
  cbv zeta. split; [done|]. split; [|apply gateOpen_some_match].
  intros domainCheck. unfold analyzeFrom, metadataIndicators.
  pose proof (shouldCrawl_gateOpen domainCheck realSiteHtml options) as Hgate.
  destruct (shouldCrawl domainCheck realSiteHtml options).
  - left. split; [|by apply Hgate].
    by destruct (fetchUrl _).
  - right. split; [done|]. split; [rewrite <- Hgate; done|].
    destruct (List.filter _ (keywords companyProfile)) as [|k found];
      destruct domainCheck as [|keyword type confidence]; simpl.
    + split; [apply Forall_nil_2|]. split; [done|]. by intros [].
    + split; [by apply Forall_singleton|]. split; [done|]. intros _. by eexists.
    + split; [by apply Forall_singleton|]. split; [done|]. intros _. by eexists.
    + split; [by repeat apply Forall_cons_2|]. split; [done|]. intros _. by eexists.
Qed.

End pipeline.

(** ** The federated search *)

Section search.
Context {lc : CaseMapping}.
Import Spec MultiEngineSearch.

Variable select : jsstring → jsstring → list Anchor.
Variable hiddenInput : jsstring → option jsstring * option jsstring.
Variable matchRedirectUrl : jsstring → option jsstring.
Variable matchAddress : jsstring → option jsstring.
Variable decodeURIComponent : jsstring → Response jsstring.
Variable fetch : nat → Response jsstring.
Variable fetchAhmiaHome : nat → Response jsstring.
Variable fetchAhmiaSearch : nat → Response jsstring.
Variable now : jsstring.

#[local] Abbreviation record := (record now).
#[local] Abbreviation parseEach := (parseEach now).
#[local] Abbreviation ahmiaEach := (ahmiaEach matchRedirectUrl matchAddress decodeURIComponent now).
#[local] Abbreviation searchEngine :=
  (searchEngine select hiddenInput matchRedirectUrl matchAddress decodeURIComponent
     fetch fetchAhmiaHome fetchAhmiaSearch now).
#[local] Abbreviation settle :=
  (settle select hiddenInput matchRedirectUrl matchAddress decodeURIComponent
     fetch fetchAhmiaHome fetchAhmiaSearch now).

Lemma recorded_start (engineName : jsstring) (seen0 : gset jsstring) :
  recorded engineName seen0 [] seen0.
Proof.
  split; [done|]. split; [apply NoDup_nil_2|]. by intros r ?%elem_of_nil.
Qed.

Lemma record_recorded (engineName : jsstring) (elem : Anchor) (link : jsstring)
    (seen0 : gset jsstring) (results : list SearchResult) (seenUrls : gset jsstring) :
  recorded engineName seen0 results seenUrls →
  recorded engineName seen0 (record engineName elem link results seenUrls).1
    (record engineName elem link results seenUrls).2.
Proof.
  intros (Hsub & Hnodup & Hall). unfold MultiEngineSearch.record.
  case_bool_decide as Hnew; [|done]. simpl.
  split; [etrans; [done|apply union_subseteq_r]|]. split.
  - rewrite fmap_app. apply NoDup_app. split; [done|]. split.
    + intros u Hu Hu'. apply list_elem_of_singleton in Hu'. simpl in Hu'. subst u.
      apply list_elem_of_fmap in Hu as (r & Heq & Hr).
      apply Hall in Hr as [Hr _]. by rewrite <- Heq in Hr.
    + apply NoDup_singleton.
  - intros r [Hr|Hr]%elem_of_app.
    + apply Hall in Hr as (? & ? & ?).
      split; [by apply elem_of_union_r|done].
    + apply list_elem_of_singleton in Hr. subst r. simpl.
      split; [apply elem_of_union_l; by apply elem_of_singleton|].
      split; [|done]. intros Hin. apply Hnew. by apply Hsub.
Qed.

Lemma parseEach_recorded (engineName : jsstring) (maxResults : Z) (elems : list Anchor)
    (seen0 : gset jsstring) (results : list SearchResult) (seenUrls : gset jsstring) :
  recorded engineName seen0 results seenUrls →
  recorded engineName seen0
    (parseEach engineName maxResults elems results seenUrls).1
    (parseEach engineName maxResults elems results seenUrls).2.
Proof.
  revert results seenUrls.
  induction elems as [|elem rest IH]; intros results seenUrls Hrec; simpl; [done|].
  destruct (_ <=? _)%Z; [done|].
  destruct (href elem) as [link|]; [|by apply IH].
  destruct (truthy link && includes link (js ".onion")); [|by apply IH].
  pose proof (record_recorded engineName elem link _ _ _ Hrec) as Hrec'.
  destruct (MultiEngineSearch.record _ _ _ _ _ _) as [results' seen'].
  by apply IH.
Qed.

Lemma ahmiaEach_recorded (maxResults : Z) (elems : list Anchor)
    (seen0 : gset jsstring) (results : list SearchResult) (seenUrls : gset jsstring) :
  recorded (js "ahmia") seen0 results seenUrls →
  match ahmiaEach maxResults elems results seenUrls with
  | (Resolved results', seen') => recorded (js "ahmia") seen0 results' seen'
  | (Threw _, seen') => seen0 ⊆ seen'
  end.
Proof.
  revert results seenUrls.
  induction elems as [|elem rest IH]; intros results seenUrls Hrec; simpl; [done|].
  destruct (_ <=? _)%Z; [done|].
  destruct (href elem) as [link|]; [|by apply IH].
  destruct (truthy link); [|by apply IH].
  destruct (ahmiaUrl _ _ _ link) as [[target|]|message];
    [|by apply IH|by destruct Hrec].
  destruct (truthy target && includes target (js ".onion")); [|by apply IH].
  pose proof (record_recorded (js "ahmia") elem target _ _ _ Hrec) as Hrec'.
  destruct (MultiEngineSearch.record _ _ _ _ _ _) as [results' seen'].
  by apply IH.
Qed.

Lemma failed_recorded (engineName message : jsstring) (seen0 seen' : gset jsstring) :
  seen0 ⊆ seen' → recorded engineName seen0 (results (failed engineName message)) seen'.
Proof.
  intros Hsub. split; [done|]. split; [apply NoDup_nil_2|]. by intros r ?%elem_of_nil.
Qed.

Lemma searchEngine_recorded (task : nat) (engineName : jsstring) (maxResults : Z)
    (seen0 : gset jsstring) :
  recorded engineName seen0
    (results (searchEngine task engineName maxResults seen0).1)
    (searchEngine task engineName maxResults seen0).2.
Proof.
  unfold MultiEngineSearch.searchEngine. case_bool_decide as Hahmia.
  - subst engineName. unfold searchAhmia.
    destruct (fetchAhmiaHome task) as [home|message];
      [|by apply failed_recorded].
    destruct (hiddenInput home) as [paramName paramValue].
    destruct (_ || _); [by apply failed_recorded|].
    destruct (fetchAhmiaSearch task) as [page|message];
      [|by apply failed_recorded].
    pose proof (ahmiaEach_recorded maxResults (select page (js "li.result a"))
                  seen0 [] seen0 (recorded_start _ _)) as Hrec.
    destruct (MultiEngineSearch.ahmiaEach _ _ _ _ _ _ _ _) as [[results'|message] seen'];
      [done|by apply failed_recorded].
  - destruct (fetch task) as [html|message]; [|by apply failed_recorded].
    unfold parseSearchResults.
    pose proof (parseEach_recorded engineName maxResults
                  (select html (if includes engineName (js "haystak")
                                then js ".result a.title"
                                else if includes engineName (js "torch")
                                then js ".result-block a"
                                else if includes engineName (js "onionland")
                                then js ".title a" else js "a[href]"))
                  seen0 [] seen0 (recorded_start _ _)) as Hrec.
    by destruct (MultiEngineSearch.parseEach _ _ _ _ _ _) as [results' seen'].
Qed.

(** Name the outcome of the backend task the goal is about to run. *)
Ltac run_task :=
  destruct (MultiEngineSearch.searchEngine _ _ _ _ _ _ _ _ _ _ _ _ _) as [value seen'].

Lemma settle_app (enginesToUse : list jsstring) (maxResults : Z) (order1 order2 : list nat)
    (settled : gmap nat Settled) (seenUrls : gset jsstring) :
  settle enginesToUse maxResults (order1 ++ order2) settled seenUrls
  = settle enginesToUse maxResults order2
      (settle enginesToUse maxResults order1 settled seenUrls).1
      (settle enginesToUse maxResults order1 settled seenUrls).2.
Proof.
  revert settled seenUrls.
  induction order1 as [|task order1 IH]; intros settled seenUrls; simpl; [done|].
  destruct (enginesToUse !! task) as [engineName|]; [|apply IH].
  destruct (settled !! task); [apply IH|].
  run_task.
  apply IH.
Qed.

Lemma settle_keeps (enginesToUse : list jsstring) (maxResults : Z) (order : list nat)
    (settled : gmap nat Settled) (seenUrls : gset jsstring) (i : nat) (s : Settled) :
  settled !! i = Some s →
  (settle enginesToUse maxResults order settled seenUrls).1 !! i = Some s.
Proof.
  revert settled seenUrls.
  induction order as [|task order IH]; intros settled seenUrls Hi; simpl; [done|].
  destruct (enginesToUse !! task) as [engineName|]; [|by apply IH].
  destruct (settled !! task) eqn:Htask; [by apply IH|].
  run_task.
  apply IH. rewrite lookup_insert_ne; [done|]. by intros ->; rewrite Hi in Htask.
Qed.

Lemma settle_settles (enginesToUse : list jsstring) (maxResults : Z) (order : list nat)
    (settled : gmap nat Settled) (seenUrls : gset jsstring) (i : nat) :
  i ∈ order → is_Some (enginesToUse !! i) →
  is_Some ((settle enginesToUse maxResults order settled seenUrls).1 !! i).
Proof.
  revert settled seenUrls.
  induction order as [|task order IH]; intros settled seenUrls Hin Hengine;
    [by apply elem_of_nil in Hin|].
  simpl. apply elem_of_cons in Hin as [->|Hin].
  - destruct Hengine as [engineName ->].
    destruct (settled !! task) as [s|] eqn:Htask.
    + exists s. by apply settle_keeps.
    + run_task.
      exists (Fulfilled value). apply settle_keeps. by rewrite lookup_insert_eq.
  - destruct (enginesToUse !! task) as [engineName|]; [|by apply IH].
    destruct (settled !! task); [by apply IH|].
    run_task.
    by apply IH.
Qed.

Lemma recorded_weaken (engineName : jsstring) (seen0 seen1 seen2 : gset jsstring)
    (rs : list SearchResult) :
  recorded engineName seen0 rs seen1 → seen1 ⊆ seen2 →
  recorded engineName ∅ rs seen2.
Proof.
  intros (Hsub & Hnodup & Hall) Hsub'. split; [apply empty_subseteq|].
  split; [done|]. intros r Hr. apply Hall in Hr as (Hin & _ & Hsrc).
  split; [by apply Hsub'|]. split; [apply not_elem_of_empty|done].
Qed.

Lemma consistent_step (enginesToUse : list jsstring) (maxResults : Z) (task : nat)
    (engineName : jsstring) (settled : gmap nat Settled) (seenUrls : gset jsstring) :
  enginesToUse !! task = Some engineName → settled !! task = None →
  consistent enginesToUse settled seenUrls →
  consistent enginesToUse
    (<[task := Fulfilled (searchEngine task engineName maxResults seenUrls).1]> settled)
    (searchEngine task engineName maxResults seenUrls).2.
Proof.
  intros Hengine Hfresh [Hrec Hdisj].
  pose proof (searchEngine_recorded task engineName maxResults seenUrls) as Hnew.
  run_task.
  simpl in *. split.
  - intros i s. destruct (decide (i = task)) as [->|Hne].
    + rewrite lookup_insert_eq. intros [= <-]. exists engineName, value.
      split; [done|]. split; [done|]. by eapply recorded_weaken.
    + rewrite lookup_insert_ne by done. intros Hi.
      destruct (Hrec i s Hi) as (name & v & ? & ? & Hv). exists name, v.
      split; [done|]. split; [done|].
      eapply recorded_weaken; [done|]. by destruct Hnew.
  - intros i j s s' r r' Hij.
    destruct (decide (i = task)) as [->|Hi]; destruct (decide (j = task)) as [->|Hj];
      [done| | |].
    + rewrite lookup_insert_eq, lookup_insert_ne by done. intros [= <-] Hs' Hr Hr'.
      destruct (Hrec j s' Hs') as (name & v & _ & -> & _ & _ & Hv).
      destruct Hnew as (_ & _ & Hvalue).
      destruct (Hv r' Hr') as [Hin' _]. destruct (Hvalue r Hr) as (_ & Hnin & _).
      intros Heq. apply Hnin. by rewrite Heq.
    + rewrite lookup_insert_eq, lookup_insert_ne by done. intros Hs [= <-] Hr Hr'.
      destruct (Hrec i s Hs) as (name & v & _ & -> & _ & _ & Hv).
      destruct Hnew as (_ & _ & Hvalue).
      destruct (Hv r Hr) as [Hin _]. destruct (Hvalue r' Hr') as (_ & Hnin & _).
      intros Heq. apply Hnin. by rewrite <- Heq.
    + rewrite !lookup_insert_ne by done. by apply Hdisj.
Qed.

Lemma settle_consistent (enginesToUse : list jsstring) (maxResults : Z) (order : list nat)
    (settled : gmap nat Settled) (seenUrls : gset jsstring) :
  consistent enginesToUse settled seenUrls →
  consistent enginesToUse
    (settle enginesToUse maxResults order settled seenUrls).1
    (settle enginesToUse maxResults order settled seenUrls).2.
Proof.
  revert settled seenUrls.
  induction order as [|task order IH]; intros settled seenUrls Hcons; simpl; [done|].
  destruct (enginesToUse !! task) as [engineName|] eqn:Hengine; [|by apply IH].
  destruct (settled !! task) eqn:Htask; [by apply IH|].
  pose proof (consistent_step enginesToUse maxResults task engineName settled seenUrls
                Hengine Htask Hcons) as Hstep.
  run_task.
  by apply IH.
Qed.

Lemma settle_origin (enginesToUse : list jsstring) (maxResults : Z) (order : list nat)
    (i : nat) (s : Settled) :
  (settle enginesToUse maxResults order ∅ ∅).1 !! i = Some s →
  ∃ pre post engineName,
    order = pre ++ i :: post ∧ (i ∉ pre) ∧ enginesToUse !! i = Some engineName
    ∧ s = Fulfilled (searchEngine i engineName maxResults
                       (settle enginesToUse maxResults pre ∅ ∅).2).1.
Proof.
  induction order as [|task order IH] using rev_ind;
    [simpl; by rewrite lookup_empty|].
  rewrite settle_app. simpl.
  set (before := settle enginesToUse maxResults order ∅ ∅) in *.
  assert (before.1 !! i = Some s →
          ∃ pre post engineName,
            order ++ [task] = pre ++ i :: post ∧ (i ∉ pre)
            ∧ enginesToUse !! i = Some engineName
            ∧ s = Fulfilled (searchEngine i engineName maxResults
                               (settle enginesToUse maxResults pre ∅ ∅).2).1) as Hold.
  { intros (pre & post & engineName & -> & ? & ? & ?)%IH.
    exists pre, (post ++ [task]), engineName. by rewrite <- app_assoc. }
  destruct (enginesToUse !! task) as [engineName|] eqn:Hengine; [|done].
  destruct (before.1 !! task) eqn:Htask; [done|].
  destruct (MultiEngineSearch.searchEngine _ _ _ _ _ _ _ _ _ _ _ _ _)
    as [value seen'] eqn:Hrun.
  simpl. destruct (decide (i = task)) as [->|Hne].
  - rewrite lookup_insert_eq. intros [= <-]. exists order, [], engineName.
    split; [done|]. split; [|split; [done|]].
    + intros Hin.
      destruct (settle_settles enginesToUse maxResults order ∅ ∅ task Hin) as [s Hs];
        [by eauto|].
      fold before in Hs. by rewrite Htask in Hs.
    + fold before. by rewrite Hrun.
  - by rewrite lookup_insert_ne.
Qed.

Lemma allSettled_lookup (tasks : nat) (settled : gmap nat Settled)
    (engineResults : list Settled) :
  allSettled tasks settled = Some engineResults →
  length engineResults = tasks
  ∧ ∀ i s, engineResults !! i = Some s → settled !! i = Some s.
Proof.
  unfold allSettled. intros Hall%mapM_Some. split.
  - apply Forall2_length in Hall. by rewrite length_seq in Hall.
  - intros i s Hi.
    destruct (Forall2_lookup_r _ _ _ _ _ Hall Hi) as (j & Hj & Hs).
    apply lookup_seq in Hj as [-> _]. done.
Qed.

Lemma collect_fulfilled (enginesToUse : list jsstring) (engineResults : list Settled)
    (acc : list SearchResult * list (jsstring * jsstring)) :
  length enginesToUse = length engineResults →
  Forall (λ s, ∃ value, s = Fulfilled value) engineResults →
  foldl collectStep acc (zip enginesToUse engineResults)
  = (acc.1 ++ concat (resultsOf <$> engineResults), acc.2).
Proof.
  revert engineResults acc.
  induction enginesToUse as [|engineName rest IH]; intros [|s engineResults] acc Hlen Hall;
    try done; simpl.
  - destruct acc. by rewrite app_nil_r.
  - apply Forall_cons in Hall as [[value ->] Hall]. simpl.
    rewrite IH; [|by injection Hlen|done]. simpl. by rewrite <- app_assoc.
Qed.

Lemma NoDup_concat_urls (engineResults : list Settled) :
  (∀ i s, engineResults !! i = Some s → NoDup (url <$> resultsOf s)) →
  (∀ i j s s' r r', i ≠ j → engineResults !! i = Some s → engineResults !! j = Some s' →
     r ∈ resultsOf s → r' ∈ resultsOf s' → url r ≠ url r') →
  NoDup (url <$> concat (resultsOf <$> engineResults)).
Proof.
  induction engineResults as [|s rest IH]; intros Heach Hdisj; simpl;
    [apply NoDup_nil_2|].
  rewrite fmap_app. apply NoDup_app. split; [by apply (Heach 0)|]. split.
  - intros u (r & -> & Hr)%list_elem_of_fmap (r' & Heq & Hr')%list_elem_of_fmap.
    apply list_elem_of_In, in_concat in Hr' as (rs & Hrs & Hr').
    apply list_elem_of_In in Hr'.
    apply list_elem_of_In, list_elem_of_fmap in Hrs as (s' & -> & Hs').
    apply list_elem_of_lookup in Hs' as [j Hj].
    by apply (Hdisj 0 (S j) s s' r r').
  - apply IH.
    + intros i s' Hi. by apply (Heach (S i)).
    + intros i j s1 s2 r r' Hij Hi Hj. apply (Hdisj (S i) (S j)); [lia|done..].
Qed.

#[local] Abbreviation multiEngineSearch :=
  (multiEngineSearch select hiddenInput matchRedirectUrl matchAddress decodeURIComponent
     fetch fetchAhmiaHome fetchAhmiaSearch now).

Lemma multiEngineSearch_report (query : jsstring) (engines : option (list jsstring))
    (options : Options) (order : list nat) (report : SearchReport) :
  multiEngineSearch query engines options order = Some report →
  ∃ engineResults,
    allSettled (length (engines_used report))
      (settle (engines_used report) (default 20%Z (maxResultsPerEngine options))
         order ∅ ∅).1 = Some engineResults
    ∧ all_results report = concat (resultsOf <$> engineResults)
    ∧ errors report = [].
Proof.
  unfold MultiEngineSearch.multiEngineSearch. cbv zeta.
  set (enginesToUse := match engines with Some _ => _ | None => _ end).
  set (maxResults := default 20%Z (maxResultsPerEngine options)).
  pose proof (settle_consistent enginesToUse maxResults order ∅ ∅) as Hcons.
  destruct (MultiEngineSearch.settle _ _ _ _ _ _ _ _ _ _ _ _ _ _)
    as [settled seen'] eqn:Hsettle.
  simpl in Hcons.
  destruct (allSettled (length enginesToUse) settled) as [engineResults|] eqn:Hall;
    [|done].
  simpl. apply allSettled_lookup in Hall as Hlookup. destruct Hlookup as [Hlen Hlookup].
  unfold collect. rewrite collect_fulfilled; [|done|].
  - simpl. intros [= <-]. simpl. rewrite Hsettle. by exists engineResults.
  - apply Forall_forall. intros s Hs. apply list_elem_of_lookup in Hs as [i Hi].
    destruct Hcons as [Hrec _].
    + split; [|by intros ???????; rewrite lookup_empty].
      intros ??. by rewrite lookup_empty.
    + destruct (Hrec i s (Hlookup i s Hi)) as (? & value & _ & -> & _). by exists value.
Qed.

(** *** What a task adds to the shared set *)

#[local] Abbreviation reports :=
  (reports select matchRedirectUrl matchAddress decodeURIComponent fetch fetchAhmiaSearch).
#[local] Abbreviation ahmiaUrl := (ahmiaUrl matchRedirectUrl matchAddress decodeURIComponent).

Lemma advances_refl (results : list SearchResult) (seenUrls : gset jsstring) :
  advances results seenUrls results seenUrls.
Proof. split; [done|]. split; [done|]. by left. Qed.

Lemma advances_trans (results1 results2 results3 : list SearchResult)
    (seen1 seen2 seen3 : gset jsstring) :
  advances results1 seen1 results2 seen2 → advances results2 seen2 results3 seen3 →
  advances results1 seen1 results3 seen3.
Proof.
  intros (Hs12 & Hp12 & Hn12) (Hs23 & Hp23 & Hn23).
  split; [by etrans|]. split; [by etrans|].
  intros u [Hu|Hu]%Hn23; [|by right].
  apply Hn12 in Hu as [?|Hu]; [by left|]. right.
  destruct Hp23 as [rest ->]. rewrite fmap_app. apply elem_of_app. by left.
Qed.

Lemma record_advances (engineName : jsstring) (elem : Anchor) (link : jsstring)
    (results : list SearchResult) (seenUrls : gset jsstring) :
  advances results seenUrls (record engineName elem link results seenUrls).1
    (record engineName elem link results seenUrls).2
  ∧ normalizeOnionUrl link ∈ (record engineName elem link results seenUrls).2.
Proof.
  unfold MultiEngineSearch.record. case_bool_decide as Hnew; simpl.
  - split; [|apply elem_of_union_l; by apply elem_of_singleton].
    split; [apply union_subseteq_r|]. split; [by apply prefix_app_r|].
    intros u [->%elem_of_singleton|Hu]%elem_of_union; [|by left]. right.
    rewrite fmap_app. apply elem_of_app. right. simpl. by left.
  - split; [apply advances_refl|]. by destruct (decide (normalizeOnionUrl link ∈ seenUrls)).
Qed.

(** The loop of [parseSearchResults]: if it ends below the cap, every onion
    link among the anchors has its normalised URL in the set. *)
Lemma parseEach_advances (engineName : jsstring) (maxResults : Z) (elems : list Anchor) :
  ∀ (results : list SearchResult) (seenUrls : gset jsstring),
  let after := parseEach engineName maxResults elems results seenUrls in
  advances results seenUrls after.1 after.2
  ∧ ((Z.of_nat (length after.1) < maxResults)%Z →
     ∀ elem link, elem ∈ elems → href elem = Some link →
       truthy link && includes link (js ".onion") = true →
       normalizeOnionUrl link ∈ after.2).
Proof.
  induction elems as [|elem rest IH]; intros results seenUrls; cbv zeta.
  { split; [apply advances_refl|]. by intros _ ?? ?%elem_of_nil. }
  cbn [MultiEngineSearch.parseEach].
  destruct (_ <=? _)%Z eqn:Hfull.
  { apply Z.leb_le in Hfull. split; [apply advances_refl|]. simpl. lia. }
  assert (∀ results1 seen1,
            advances results seenUrls results1 seen1 →
            (∀ link, href elem = Some link →
               truthy link && includes link (js ".onion") = true →
               normalizeOnionUrl link ∈ seen1) →
            let after := parseEach engineName maxResults rest results1 seen1 in
            advances results seenUrls after.1 after.2
            ∧ ((Z.of_nat (length after.1) < maxResults)%Z →
               ∀ elem' link, elem' ∈ elem :: rest → href elem' = Some link →
                 truthy link && includes link (js ".onion") = true →
                 normalizeOnionUrl link ∈ after.2)) as Hstep.
  { intros results1 seen1 Hadv Hhere. cbv zeta.
    destruct (IH results1 seen1) as [Hrest Hall].
    split; [by eapply advances_trans|].
    intros Hcap elem' link [->|Hin]%elem_of_cons Hhref Hlink.
    - destruct Hrest as [Hsub _]. by apply Hsub, Hhere.
    - by eapply Hall. }
  destruct (href elem) as [link|] eqn:Hhref.
  - destruct (truthy link && includes link (js ".onion")) eqn:Hlink.
    + destruct (record_advances engineName elem link results seenUrls) as [Hadv Hin].
      destruct (MultiEngineSearch.record _ _ _ _ _ _) as [results1 seen1].
      apply Hstep; [done|]. by intros ? [= <-] _.
    + apply Hstep; [apply advances_refl|]. intros ? [= <-] ?. congruence.
  - apply Hstep; [apply advances_refl|done].
Qed.

Lemma record_source (engineName : jsstring) (elem : Anchor) (link : jsstring)
    (results : list SearchResult) (seenUrls : gset jsstring) (u : jsstring) :
  u ∈ (record engineName elem link results seenUrls).2 →
  u ∈ seenUrls ∨ u = normalizeOnionUrl link.
Proof.
  unfold MultiEngineSearch.record. case_bool_decide; simpl; [|by left].
  intros [->%elem_of_singleton|Hu]%elem_of_union; [by right|by left].
Qed.

(** Every URL that the loop of [parseSearchResults] adds to the set is the
    normalised form of an onion link among the anchors. *)
Lemma parseEach_source (engineName : jsstring) (maxResults : Z) (elems : list Anchor) :
  ∀ (results : list SearchResult) (seenUrls : gset jsstring) (u : jsstring),
  u ∈ (parseEach engineName maxResults elems results seenUrls).2 →
  u ∈ seenUrls
  ∨ ∃ elem link, elem ∈ elems ∧ href elem = Some link
      ∧ truthy link && includes link (js ".onion") = true
      ∧ u = normalizeOnionUrl link.
Proof.
  induction elems as [|elem rest IH]; intros results seenUrls u; [by left|].
  cbn [MultiEngineSearch.parseEach].
  destruct (_ <=? _)%Z; [by left|].
  assert (∀ results1 seen1,
            u ∈ (parseEach engineName maxResults rest results1 seen1).2 →
            (u ∈ seen1 → u ∈ seenUrls
               ∨ ∃ link, href elem = Some link
                   ∧ truthy link && includes link (js ".onion") = true
                   ∧ u = normalizeOnionUrl link) →
            u ∈ seenUrls
            ∨ ∃ elem' link, elem' ∈ elem :: rest ∧ href elem' = Some link
                ∧ truthy link && includes link (js ".onion") = true
                ∧ u = normalizeOnionUrl link) as Hstep.
  { intros results1 seen1 [Hu|(elem' & link & Hin & ?)]%IH Hhere.
    - destruct (Hhere Hu) as [?|(link & ?)]; [by left|]. right. exists elem, link.
      split; [by left|done].
    - right. exists elem', link. split; [by right|done]. }
  destruct (href elem) as [link|] eqn:Hhref; [|intros Hu; by apply (Hstep _ _ Hu); left].
  destruct (truthy link && includes link (js ".onion")) eqn:Hlink;
    [|intros Hu; by apply (Hstep _ _ Hu); left].
  pose proof (record_source engineName elem link results seenUrls u) as Hrec.
  destruct (MultiEngineSearch.record _ _ _ _ _ _) as [results1 seen1].
  intros Hu. apply (Hstep _ _ Hu). intros [?| ->]%Hrec; [by left|]. right. by exists link.
Qed.

(** The loop of [searchAhmia], whether it ends or throws: the set only
    grows, and every URL added is the normalised form of the target of a
    result link. *)
Lemma ahmiaEach_source (maxResults : Z) (elems : list Anchor) :
  ∀ (results : list SearchResult) (seenUrls : gset jsstring),
  let after := ahmiaEach maxResults elems results seenUrls in
  seenUrls ⊆ after.2
  ∧ ∀ u, u ∈ after.2 →
      u ∈ seenUrls
      ∨ ∃ elem link target, elem ∈ elems ∧ href elem = Some link ∧ truthy link = true
          ∧ ahmiaUrl link = Resolved (Some target)
          ∧ truthy target && includes target (js ".onion") = true
          ∧ u = normalizeOnionUrl target.
Proof.
  induction elems as [|elem rest IH]; intros results seenUrls; cbv zeta;
    [split; [done|by left]|].
  cbn [MultiEngineSearch.ahmiaEach].
  destruct (_ <=? _)%Z; [split; [done|by left]|].
  assert (∀ results1 seen1,
            seenUrls ⊆ seen1 →
            (∀ u, u ∈ seen1 → u ∈ seenUrls
               ∨ ∃ link target, href elem = Some link ∧ truthy link = true
                   ∧ ahmiaUrl link = Resolved (Some target)
                   ∧ truthy target && includes target (js ".onion") = true
                   ∧ u = normalizeOnionUrl target) →
            let after := ahmiaEach maxResults rest results1 seen1 in
            seenUrls ⊆ after.2
            ∧ ∀ u, u ∈ after.2 →
                u ∈ seenUrls
                ∨ ∃ elem' link target, elem' ∈ elem :: rest ∧ href elem' = Some link
                    ∧ truthy link = true
                    ∧ ahmiaUrl link = Resolved (Some target)
                    ∧ truthy target && includes target (js ".onion") = true
                    ∧ u = normalizeOnionUrl target) as Hstep.
  { intros results1 seen1 Hsub Hhere. cbv zeta.
    destruct (IH results1 seen1) as [Hsub' Hrest]. split; [by etrans|].
    intros u [Hu|(elem' & link & target & Hin & ?)]%Hrest.
    - destruct (Hhere u Hu) as [?|(link & target & ?)]; [by left|].
      right. exists elem, link, target. split; [by left|done].
    - right. exists elem', link, target. split; [by right|done]. }
  destruct (href elem) as [link|] eqn:Hhref; [|apply Hstep; [done|by left]].
  destruct (truthy link) eqn:Hlink; [|apply Hstep; [done|by left]].
  destruct (MultiEngineSearch.ahmiaUrl _ _ _ link) as [[target|]|message] eqn:Htarget;
    [|apply Hstep; [done|by left]|split; [done|by left]].
  destruct (truthy target && includes target (js ".onion")) eqn:Honion;
    [|apply Hstep; [done|by left]].
  pose proof (record_source (js "ahmia") elem target results seenUrls) as Hrec.
  destruct (record_advances (js "ahmia") elem target results seenUrls) as [[Hsub _] _].
  destruct (MultiEngineSearch.record _ _ _ _ _ _) as [results1 seen1].
  apply Hstep; [done|]. intros u [?| ->]%Hrec; [by left|]. right. by exists link, target.
Qed.

(** When the loop of [searchAhmia] ends, every new member of the set is the
    URL of a result; if it ends below the cap, the target of every result
    link is in the set. *)
Lemma ahmiaEach_advances (maxResults : Z) (elems : list Anchor) :
  ∀ (results : list SearchResult) (seenUrls : gset jsstring),
  match ahmiaEach maxResults elems results seenUrls with
  | (Resolved results', seen') =>
      advances results seenUrls results' seen'
      ∧ ((Z.of_nat (length results') < maxResults)%Z →
         ∀ elem link target, elem ∈ elems → href elem = Some link → truthy link = true →
           ahmiaUrl link = Resolved (Some target) →
           truthy target && includes target (js ".onion") = true →
           normalizeOnionUrl target ∈ seen')
  | (Threw _, _) => True
  end.
Proof.
  induction elems as [|elem rest IH]; intros results seenUrls.
  { split; [apply advances_refl|]. by intros _ ??? ?%elem_of_nil. }
  cbn [MultiEngineSearch.ahmiaEach].
  destruct (_ <=? _)%Z eqn:Hfull.
  { apply Z.leb_le in Hfull. split; [apply advances_refl|]. lia. }
  assert (∀ results1 seen1,
            advances results seenUrls results1 seen1 →
            (∀ link target, href elem = Some link → truthy link = true →
               ahmiaUrl link = Resolved (Some target) →
               truthy target && includes target (js ".onion") = true →
               normalizeOnionUrl target ∈ seen1) →
            match ahmiaEach maxResults rest results1 seen1 with
            | (Resolved results', seen') =>
                advances results seenUrls results' seen'
                ∧ ((Z.of_nat (length results') < maxResults)%Z →
                   ∀ elem' link target, elem' ∈ elem :: rest → href elem' = Some link →
                     truthy link = true →
                     ahmiaUrl link = Resolved (Some target) →
                     truthy target && includes target (js ".onion") = true →
                     normalizeOnionUrl target ∈ seen')
            | (Threw _, _) => True
            end) as Hstep.
  { intros results1 seen1 Hadv Hhere. specialize (IH results1 seen1).
    destruct (MultiEngineSearch.ahmiaEach _ _ _ _ _ _ _ _) as [[results'|message] seen'];
      [|done].
    destruct IH as [Hrest Hall]. split; [by eapply advances_trans|].
    intros Hcap elem' link target [->|Hin]%elem_of_cons Hhref Hlink Htarget Honion.
    - destruct Hrest as [Hsub _]. by eapply Hsub, Hhere.
    - by eapply Hall. }
  destruct (href elem) as [link|] eqn:Hhref; [|apply Hstep; [apply advances_refl|done]].
  destruct (truthy link) eqn:Hlink;
    [|apply Hstep; [apply advances_refl|]; intros ?? [= <-]; congruence].
  destruct (MultiEngineSearch.ahmiaUrl _ _ _ link) as [[target|]|message] eqn:Htarget;
    [|apply Hstep; [apply advances_refl|]; intros ?? [= <-]; congruence|done].
  destruct (truthy target && includes target (js ".onion")) eqn:Honion.
  - destruct (record_advances (js "ahmia") elem target results seenUrls) as [Hadv Hin].
    destruct (MultiEngineSearch.record _ _ _ _ _ _) as [results1 seen1].
    apply Hstep; [done|]. intros ?? [= <-] _ Heq. rewrite Htarget in Heq.
    by injection Heq as <-.
  - apply Hstep; [apply advances_refl|]. intros ?? [= <-] _ Heq. rewrite Htarget in Heq.
    injection Heq as <-. congruence.
Qed.

Lemma searchEngine_failed (task : nat) (engineName : jsstring) (maxResults : Z)
    (seenUrls : gset jsstring) :
  is_Some (error (searchEngine task engineName maxResults seenUrls).1) →
  results (searchEngine task engineName maxResults seenUrls).1 = [].
Proof.
  unfold MultiEngineSearch.searchEngine, searchAhmia, parseSearchResults.
  case_bool_decide.
  - destruct (fetchAhmiaHome task) as [home|?]; [|done].
    destruct (hiddenInput home). destruct (_ || _); [done|].
    destruct (fetchAhmiaSearch task) as [page|?]; [|done].
    destruct (MultiEngineSearch.ahmiaEach _ _ _ _ _ _ _ _) as [[?|?] ?]; [|done].
    simpl. by intros [? [=]].
  - destruct (fetch task) as [html|?]; [|done].
    destruct (MultiEngineSearch.parseEach _ _ _ _ _ _). simpl. by intros [? [=]].
Qed.

(** What one backend task does to the shared set: the set only grows; a
    URL it adds is one the task reports, and is the URL of one of its
    results unless the task is Ahmia's and fails; a task that gets through
    its page leaves every URL it reports in the set. *)
Lemma searchEngine_set (task : nat) (engineName : jsstring) (maxResults : Z)
    (seenUrls : gset jsstring) :
  let outcome := searchEngine task engineName maxResults seenUrls in
  seenUrls ⊆ outcome.2
  ∧ (∀ u, u ∈ outcome.2 → u ∉ seenUrls →
       reports task engineName u
       ∧ match error outcome.1 with
         | None => ∃ r, r ∈ results outcome.1 ∧ url r = u
         | Some _ => engineName = js "ahmia"
         end)
  ∧ (finished outcome.1 maxResults → ∀ u, reports task engineName u → u ∈ outcome.2).
Proof.
  cbv zeta. unfold MultiEngineSearch.searchEngine, Spec.reports, finished.
  assert (∀ message,
            seenUrls ⊆ seenUrls
            ∧ (∀ u, u ∈ seenUrls → u ∉ seenUrls →
                 (if bool_decide (engineName = js "ahmia")
                  then ∃ page elem link target,
                         fetchAhmiaSearch task = Resolved page
                         ∧ elem ∈ select page (js "li.result a")
                         ∧ href elem = Some link ∧ truthy link = true
                         ∧ ahmiaUrl link = Resolved (Some target)
                         ∧ truthy target && includes target (js ".onion") = true
                         ∧ u = normalizeOnionUrl target
                  else ∃ html elem link,
                         fetch task = Resolved html
                         ∧ elem ∈ select html (selectorOf engineName)
                         ∧ href elem = Some link
                         ∧ truthy link && includes link (js ".onion") = true
                         ∧ u = normalizeOnionUrl link)
                 ∧ match error (failed engineName message) with
                   | None => ∃ r, r ∈ results (failed engineName message) ∧ url r = u
                   | Some _ => engineName = js "ahmia"
                   end)
            ∧ (error (failed engineName message) = None
               ∧ (Z.of_nat (length (results (failed engineName message))) < maxResults)%Z →
               ∀ u, (if bool_decide (engineName = js "ahmia")
                     then ∃ page elem link target,
                            fetchAhmiaSearch task = Resolved page
                            ∧ elem ∈ select page (js "li.result a")
                            ∧ href elem = Some link ∧ truthy link = true
                            ∧ ahmiaUrl link = Resolved (Some target)
                            ∧ truthy target && includes target (js ".onion") = true
                            ∧ u = normalizeOnionUrl target
                     else ∃ html elem link,
                            fetch task = Resolved html
                            ∧ elem ∈ select html (selectorOf engineName)
                            ∧ href elem = Some link
                            ∧ truthy link && includes link (js ".onion") = true
                            ∧ u = normalizeOnionUrl link) → u ∈ seenUrls)) as Hfail.
  { intros message. split; [done|]. split; [done|]. by intros [[=] _]. }
  case_bool_decide as Hahmia.
  - subst engineName. unfold searchAhmia.
    destruct (fetchAhmiaHome task) as [home|message]; [|apply Hfail].
    destruct (hiddenInput home) as [paramName paramValue].
    destruct (_ || _); [apply Hfail|].
    destruct (fetchAhmiaSearch task) as [page|message] eqn:Hpage; [|apply Hfail].
    pose proof (ahmiaEach_source maxResults (select page (js "li.result a")) [] seenUrls)
      as [Hsub Hsource].
    pose proof (ahmiaEach_advances maxResults (select page (js "li.result a")) [] seenUrls)
      as Hadv.
    destruct (MultiEngineSearch.ahmiaEach _ _ _ _ _ _ _ _) as [[results'|message] seen'];
      simpl in *.
    + destruct Hadv as [(_ & _ & Hnew) Hall]. split; [done|]. split.
      * intros u Hu Hfresh. split.
        -- destruct (Hsource u Hu) as [?|(elem & link & target & ?)]; [done|].
           by exists page, elem, link, target.
        -- destruct (Hnew u Hu) as [?|(r & -> & Hr)%list_elem_of_fmap]; [done|].
           by exists r.
      * intros [_ Hcap] u (page' & elem & link & target & [= <-] & ? & ? & ? & ? & ? & ->).
        by eapply Hall.
    + split; [done|]. split; [|by intros [[=] _]].
      intros u Hu Hfresh. split; [|done].
      destruct (Hsource u Hu) as [?|(elem & link & target & ?)]; [done|].
      by exists page, elem, link, target.
  - destruct (fetch task) as [html|message] eqn:Hhtml; [|apply Hfail].
    unfold parseSearchResults. fold (selectorOf engineName).
    pose proof (parseEach_source engineName maxResults (select html (selectorOf engineName))
                  [] seenUrls) as Hsource.
    pose proof (parseEach_advances engineName maxResults
                  (select html (selectorOf engineName)) [] seenUrls) as Hadv.
    cbv zeta in Hadv.
    destruct (MultiEngineSearch.parseEach _ _ _ _ _ _) as [results' seen']; simpl in *.
    destruct Hadv as [(Hsub & _ & Hnew) Hall]. split; [done|]. split.
    + intros u Hu Hfresh. split.
      * destruct (Hsource u Hu) as [?|(elem & link & ?)]; [done|].
        by exists html, elem, link.
      * destruct (Hnew u Hu) as [?|(r & -> & Hr)%list_elem_of_fmap]; [done|].
        by exists r.
    + intros [_ Hcap] u (html' & elem & link & [= <-] & ? & ? & ? & ->).
      by eapply Hall.
Qed.

(** *** The shared set along a run *)

Lemma settle_grows (enginesToUse : list jsstring) (maxResults : Z) (order : list nat)
    (settled : gmap nat Settled) (seenUrls : gset jsstring) :
  seenUrls ⊆ (settle enginesToUse maxResults order settled seenUrls).2.
Proof.
  revert settled seenUrls.
  induction order as [|task order IH]; intros settled seenUrls; simpl; [done|].
  destruct (enginesToUse !! task) as [engineName|]; [|apply IH].
  destruct (settled !! task); [apply IH|].
  pose proof (searchEngine_set task engineName maxResults seenUrls) as [Hsub _].
  run_task.
  etrans; [exact Hsub|apply IH].
Qed.

Lemma settle_prefix (enginesToUse : list jsstring) (maxResults : Z) (pre rest : list nat) :
  (settle enginesToUse maxResults pre ∅ ∅).2
  ⊆ (settle enginesToUse maxResults (pre ++ rest) ∅ ∅).2.
Proof. rewrite settle_app. apply settle_grows. Qed.

Lemma settle_unsettled (enginesToUse : list jsstring) (maxResults : Z) (order : list nat)
    (task : nat) :
  task ∉ order → is_Some (enginesToUse !! task) →
  (settle enginesToUse maxResults order ∅ ∅).1 !! task = None.
Proof.
  intros Hnot Hengine.
  destruct ((settle enginesToUse maxResults order ∅ ∅).1 !! task) as [s|] eqn:Hs; [|done].
  apply settle_origin in Hs as (pre & post & ? & -> & _). exfalso. apply Hnot.
  apply elem_of_app. right. by left.
Qed.

(** The task processed after [pre], if it was not processed before, runs on
    the set that [pre] has left; its outcome is the one recorded for it,
    and the set it leaves is part of the final one. *)
Lemma settle_first (enginesToUse : list jsstring) (maxResults : Z) (pre post : list nat)
    (task : nat) (engineName : jsstring) :
  task ∉ pre → enginesToUse !! task = Some engineName →
  let outcome := searchEngine task engineName maxResults
                   (settle enginesToUse maxResults pre ∅ ∅).2 in
  (settle enginesToUse maxResults (pre ++ task :: post) ∅ ∅).1 !! task
  = Some (Fulfilled outcome.1)
  ∧ outcome.2 ⊆ (settle enginesToUse maxResults (pre ++ task :: post) ∅ ∅).2.
Proof.
  intros Hnot Hengine. cbv zeta. rewrite settle_app. simpl. rewrite Hengine.
  rewrite settle_unsettled by eauto.
  destruct (MultiEngineSearch.searchEngine _ _ _ _ _ _ _ _ _ _ _ _ _) as [value seen'].
  simpl. split; [|apply settle_grows].
  apply settle_keeps. by rewrite lookup_insert_eq.
Qed.

(** Every member of the set was added by one task: the first one in the
    order whose run found it absent and left it present. *)
Lemma settle_added (enginesToUse : list jsstring) (maxResults : Z) (order : list nat)
    (u : jsstring) :
  u ∈ (settle enginesToUse maxResults order ∅ ∅).2 →
  ∃ pre task post engineName,
    order = pre ++ task :: post ∧ (task ∉ pre) ∧ enginesToUse !! task = Some engineName
    ∧ (u ∉ (settle enginesToUse maxResults pre ∅ ∅).2)
    ∧ u ∈ (searchEngine task engineName maxResults
             (settle enginesToUse maxResults pre ∅ ∅).2).2.
Proof.
  induction order as [|task order IH] using rev_ind;
    [simpl; by intros ?%elem_of_empty|].
  assert (u ∈ (settle enginesToUse maxResults order ∅ ∅).2 →
          ∃ pre task' post engineName,
            order ++ [task] = pre ++ task' :: post ∧ (task' ∉ pre)
            ∧ enginesToUse !! task' = Some engineName
            ∧ (u ∉ (settle enginesToUse maxResults pre ∅ ∅).2)
            ∧ u ∈ (searchEngine task' engineName maxResults
                     (settle enginesToUse maxResults pre ∅ ∅).2).2) as Hold.
  { intros (pre & task' & post & engineName & -> & ? & ? & ? & ?)%IH.
    exists pre, task', (post ++ [task]), engineName. by rewrite <- app_assoc. }
  rewrite settle_app. simpl.
  destruct (enginesToUse !! task) as [engineName|] eqn:Hengine; [|done].
  destruct ((settle enginesToUse maxResults order ∅ ∅).1 !! task) eqn:Htask; [done|].
  destruct (MultiEngineSearch.searchEngine _ _ _ _ _ _ _ _ _ _ _ _ _)
    as [value seen'] eqn:Hrun.
  simpl. intros Hu.
  destruct (decide (u ∈ (settle enginesToUse maxResults order ∅ ∅).2)) as [Hin|Hfresh];
    [by apply Hold|].
  exists order, task, [], engineName. split; [done|]. split; [|split; [done|]].
  - intros Hin.
    destruct (settle_settles enginesToUse maxResults order ∅ ∅ task Hin) as [s Hs];
      [by eauto|].
    by rewrite Htask in Hs.
  - split; [done|]. by rewrite Hrun.
Qed.

(** Two ways of splitting one list at an element: at the same place, or at
    one place before the other. *)
Lemma split_compare (pre pre' post post' : list nat) (task task' : nat) :
  pre ++ task :: post = pre' ++ task' :: post' →
  (task = task' ∧ pre = pre' ∧ post = post')
  ∨ (∃ mid, pre = pre' ++ task' :: mid)
  ∨ (∃ mid, pre' = pre ++ task :: mid).
Proof.
  revert pre'. induction pre as [|x pre IH]; intros [|x' pre'] Heq; simpl in *.
  - injection Heq as -> ->. by left.
  - injection Heq as -> ->. right. right. by exists pre'.
  - injection Heq as -> <-. right. left. by exists pre.
  - injection Heq as -> Heq.
    destruct (IH pre' Heq) as [(-> & -> & ->)|[[mid ->]|[mid ->]]].
    + by left.
    + right. left. by exists mid.
    + right. right. by exists mid.
Qed.

Lemma allSettled_entry (tasks : nat) (settled : gmap nat Settled)
    (engineResults : list Settled) (i : nat) (s : Settled) :
  allSettled tasks settled = Some engineResults → i < tasks → settled !! i = Some s →
  engineResults !! i = Some s.
Proof.
  intros [Hlen Hlookup]%allSettled_lookup Hi Hs.
  destruct (lookup_lt_is_Some_2 engineResults i) as [s' Hs']; [lia|].
  apply Hlookup in Hs' as Heq. rewrite Hs in Heq. by injection Heq as ->.
Qed.

Lemma concat_results (engineResults : list Settled) (i : nat) (value : EngineResult)
    (r : SearchResult) :
  engineResults !! i = Some (Fulfilled value) → r ∈ results value →
  r ∈ concat (resultsOf <$> engineResults).
Proof.
  intros Hi Hr. apply list_elem_of_In, in_concat. exists (results value).
  split; [|by apply list_elem_of_In].
  apply list_elem_of_In, list_elem_of_fmap. exists (Fulfilled value).
  split; [done|]. by eapply list_elem_of_lookup_2.
Qed.


(** A run in which every task reaches its last response returns a report. *)
Lemma multiEngineSearch_returns (query : jsstring) (engines : option (list jsstring))
    (options : Options) (order : list nat) :
  (∀ task, task < length (match engines with
                          | Some engines => List.filter (λ e, tableHas (toLowerCase e)) engines
                          | None => TOP_SEARCH_ENGINES.*1
                          end) → task ∈ order) →
  is_Some (multiEngineSearch query engines options order).
Proof.
  intros Hcover. unfold MultiEngineSearch.multiEngineSearch. cbv zeta.
  set (enginesToUse := match engines with Some _ => _ | None => _ end) in *.
  set (maxResults := default 20%Z (maxResultsPerEngine options)).
  pose proof (λ task, settle_settles enginesToUse maxResults order ∅ ∅ task) as Hsettles.
  destruct (MultiEngineSearch.settle _ _ _ _ _ _ _ _ _ _ _ _ _ _) as [settled seen'].
  simpl in Hsettles.
  destruct (allSettled (length enginesToUse) settled) as [engineResults|] eqn:Hall.
  - simpl. destruct (collect _ _). by eexists.
  - exfalso. unfold allSettled in Hall.
    assert (is_Some (mapM (λ task, settled !! task) (seq 0 (length enginesToUse)))) as [? Hsome];
      [|by rewrite Hsome in Hall].
    apply mapM_is_Some, Forall_forall. intros task [_ Htask]%elem_of_seq.
    apply Hsettles; [apply Hcover; lia|]. apply lookup_lt_is_Some_2. lia.
Qed.

(** A returned report never lists an error: [searchEngine] turns every
    failure into a fulfilled [{ engine, error, results: [] }], whose empty
    [results] array passes the truth test of the collecting loop. *)
Lemma multiEngineSearch_errors_empty (query : jsstring) (engines : option (list jsstring))
    (options : Options) (order : list nat) (report : SearchReport) :
  multiEngineSearch query engines options order = Some report →
  errors report = [].
Proof. by intros (? & _ & _ & ?)%multiEngineSearch_report. Qed.

End search.

Section search_examples.
Import Spec MultiEngineSearch.
#[local] Existing Instance asciiLowerCase.



(** In the other order the first backend keeps the address. *)
Example multiEngineSearch_first_wins :
  sampleSearch samplePages [js "torch"; js "haystak"] [0; 1]
  = Some (sampleReport
            [ sampleResult (js "Market") (js "http://market.onion") (js "first")
                (js "torch");
              sampleResult (js "http://forum.onion/board") (js "http://forum.onion/board")
                (js "third") (js "haystak") ]).
Proof. vm_compute. reflexivity. Qed.

(** C2, the failing run: the request of the backend [torch] times out, so
    its task ends in [{ engine, error: 'Timeout', results: [] }].  The run
    returns the results of the other backend, and its error list is empty:
    the failed backend has no entry. *)
Theorem multiEngineSearch_timeout_unreported :
  (searchEngine samplePage (λ _, (None, None)) (λ _, None)
     (λ _, None) Resolved sampleTimeout sampleTimeout sampleTimeout
     (js "2026-01-01T00:00:00.000Z") 0 (js "torch") 20 ∅).1
  = failed (js "torch") (js "Timeout")
  ∧ ∃ report,
      sampleSearch sampleTimeout [js "torch"; js "haystak"] [0; 1] = Some report
      ∧ all_results report
        = [ sampleResult (js "Mirror") (js "http://market.onion") (js "second")
              (js "haystak");
            sampleResult (js "http://forum.onion/board")
              (js "http://forum.onion/board") (js "third") (js "haystak") ]
      ∧ errors report = [].
Proof.
  split; [by vm_compute|]. eexists. split; [vm_compute; reflexivity|]. done.
Qed.

End search_examples.

(** * Further properties *)

(** ** Levenshtein distance and similarity percentage *)

Section distance.
Import Spec DomainSimilarity.

Lemma editDistance_upper (x y : jsstring) :
  editDistance x y ≤ Nat.max (length x) (length y).
Proof.
  revert y. induction x as [|c x IHx]; intros y; [simpl; lia|].
  induction y as [|d y IHy]; [simpl; lia|].
  rewrite editDistance_cons. specialize (IHx y). simpl in *.
  destruct (bool_decide (c = d)); lia.
Qed.

Lemma editDistance_lower (x y : jsstring) :
  length x - length y ≤ editDistance x y ∧ length y - length x ≤ editDistance x y.
Proof.
  revert y. induction x as [|c x IHx]; intros y; [simpl; lia|].
  induction y as [|d y IHy]; [simpl; lia|].
  rewrite editDistance_cons.
  pose proof (IHx y). pose proof (IHx (d :: y)). simpl in *.
  destruct (bool_decide (c = d)); lia.
Qed.

Lemma editDistance_zero (x y : jsstring) : editDistance x y = 0 → x = y.
Proof.
  revert y. induction x as [|c x IHx]; intros y.
  - simpl. by intros ->%nil_length_inv.
  - destruct y as [|d y]; [done|]. rewrite editDistance_cons.
    case_bool_decide as Hcd; [|lia]. subst d. by intros ->%IHx.
Qed.

(** X1.  The distance lies between the difference of the two lengths and
    the greater length. *)
Theorem levenshteinDistance_bounds (a b : jsstring) :
  Nat.max (length a) (length b) - Nat.min (length a) (length b)
    ≤ levenshteinDistance a b
  ∧ levenshteinDistance a b ≤ Nat.max (length a) (length b).
Proof.
  rewrite levenshteinDistance_editDistance.
  pose proof (editDistance_upper (rev b) (rev a)) as Hup.
  pose proof (editDistance_lower (rev b) (rev a)) as Hlow.
  rewrite !length_rev in *. lia.
Qed.

Lemma levenshteinDistance_zero (a b : jsstring) :
  levenshteinDistance a b = 0 ↔ a = b.
Proof.
  rewrite levenshteinDistance_editDistance. split.
  - intros H%editDistance_zero.
    by rewrite <- (rev_involutive a), <- (rev_involutive b), H.
  - intros ->. apply editDistance_refl.
Qed.

(** X2.  The distance is 0 exactly for equal strings; in particular two
    different strings are at distance 1 or more. *)
Theorem levenshteinDistance_zero_iff (a b : jsstring) :
  (levenshteinDistance a b = 0 ↔ a = b)
  ∧ (a ≠ b ↔ 1 ≤ levenshteinDistance a b).
Proof.
  pose proof (levenshteinDistance_zero a b) as Hz. split; [done|].
  destruct (decide (a = b)) as [Heq|Hne].
  - split; [done|]. apply Hz in Heq. lia.
  - split; [|done]. intros _.
    destruct (decide (levenshteinDistance a b = 0)) as [Hd|Hd]; [|lia].
    by apply Hz in Hd.
Qed.

Lemma calculateSimilarity_le_100 (a b : jsstring) :
  a ≠ [] ∨ b ≠ [] → (0 <= calculateSimilarity a b <= 100)%Q.
Proof.
  intros Hne. unfold calculateSimilarity.
  rewrite levenshteinDistance_editDistance.
  pose proof (editDistance_upper (rev b) (rev a)) as Hup.
  rewrite !length_rev in Hup.
  set (m := Nat.max (length a) (length b)) in *.
  set (d := editDistance (rev b) (rev a)) in *.
  assert (0 < m) as Hm.
  { subst m. destruct Hne as [Hne|Hne]; [destruct a|destruct b]; simpl; try done; lia. }
  assert (0 < inject_Z (Z.of_nat m))%Q as Hpos
    by (change 0%Q with (inject_Z 0); rewrite <- Zlt_Qlt; lia).
  assert (0 <= inject_Z (Z.of_nat m - Z.of_nat d) / inject_Z (Z.of_nat m) <= 1)%Q
    as [H0 H1].
  { split.
    - apply Qle_shift_div_l; [done|]. rewrite Qmult_0_l.
      change 0%Q with (inject_Z 0). rewrite <- Zle_Qle. lia.
    - apply Qle_shift_div_r; [done|]. rewrite Qmult_1_l. rewrite <- Zle_Qle. lia. }
  split; nra.
Qed.

(** X3.  Unless both strings are empty (where JavaScript divides 0 by 0),
    the similarity is a percentage between 0 and 100, it is the same in
    both directions, and it is 100 exactly for equal strings. *)
Theorem calculateSimilarity_percentage (a b : jsstring) :
  a ≠ [] ∨ b ≠ [] →
  (0 <= calculateSimilarity a b <= 100)%Q
  ∧ calculateSimilarity a b = calculateSimilarity b a
  ∧ (calculateSimilarity a b == 100 ↔ a = b)%Q.
Proof.
  intros Hne. split; [by apply calculateSimilarity_le_100|]. split.
  - unfold calculateSimilarity.
    rewrite !levenshteinDistance_editDistance, (editDistance_sym (rev b)).
    by rewrite (Nat.max_comm (length a)).
  - unfold calculateSimilarity.
    set (m := Nat.max (length a) (length b)).
    assert (0 < m) as Hm.
    { subst m. destruct Hne as [Hne|Hne]; [destruct a|destruct b]; simpl; try done; lia. }
    assert (¬ inject_Z (Z.of_nat m) == 0)%Q as Hnz.
    { change 0%Q with (inject_Z 0). rewrite inject_Z_injective. lia. }
    split.
    + intros Heq. apply levenshteinDistance_zero.
      assert (inject_Z (Z.of_nat m - Z.of_nat (levenshteinDistance a b))
              == inject_Z (Z.of_nat m))%Q as Hm'.
      { apply (Qmult_inj_r _ _ (/ inject_Z (Z.of_nat m))).
        - intros H0. apply Hnz. rewrite <- (Qinv_involutive (inject_Z _)), H0. done.
        - rewrite Qmult_inv_r by done.
          apply (Qmult_inj_r _ _ 100); [done|]. exact Heq. }
      rewrite inject_Z_injective in Hm'. lia.
    + intros ->. rewrite (proj2 (levenshteinDistance_zero b b)) by done.
      rewrite Z.sub_0_r. unfold Qdiv. rewrite Qmult_inv_r by done. done.
Qed.

(** X3 on the pair [google], [g00gle]. *)
Lemma calculateSimilarity_percentage_witness :
  (0 <= calculateSimilarity (js "google") (js "g00gle") <= 100)%Q
  ∧ calculateSimilarity (js "google") (js "g00gle")
    = calculateSimilarity (js "g00gle") (js "google")
  ∧ (calculateSimilarity (js "google") (js "g00gle") == 100
     ↔ js "google" = js "g00gle")%Q.
Proof.
  apply (calculateSimilarity_percentage (js "google") (js "g00gle")).
  left. discriminate.
Defined.

End distance.

(** ** Results of the detector *)

Section detector_results.
Context {lc : CaseMapping}.
Import Spec DomainSimilarity.

Lemma selectsTypo_confidence (cand kw K keyword : jsstring) (t : option MatchType) (c : Q) :
  selectsTypo cand kw K (Match keyword t c) →
  keyword = K ∧ (80 < c <= 100)%Q
  ∧ ∃ rule, t = Some rule ∧ rule ≠ direct_match.
Proof.
  intros H. inversion H as [| | | | |Hne _ _ _ _ Hsim|]; subst;
    try (split; [done|]; split; [done|]; eexists; done).
  split; [done|]. split.
  - split; [done|]. apply calculateSimilarity_le_100.
    destruct cand, kw; try done; (by left) || (by right).
  - by eexists.
Qed.

(** X4.  A [detectTyposquatting] result is either the unflagged one (no
    type, confidence 0) or a flagged one whose type is one of the five
    typosquatting kinds, never [direct_match], with a confidence above 80 and
    at most 100. *)
Theorem detectTyposquatting_result (s l : jsstring) :
  let r := detectTyposquatting s l in
  (isTyposquatting r = false ∧ type r = None ∧ confidence r = 0%Q)
  ∨ (isTyposquatting r = true
     ∧ (∃ rule, type r = Some rule ∧ rule ≠ direct_match)
     ∧ (80 < confidence r <= 100)%Q).
Proof.
  cbv zeta. pose proof (detectTyposquatting_selects s l []) as Hsel.
  unfold typoCheck in Hsel.
  destruct (isTyposquatting (detectTyposquatting s l)) eqn:Hflag.
  - right. apply selectsTypo_confidence in Hsel as (_ & ? & ?). done.
  - left. split; [done|]. revert Hflag. unfold detectTyposquatting.
    repeat (match goal with |- context [if ?c then _ else _] => destruct c end;
            try done).
Qed.

Lemma detect_found (D K keyword : jsstring) (t : option MatchType) (c : Q) :
  detect D K = Match keyword t c →
  keyword = K ∧ (80 < c <= 100)%Q ∧ is_Some t.
Proof.
  intros H. pose proof (detect_selects D K) as Hsel. rewrite H in Hsel.
  inversion Hsel as [|? _ Htypo]; subst; [by eauto|].
  apply selectsTypo_confidence in Htypo as (? & ? & rule & -> & _). by eauto.
Qed.

(** X5.  A match returned by [checkBrandSimilarity] names a keyword of the
    list, as it was given, carries a type, and has a confidence above 80 and
    at most 100. *)
Theorem checkBrandSimilarity_match (D : jsstring) (ks : list jsstring)
    (keyword : jsstring) (t : option MatchType) (c : Q) :
  checkBrandSimilarity D ks = Match keyword t c →
  keyword ∈ ks ∧ is_Some t ∧ (80 < c <= 100)%Q.
Proof.
  intros (k & Hin & (-> & ? & ?)%detect_found)%checkBrandSimilarity_found. done.
Qed.

(** X6.  A keyword that lower-cases to the empty string is contained in
    every domain: placed first, it turns every candidate into a direct match
    with confidence 100. *)
Theorem checkBrandSimilarity_empty_keyword (D K : jsstring) (ks : list jsstring) :
  toLowerCase K = [] →
  checkBrandSimilarity D (K :: ks) = Match K (Some direct_match) 100.
Proof.
  intros HK. unfold checkBrandSimilarity. simpl. by rewrite HK, includes_nil.
Qed.

(** X7.  [detectHomoglyph] works on the lower-cased keyword.  A keyword
    whose lower-cased form has no code unit that is a key of [HOMOGLYPHS]
    has no look-alike variant: [detectHomoglyph] answers [false] for every
    domain.  (The keyword [GOOGLE] itself holds no key of the table, but
    its lower-cased form does.) *)
Theorem detectHomoglyph_no_variant (D K : jsstring) :
  (∀ c, c ∈ toLowerCase K → homoglyphsOf [c] = None) →
  detectHomoglyph D K = false.
Proof.
  intros Hkeys. destruct (detectHomoglyph D K) eqn:Hd; [|done].
  apply detectHomoglyph_reflect in Hd as (_ & i & c & glyphs & h & Hc & Hg & _).
  rewrite Hkeys in Hg; [done|]. by eapply list_elem_of_lookup_2.
Qed.

Lemma replace_absent (s pat : jsstring) :
  includes s pat = false → replace s pat [] = s.
Proof.
  induction s as [|c s IH]; simpl.
  - by destruct (startsWith [] pat).
  - intros [Hs Hi]%orb_false_iff. rewrite Hs. f_equal. by apply IH.
Qed.

(** X8.  One letter dropped from a keyword is detected: for a lower-case
    keyword and a position [i] in it, the keyword without its [i]-th code
    unit (lower-case too and free of [.onion]) is flagged as
    [character_omission] with confidence 95. *)
Theorem detectTyposquatting_omission (kw : jsstring) (i : nat) :
  i < length kw →
  toLowerCase kw = kw →
  toLowerCase (delete i kw) = delete i kw →
  includes (delete i kw) (js ".onion") = false →
  detectTyposquatting (delete i kw) kw
  = {| isTyposquatting := true; type := Some character_omission; confidence := 95 |}.
Proof.
  intros Hi Hkw Hcand Hsuffix.
  pose proof (detectTyposquatting_selects (delete i kw) kw []) as Hsel.
  unfold stripped in Hsel. rewrite Hkw, Hcand, replace_absent in Hsel by done.
  assert (delete i kw ≠ kw) as Hne.
  { intros Heq. apply (f_equal length) in Heq. rewrite length_delete in Heq; [lia|].
    by apply lookup_lt_is_Some_2. }
  assert (omission (delete i kw) kw) as Hom.
  { split; [|by eauto].
    rewrite length_delete by (by apply lookup_lt_is_Some_2). lia. }
  unfold typoCheck in Hsel.
  destruct (detectTyposquatting (delete i kw) kw) as [flag t c].
  simpl in Hsel. inversion Hsel; subst; try done.
  all: destruct flag; try done.
  all: match goal with H : Match _ _ _ = Match _ _ _ |- _ => by injection H as -> -> end.
Qed.

End detector_results.

Section detector_results_examples.
Import Spec DomainSimilarity.
#[local] Existing Instance asciiLowerCase.

(** X5 on the pair of C4. *)
Lemma checkBrandSimilarity_match_witness :
  js "google" ∈ [js "google"; js "gogle"] ∧ is_Some (Some character_omission)
  ∧ (80 < 95 <= 100)%Q.
Proof.
  apply (checkBrandSimilarity_match (js "gogle") [js "google"; js "gogle"]).
  vm_compute. reflexivity.
Defined.

(** X6 with the empty keyword itself. *)
Lemma checkBrandSimilarity_empty_keyword_witness :
  checkBrandSimilarity (js "example.onion") [[]; js "google"]
  = Match [] (Some direct_match) 100.
Proof.
  apply (checkBrandSimilarity_empty_keyword (js "example.onion") [] [js "google"]).
  reflexivity.
Defined.

(** X7 on the keyword [bug]. *)
Lemma detectHomoglyph_no_variant_witness :
  detectHomoglyph (js "bug.onion") (js "bug") = false.
Proof.
  apply (detectHomoglyph_no_variant (js "bug.onion") (js "bug")).
  intros c Hc. vm_compute in Hc.
  repeat (apply elem_of_cons in Hc as [->|Hc]; [by vm_compute|]).
  by apply elem_of_nil in Hc.
Defined.

(** X8 on [gogle], which is [google] without its third letter. *)
Lemma detectTyposquatting_omission_witness :
  detectTyposquatting (delete 2 (js "google")) (js "google")
  = {| isTyposquatting := true; type := Some character_omission; confidence := 95 |}.
Proof.
  apply (detectTyposquatting_omission (js "google") 2);
    [vm_compute; lia|reflexivity..].
Defined.

End detector_results_examples.

(** ** Jaccard similarity and the range of the scores *)

Section scores.
Import Spec HtmlSimilarity.

Lemma inject_nat_pos (n : nat) : 0 < n → (0 < inject_Z (Z.of_nat n))%Q.
Proof. intros Hn. change 0%Q with (inject_Z 0). rewrite <- Zlt_Qlt. lia. Qed.

Lemma jaccardSimilarity_ratio (set1 set2 : list jsstring) :
  let s1 : gset jsstring := list_to_set set1 in
  let s2 : gset jsstring := list_to_set set2 in
  size (s1 ∪ s2) ≠ 0 →
  (jaccardSimilarity set1 set2 * inject_Z (Z.of_nat (size (s1 ∪ s2)))
   == inject_Z (Z.of_nat (size (s1 ∩ s2))))%Q.
Proof.
  cbv zeta.
  set (s1 := list_to_set set1 : gset jsstring).
  set (s2 := list_to_set set2 : gset jsstring).
  intros Hnz. rewrite jaccardSimilarity_sets. cbv zeta. fold s1 s2.
  rewrite decide_False by done. field.
  intros H0. pose proof (inject_nat_pos (size (s1 ∪ s2))) as Hpos.
  rewrite H0 in Hpos. apply (Qlt_irrefl 0), Hpos. lia.
Qed.

Lemma jaccardSimilarity_refl (set1 : list jsstring) :
  (jaccardSimilarity set1 set1 == if bool_decide (set1 = []) then 0 else 1)%Q.
Proof.
  rewrite jaccardSimilarity_sets. cbv zeta.
  set (s := list_to_set set1 : gset jsstring).
  rewrite (idemp_L (∪) s), (idemp_L (∩) s).
  destruct set1 as [|x set1].
  - rewrite bool_decide_eq_true_2 by done. subst s.
    rewrite list_to_set_nil, size_empty. by rewrite decide_True.
  - rewrite bool_decide_eq_false_2 by done.
    assert (size s ≠ 0) as Hnz.
    { apply size_non_empty_iff. intros Hs%leibniz_equiv. subst s.
      apply (not_elem_of_empty (C := gset jsstring) x). rewrite <- Hs.
      apply elem_of_list_to_set. by left. }
    rewrite decide_False by done. field.
    intros H0. pose proof (inject_nat_pos (size s)) as Hpos.
    rewrite H0 in Hpos. apply (Qlt_irrefl 0), Hpos. lia.
Qed.

(** X9.  The similarity depends on the two lists only through their sets of
    elements: order and repetition are immaterial. *)
Theorem jaccardSimilarity_elements (set1 set2 set1' set2' : list jsstring) :
  (∀ x, x ∈ set1 ↔ x ∈ set1') →
  (∀ x, x ∈ set2 ↔ x ∈ set2') →
  jaccardSimilarity set1 set2 = jaccardSimilarity set1' set2'.
Proof.
  intros H1 H2. rewrite !jaccardSimilarity_sets. cbv zeta.
  assert (list_to_set set1 =@{gset jsstring} list_to_set set1') as ->.
  { apply set_eq. intros x. by rewrite !elem_of_list_to_set. }
  assert (list_to_set set2 =@{gset jsstring} list_to_set set2') as ->.
  { apply set_eq. intros x. by rewrite !elem_of_list_to_set. }
  done.
Qed.

(** X10.  The similarity is 0 exactly when the two lists share no element,
    and 1 exactly when they are not empty and have the same elements. *)
Theorem jaccardSimilarity_extremes (set1 set2 : list jsstring) :
  (jaccardSimilarity set1 set2 == 0 ↔ ∀ x, x ∈ set1 → x ∉ set2)%Q
  ∧ (jaccardSimilarity set1 set2 == 1
     ↔ set1 ≠ [] ∧ ∀ x, x ∈ set1 ↔ x ∈ set2)%Q.
Proof.
  set (s1 := list_to_set set1 : gset jsstring).
  set (s2 := list_to_set set2 : gset jsstring).
  assert (∀ x, x ∈ s1 ↔ x ∈ set1) as Hs1 by (intros; apply elem_of_list_to_set).
  assert (∀ x, x ∈ s2 ↔ x ∈ set2) as Hs2 by (intros; apply elem_of_list_to_set).
  destruct (decide (size (s1 ∪ s2) = 0)) as [Hz|Hnz].
  - (* both lists are empty *)
    apply size_empty_iff, leibniz_equiv in Hz.
    assert (set1 = []) as ->.
    { destruct set1 as [|x ?]; [done|]. exfalso.
      apply (not_elem_of_empty (C := gset jsstring) x). rewrite <- Hz.
      apply elem_of_union_l, Hs1. by left. }
    assert (jaccardSimilarity [] set2 = 0%Q) as ->.
    { rewrite jaccardSimilarity_sets. cbv zeta. fold s2.
      rewrite decide_True; [done|]. change (size (s1 ∪ s2) = 0).
      by rewrite Hz, size_empty. }
    split.
    + split; [|done]. by intros _ x ?%elem_of_nil.
    + split; [done|]. by intros [? _].
  - pose proof (jaccardSimilarity_ratio set1 set2 Hnz) as Hratio.
    fold s1 s2 in Hratio.
    pose proof (inject_nat_pos (size (s1 ∪ s2))) as Hpos.
    set (J := jaccardSimilarity set1 set2) in *.
    split.
    + split.
      * intros HJ x Hx1 Hx2. rewrite HJ, Qmult_0_l in Hratio.
        change 0%Q with (inject_Z 0) in Hratio. rewrite inject_Z_injective in Hratio.
        assert (s1 ∩ s2 = ∅) as Hempty by (apply leibniz_equiv, size_empty_iff; lia).
        apply (not_elem_of_empty (C := gset jsstring) x). rewrite <- Hempty.
        apply elem_of_intersection. split; [by apply Hs1|by apply Hs2].
      * intros Hdisj.
        assert (s1 ∩ s2 = ∅) as Hempty.
        { apply set_eq. intros x. rewrite elem_of_intersection, Hs1, Hs2. split.
          - intros [Hx1 Hx2]. by destruct (Hdisj x Hx1).
          - by intros ?%not_elem_of_empty. }
        rewrite Hempty, size_empty in Hratio.
        assert (0 < inject_Z (Z.of_nat (size (s1 ∪ s2))))%Q by (apply Hpos; lia).
        change (inject_Z (Z.of_nat 0)) with 0%Q in Hratio. nra.
    + split.
      * intros HJ. rewrite HJ, Qmult_1_l, inject_Z_injective in Hratio.
        assert (s1 ∪ s2 = s1 ∩ s2) as Heq.
        { symmetry. apply set_subseteq_size_eq; [|lia].
          intros x [Hx _]%elem_of_intersection. by apply elem_of_union_l. }
        assert (∀ x, x ∈ set1 ↔ x ∈ set2) as Hsame.
        { intros x. rewrite <- Hs1, <- Hs2. split; intros Hx.
          - assert (x ∈ s1 ∪ s2) as Hu by (by apply elem_of_union_l).
            rewrite Heq in Hu. by apply elem_of_intersection in Hu as [_ ?].
          - assert (x ∈ s1 ∪ s2) as Hu by (by apply elem_of_union_r).
            rewrite Heq in Hu. by apply elem_of_intersection in Hu as [? _]. }
        split; [|done]. intros ->. apply Hnz, size_empty_iff.
        apply set_equiv. intros x. rewrite elem_of_union, Hs1, Hs2, <- Hsame.
        split; [by intros [?%elem_of_nil|?%elem_of_nil]|by intros ?%not_elem_of_empty].
      * intros [_ Hsame].
        assert (s1 = s2) as Heq
          by (apply set_eq; intros x; by rewrite Hs1, Hs2).
        rewrite Heq, (idemp_L (∪) s2), (idemp_L (∩) s2) in *.
        assert (0 < inject_Z (Z.of_nat (size s2)))%Q by (apply Hpos; lia).
        nra.
Qed.

Lemma compareInputFields_bounds (inputs1 inputs2 : list InputField) :
  (0 <= compareInputFields inputs1 inputs2 <= 1)%Q.
Proof.
  unfold compareInputFields. destruct (_ && _); [done|].
  pose proof (jaccardSimilarity_bounds (sort (input_type <$> inputs1))
                (sort (input_type <$> inputs2))).
  pose proof (jaccardSimilarity_bounds (List.filter truthy (input_name <$> inputs1))
                (List.filter truthy (input_name <$> inputs2))).
  pose proof (jaccardSimilarity_bounds (List.filter truthy (input_id <$> inputs1))
                (List.filter truthy (input_id <$> inputs2))).
  lra.
Qed.

Lemma titleSimilarity_bounds (title1 title2 : jsstring) :
  (0 <= titleSimilarity title1 title2 <= 1)%Q.
Proof.
  unfold titleSimilarity. destruct (bool_decide _); [done|].
  destruct (_ || _); done.
Qed.

Lemma percentage (x : Q) : (0 <= x <= 1)%Q → (0 ≤ Math_round (x * 100) ≤ 100)%Z.
Proof. intros [? ?]. apply Math_round_bounds; unfold inject_Z; lra. Qed.

Variable extractStructuralFeatures : jsstring → Features.


Lemma Math_round_100 (x : Q) : (x == 1)%Q → Math_round (x * 100) = 100%Z.
Proof.
  intros Hx. unfold Math_round.
  rewrite (Qfloor_comp (x * 100 + (1 # 2)) (201 # 2)); [done|]. rewrite Hx. ring.
Qed.

Lemma jaccardSimilarity_refl_1 (set1 : list jsstring) :
  set1 ≠ [] → (jaccardSimilarity set1 set1 == 1)%Q.
Proof.
  intros Hne. rewrite jaccardSimilarity_refl. by rewrite bool_decide_eq_false_2.
Qed.

Lemma sort_nonempty (l : list jsstring) : l ≠ [] → sort l ≠ [].
Proof.
  intros Hne Hsort. apply Hne, Permutation_nil_r.
  rewrite <- Hsort. unfold sort. by rewrite merge_sort_Permutation.
Qed.


End scores.

Section scores_examples.
Import Spec HtmlSimilarity.

(** X9 on lists that differ in order and repetition. *)
Lemma jaccardSimilarity_elements_witness :
  jaccardSimilarity [js "btn"; js "form"; js "btn"] [js "form"]
  = jaccardSimilarity [js "form"; js "btn"] [js "form"; js "form"].
Proof.
  apply (jaccardSimilarity_elements
           [js "btn"; js "form"; js "btn"] [js "form"]
           [js "form"; js "btn"] [js "form"; js "form"]);
    intros x; rewrite !elem_of_cons, !elem_of_nil; tauto.
Defined.


End scores_examples.

(** ** Findings of the analysis *)

Section findings.
Context {lc : CaseMapping}.
Import Spec Props DomainSimilarity BrandImpersonation.

Variable extractStructuralFeatures : jsstring → HtmlSimilarity.Features.
Variable hasLoginForm : jsstring → bool.
Variable extractAllData :
  jsstring → jsstring → list jsstring → MultiEngineSearch.Response Extracted.
Variable fetchUrl : jsstring → MultiEngineSearch.Response jsstring.
Variable now : jsstring.

#[local] Abbreviation analyzeHtml := (analyzeHtml extractStructuralFeatures hasLoginForm).
#[local] Abbreviation analyzeSearchResult :=
  (analyzeSearchResult extractStructuralFeatures hasLoginForm extractAllData fetchUrl now).

Lemma total_app (l : list Indicator) (i : Indicator) :
  (total (l ++ [i]) == total l + points i)%Q.
Proof.
  induction l as [|j l IH]; simpl; [ring|]. rewrite IH. ring.
Qed.

Lemma total_nonneg (l : list Indicator) :
  Forall (λ i, 0 <= points i)%Q l → (0 <= total l)%Q.
Proof.
  induction 1 as [|i l Hi _ IH]; simpl in *; [done|].
  change 0%Q with (0 + 0)%Q. by apply Qplus_le_compat.
Qed.

Lemma indicate_scored (i : Indicator) (finding : Finding) :
  (0 <= points i)%Q → scored finding → scored (indicate i (points i) finding).
Proof.
  intros Hi [Hscore Hall]. split; simpl.
  - rewrite total_app, Hscore. done.
  - apply Forall_app. split; [done|]. by apply Forall_singleton.
Qed.

(** The indicators a step leaves in place: every step appends. *)
Lemma indicate_prefix (i : Indicator) (p : Q) (finding : Finding) :
  indicators finding `prefix_of` indicators (indicate i p finding).
Proof. simpl. by apply prefix_app_r. Qed.

(** A double above 60 stands for a number that is not negative. *)
Lemma valueOf_above_60 (x : Binary64.double) :
  Binary64.ltb (Binary64.ofZ 60) x = true → (0 <= Binary64.valueOf x)%Q.
Proof.
  destruct x as [s|s| |s m e]; try done. destruct s; [done|]. intros _.
  unfold Binary64.valueOf. cbn [SpecFloat.cond_Zopp].
  apply Qmult_le_0_compat; [done|]. by apply Qpower_0_le.
Qed.

Lemma analyzeHtml_scored (html : jsstring) (extracted : Extracted)
    (companyProfile : CompanyProfile) (realSiteHtml : option jsstring)
    (options : Options) (finding : Finding) :
  scored finding →
  scored (analyzeHtml html extracted companyProfile realSiteHtml options finding)
  ∧ indicators finding
    `prefix_of` indicators (analyzeHtml html extracted companyProfile realSiteHtml
                              options finding).
Proof.
  intros Hscored. unfold BrandImpersonation.analyzeHtml. cbv zeta.
  set (f1 := if bool_decide (0 < length (keywords_found extracted)) then _ else finding).
  assert (scored f1 ∧ indicators finding `prefix_of` indicators f1) as [H1 P1].
  { subst f1. case_bool_decide; [|done]. split; [|apply indicate_prefix].
    by apply (indicate_scored (keyword_match _ _)). }
  set (f2 := if hasLoginForm html then _ else f1).
  assert (scored f2 ∧ indicators f1 `prefix_of` indicators f2) as [H2 P2].
  { subst f2. destruct (hasLoginForm html); [|done]. split; [|apply indicate_prefix].
    by apply (indicate_scored (login_form_detected 90)). }
  set (f3 := match realSiteHtml with Some _ => _ | None => f2 end).
  assert (scored f3 ∧ indicators f2 `prefix_of` indicators f3) as [H3 P3].
  { subst f3. destruct realSiteHtml as [real|]; [|done].
    destruct (_ && _); [|done].
    destruct (Binary64.ltb _ _) eqn:Hover; [|done]. split; [|apply indicate_prefix].
    apply (indicate_scored (html_similarity _ _)); [|done]. cbn [points].
    apply valueOf_above_60 in Hover. apply Qle_shift_div_l; [done|]. by rewrite Qmult_0_l. }
  set (f4 := if bool_decide (0 < length (credentials extracted)) then _ else f3).
  assert (scored f4 ∧ indicators f3 `prefix_of` indicators f4) as [H4 P4].
  { subst f4. case_bool_decide; [|done]. split; [|apply indicate_prefix].
    by apply (indicate_scored (credentials_found _)). }
  set (f5 := if bool_decide (0 < length _) then _ else f4).
  assert (scored f5 ∧ indicators f4 `prefix_of` indicators f5) as [H5 P5].
  { subst f5. case_bool_decide; [|done]. split; [|apply indicate_prefix].
    by apply (indicate_scored (company_domain_mentioned _)). }
  split; [exact H5|]. simpl.
  by repeat (etrans; [eassumption|]).
Qed.

Lemma analyzeHtml_fields (html : jsstring) (extracted : Extracted)
    (companyProfile : CompanyProfile) (realSiteHtml : option jsstring)
    (options : Options) (finding : Finding) :
  let analysed :=
    analyzeHtml html extracted companyProfile realSiteHtml options finding in
  url analysed = url finding
  ∧ crawl_error analysed = crawl_error finding
  ∧ was_crawled analysed = Some true
  ∧ extracted_data analysed = Some extracted.
Proof.
  unfold BrandImpersonation.analyzeHtml. cbv zeta.
  cbn [url crawl_error was_crawled extracted_data withCrawl].
  repeat (case_match; cbn [url crawl_error indicate]); done.
Qed.

Lemma analyzeSearchResult_outcome (searchResult : MultiEngineSearch.SearchResult)
    (companyProfile : CompanyProfile) (realSiteHtml : option jsstring) (options : Options) :
  let url := MultiEngineSearch.url searchResult in
  let domainCheck := checkBrandSimilarity url (keywords companyProfile) in
  ∃ crawl : Finding,
    (analyzeSearchResult searchResult companyProfile realSiteHtml options).1
    = (if bool_decide (0 < length (indicators crawl))
       then Some (withSeverity (calculateSeverity (severity_score crawl)) crawl)
       else None)
    ∧ scored crawl
    ∧ BrandImpersonation.url crawl = url
    ∧ (∀ k t c, domainCheck = Match k t c →
         ∃ rest, indicators crawl = domain_similarity c k t :: rest)
    ∧ (shouldCrawl domainCheck realSiteHtml options = true →
       match fetchUrl url with
       | MultiEngineSearch.Threw message => failedCrawl message crawl
       | MultiEngineSearch.Resolved html =>
           if truthy html
           then match extractAllData html url (keywords companyProfile) with
                | MultiEngineSearch.Resolved extracted =>
                    was_crawled crawl = Some true ∧ crawl_error crawl = None
                    ∧ extracted_data crawl = Some extracted
                | MultiEngineSearch.Threw message => failedCrawl message crawl
                end
           else was_crawled crawl = None ∧ crawl_error crawl = None
                ∧ extracted_data crawl = None
                ∧ Forall metadataIndicator (indicators crawl)
       end).
Proof.
  cbv zeta. unfold BrandImpersonation.analyzeSearchResult, analyzeFrom, failedCrawl.
  set (domainCheck := checkBrandSimilarity _ _).
  set (start := Build_Finding _ _ _ _ _ _ [] low 0 None None None None).
  set (f1 := match domainCheck with Match _ _ _ => _ | NoMatch => start end).
  set (f2 := if bool_decide (0 < length _) then _ else f1).
  assert (scored start) as Hstart by (split; [done|apply Forall_nil_2]).
  assert (scored f1 ∧ Forall metadataIndicator (indicators f1)
          ∧ (∀ k t c, domainCheck = Match k t c →
               indicators f1 = [domain_similarity c k t])) as (H1 & M1 & D1).
  { subst f1. destruct domainCheck as [|k t c] eqn:Hcheck.
    - split; [done|]. split; [apply Forall_nil_2|done].
    - split; [|split].
      + apply (indicate_scored (domain_similarity c k t)); [|done]. simpl.
        apply checkBrandSimilarity_found in Hcheck as (k' & _ & Hk').
        apply detect_confidence in Hk'.
        apply Qle_shift_div_l; [done|]. lra.
      + simpl. by apply Forall_singleton.
      + by intros ??? [= -> -> ->]. }
  assert (scored f2 ∧ Forall metadataIndicator (indicators f2)
          ∧ indicators f1 `prefix_of` indicators f2) as (H2 & M2 & P2).
  { subst f2. case_bool_decide; [|done]. split; [|split].
    - by apply (indicate_scored (keyword_in_metadata _)).
    - simpl. apply Forall_app. split; [done|]. by apply Forall_singleton.
    - apply indicate_prefix. }
  assert (∀ g : Finding, indicators f2 `prefix_of` indicators g →
          ∀ k t c, domainCheck = Match k t c →
            ∃ rest, indicators g = domain_similarity c k t :: rest) as Hhead.
  { intros g Hg k t c Hcheck. rewrite (D1 k t c Hcheck) in P2.
    destruct P2 as [rest2 Hrest2]. destruct Hg as [rest Hrest].
    exists (rest2 ++ rest). rewrite Hrest, Hrest2. by rewrite <- app_assoc. }
  assert (BrandImpersonation.url f2 = MultiEngineSearch.url searchResult) as Hurl.
  { subst f2 f1 start. case_bool_decide; by destruct domainCheck. }
  assert (was_crawled f2 = None ∧ crawl_error f2 = None ∧ extracted_data f2 = None)
    as (Hw & He & Hx)
    by (subst f2 f1 start; case_bool_decide; by destruct domainCheck).
  destruct (shouldCrawl domainCheck realSiteHtml options) eqn:Hgate.
  - destruct (fetchUrl _) as [html|message] eqn:Hfetch.
    + destruct (truthy html) eqn:Hhtml.
      * destruct (extractAllData _ _ _) as [extracted|message] eqn:Hextract.
        -- destruct (analyzeHtml_scored html extracted companyProfile realSiteHtml
                       options f2 H2) as [H3 P3].
           exists (analyzeHtml html extracted companyProfile realSiteHtml options f2).
           split; [done|]. split; [done|].
           destruct (analyzeHtml_fields html extracted companyProfile realSiteHtml
                       options f2) as (Fu & Fe & Fw & Fx).
           split; [by rewrite Fu|]. split; [by apply Hhead|].
           intros _. split; [done|]. split; [|done]. by rewrite Fe.
        -- exists (withCrawl (extracted_data f2) (Some false) (Some message)
                     (crawl_reason f2) f2).
           split; [done|]. split; [done|]. split; [done|].
           split; [by apply Hhead|]. intros _. done.
      * exists f2. split; [done|]. split; [done|]. split; [done|].
        split; [by apply Hhead|]. intros _. done.
    + exists (withCrawl (extracted_data f2) (Some false) (Some message)
                (crawl_reason f2) f2).
      split; [done|]. split; [done|]. split; [done|].
      split; [by apply Hhead|]. intros _. done.
  - exists (withCrawl (extracted_data f2) (Some false) (crawl_error f2)
              (Some (js "Low similarity - crawling skipped for efficiency")) f2).
    split; [done|]. split; [done|]. split; [done|].
    split; [by apply Hhead|]. done.
Qed.

(** X13.  A finding that [analyzeSearchResult] returns has at least one
    indicator, carries the URL of the search result, has a score equal to
    the points of its indicators, and a severity that is the tier of that
    score. *)
Theorem analyzeSearchResult_finding (searchResult : MultiEngineSearch.SearchResult)
    (companyProfile : CompanyProfile) (realSiteHtml : option jsstring) (options : Options)
    (finding : Finding) :
  (analyzeSearchResult searchResult companyProfile realSiteHtml options).1 = Some finding →
  indicators finding ≠ []
  ∧ url finding = MultiEngineSearch.url searchResult
  ∧ (severity_score finding == total (indicators finding))%Q
  ∧ severity finding = calculateSeverity (severity_score finding).
Proof.
  destruct (analyzeSearchResult_outcome searchResult companyProfile realSiteHtml options)
    as (crawl & -> & [Hscore _] & Hurl & _).
  case_bool_decide as Hlen; [|done]. intros [= <-]. simpl.
  split; [|done]. intros Hnil. rewrite Hnil in Hlen. simpl in Hlen. lia.
Qed.

(** X14.  A candidate whose domain matches a brand keyword is always
    reported: the finding starts with the [domain_similarity] indicator, its
    severity is [high] or [critical], and it is [critical] when the
    confidence is 90 or more. *)
Theorem analyzeSearchResult_domain_match (searchResult : MultiEngineSearch.SearchResult)
    (companyProfile : CompanyProfile) (realSiteHtml : option jsstring) (options : Options)
    (keyword : jsstring) (type : option MatchType) (confidence : Q) :
  checkBrandSimilarity (MultiEngineSearch.url searchResult) (keywords companyProfile)
  = Match keyword type confidence →
  ∃ finding rest,
    (analyzeSearchResult searchResult companyProfile realSiteHtml options).1 = Some finding
    ∧ indicators finding = domain_similarity confidence keyword type :: rest
    ∧ (severity finding = high ∨ severity finding = critical)
    ∧ ((90 <= confidence)%Q → severity finding = critical).
Proof.
  intros Hcheck.
  destruct (analyzeSearchResult_outcome searchResult companyProfile realSiteHtml options)
    as (crawl & Hout & [Hscore Hall] & _ & Hhead & _).
  destruct (Hhead _ _ _ Hcheck) as [rest Hrest].
  exists (withSeverity (calculateSeverity (severity_score crawl)) crawl), rest.
  rewrite Hout, Hrest. simpl. split; [done|]. split; [done|].
  rewrite Hrest in Hscore, Hall. simpl in Hscore.
  apply Forall_cons in Hall as [_ Hall]. apply total_nonneg in Hall.
  apply checkBrandSimilarity_found in Hcheck as (k' & _ & Hk').
  apply detect_confidence in Hk'.
  assert (confidence / 10 <= severity_score crawl)%Q as Hlow by (rewrite Hscore; lra).
  assert (8 < confidence / 10)%Q as H8 by (apply Qlt_shift_div_l; [done|lra]).
  unfold calculateSeverity. split.
  - destruct (Qle_bool 9 _); [by right|].
    rewrite (proj2 (Qle_bool_iff 7 _)) by lra. by left.
  - intros H90. rewrite (proj2 (Qle_bool_iff 9 _)); [done|].
    assert (9 <= confidence / 10)%Q by (apply Qle_shift_div_l; [done|lra]). lra.
Qed.

(** X15.  What a finding records about the crawl when the gate is open: if
    the fetch fails, or the page is not empty and the data extraction
    throws, it has [was_crawled = false], the error message, no extracted
    data and metadata indicators only; if a non-empty page is fetched and
    its data extracted, it has [was_crawled = true] and the extracted data;
    an empty page leaves flag, error and data unset. *)
Theorem analyzeSearchResult_crawl_record (searchResult : MultiEngineSearch.SearchResult)
    (companyProfile : CompanyProfile) (realSiteHtml : option jsstring) (options : Options)
    (finding : Finding) :
  shouldCrawl (checkBrandSimilarity (MultiEngineSearch.url searchResult)
                 (keywords companyProfile)) realSiteHtml options = true →
  (analyzeSearchResult searchResult companyProfile realSiteHtml options).1 = Some finding →
  match fetchUrl (MultiEngineSearch.url searchResult) with
  | MultiEngineSearch.Threw message => failedCrawl message finding
  | MultiEngineSearch.Resolved html =>
      if truthy html
      then match extractAllData html (MultiEngineSearch.url searchResult)
                   (keywords companyProfile) with
           | MultiEngineSearch.Resolved extracted =>
               was_crawled finding = Some true ∧ crawl_error finding = None
               ∧ extracted_data finding = Some extracted
           | MultiEngineSearch.Threw message => failedCrawl message finding
           end
      else was_crawled finding = None ∧ crawl_error finding = None
           ∧ extracted_data finding = None
           ∧ Forall metadataIndicator (indicators finding)
  end.
Proof.
  intros Hgate.
  destruct (analyzeSearchResult_outcome searchResult companyProfile realSiteHtml options)
    as (crawl & -> & _ & _ & _ & Hcrawl).
  specialize (Hcrawl Hgate). case_bool_decide; [|done]. intros [= <-].
  destruct (fetchUrl _) as [html|message];
    [destruct (truthy html); [destruct (extractAllData _ _ _)|]|]; exact Hcrawl.
Qed.

End findings.

Section findings_examples.
Import Spec Props DomainSimilarity BrandImpersonation.

(** X16.  The severity tier never falls when the score grows. *)
Theorem calculateSeverity_monotone (score1 score2 : Q) :
  (score1 <= score2)%Q →
  (BrandReport.severityOrder (calculateSeverity score2)
   ≤ BrandReport.severityOrder (calculateSeverity score1))%Z.
Proof.
  intros Hle. unfold calculateSeverity.
  assert (∀ k, Qle_bool k score1 = true → Qle_bool k score2 = true) as Hup.
  { intros k Hk. apply Qle_bool_iff in Hk. apply Qle_bool_iff. lra. }
  destruct (Qle_bool 9 score1) eqn:H9; [rewrite (Hup _ H9); done|].
  destruct (Qle_bool 7 score1) eqn:H7;
    [rewrite (Hup _ H7); destruct (Qle_bool 9 score2); simpl; lia|].
  destruct (Qle_bool 4 score1) eqn:H4;
    [rewrite (Hup _ H4); destruct (Qle_bool 9 score2), (Qle_bool 7 score2); simpl; lia|].
  destruct (Qle_bool 9 score2), (Qle_bool 7 score2), (Qle_bool 4 score2); simpl; lia.
Qed.

(** X16 on the scores 3 and 13. *)
Lemma calculateSeverity_monotone_witness :
  (BrandReport.severityOrder (calculateSeverity 13)
   ≤ BrandReport.severityOrder (calculateSeverity 3))%Z.
Proof. apply (calculateSeverity_monotone 3 13). done. Defined.

(** X13 on a candidate whose URL contains the keyword [market] and whose
    page cannot be fetched. *)
Lemma analyzeSearchResult_finding_witness :
  ∃ finding,
    (sampleAnalysis (λ _, MultiEngineSearch.Threw (js "Timeout"))
       (sampleCandidate (js "http://market.onion") (js "Market"))).1 = Some finding
    ∧ indicators finding ≠ []
    ∧ url finding = js "http://market.onion"
    ∧ (severity_score finding == total (indicators finding))%Q
    ∧ severity finding = calculateSeverity (severity_score finding).
Proof.
  eexists. split; [vm_compute; reflexivity|].
  apply (analyzeSearchResult_finding (lc := asciiLowerCase)
           (λ _, Spec.loginPage []) (λ _, true) (λ _ _ _, MultiEngineSearch.Resolved sampleExtracted)
           (λ _, MultiEngineSearch.Threw (js "Timeout")) (js "2026-01-02T00:00:00.000Z")
           (sampleCandidate (js "http://market.onion") (js "Market"))
           sampleProfile None sampleOptions).
  vm_compute. reflexivity.
Defined.

(** X14 on the same candidate: the keyword is matched directly. *)
Lemma analyzeSearchResult_domain_match_witness :
  ∃ finding rest,
    (sampleAnalysis (λ _, MultiEngineSearch.Threw (js "Timeout"))
       (sampleCandidate (js "http://market.onion") (js "Market"))).1 = Some finding
    ∧ indicators finding = domain_similarity 100 (js "market") (Some direct_match) :: rest
    ∧ (severity finding = high ∨ severity finding = critical)
    ∧ ((90 <= 100)%Q → severity finding = critical).
Proof.
  apply (analyzeSearchResult_domain_match (lc := asciiLowerCase)
           (λ _, Spec.loginPage []) (λ _, true) (λ _ _ _, MultiEngineSearch.Resolved sampleExtracted)
           (λ _, MultiEngineSearch.Threw (js "Timeout")) (js "2026-01-02T00:00:00.000Z")
           (sampleCandidate (js "http://market.onion") (js "Market"))
           sampleProfile None sampleOptions).
  vm_compute. reflexivity.
Defined.

(** X15 on the same candidate: the gate is open and the fetch fails. *)
Lemma analyzeSearchResult_crawl_record_witness :
  ∃ finding,
    (sampleAnalysis (λ _, MultiEngineSearch.Threw (js "Timeout"))
       (sampleCandidate (js "http://market.onion") (js "Market"))).1 = Some finding
    ∧ was_crawled finding = Some false ∧ crawl_error finding = Some (js "Timeout")
    ∧ extracted_data finding = None
    ∧ Forall metadataIndicator (indicators finding).
Proof.
  eexists. split; [vm_compute; reflexivity|].
  apply (analyzeSearchResult_crawl_record (lc := asciiLowerCase)
           (λ _, Spec.loginPage []) (λ _, true) (λ _ _ _, MultiEngineSearch.Resolved sampleExtracted)
           (λ _, MultiEngineSearch.Threw (js "Timeout")) (js "2026-01-02T00:00:00.000Z")
           (sampleCandidate (js "http://market.onion") (js "Market"))
           sampleProfile None sampleOptions);
    vm_compute; reflexivity.
Defined.

End findings_examples.

Section gate_examples.
Import Spec Props DomainSimilarity BrandImpersonation.
#[local] Existing Instance asciiLowerCase.

(** C3, the claim as stated fails: for the candidate [http://g0ogle.onion],
    the keywords [google], [g0ogle] and a threshold of 90, the best match is
    the direct one of the second keyword (confidence 100, at least the
    threshold), but the match kept is the homoglyph one of the first keyword
    (confidence 85), and without a reference page the fetcher is not
    called. *)
Lemma analyzeSearchResult_best_match_unfetched :
  detect (js "http://g0ogle.onion") (js "g0ogle")
  = Match (js "g0ogle") (Some direct_match) 100
  ∧ similarityThreshold strictOptions = 90%Q ∧ (90 <= 100)%Q
  ∧ checkBrandSimilarity (js "http://g0ogle.onion") (keywords lookalikeProfile)
    = Match (js "google") (Some homoglyph) 85
  ∧ (analyzeSearchResult (lc := asciiLowerCase)
       (λ _, Spec.loginPage []) (λ _, true)
       (λ _ _ _, MultiEngineSearch.Resolved sampleExtracted)
       (λ _, MultiEngineSearch.Resolved (js "<html>")) (js "2026-01-02T00:00:00.000Z")
       (sampleCandidate (js "http://g0ogle.onion") (js "Search"))
       lookalikeProfile None strictOptions).2 = [].
Proof. vm_compute. done. Qed.

End gate_examples.

(** ** The report of [analyzeSearchResults] *)

Section report.
Context {lc : CaseMapping}.
Import Spec Props DomainSimilarity BrandImpersonation.

Variable extractStructuralFeatures : jsstring → HtmlSimilarity.Features.
Variable hasLoginForm : jsstring → bool.
Variable extractAllData :
  jsstring → jsstring → list jsstring → MultiEngineSearch.Response Extracted.
Variable fetchReal : jsstring → MultiEngineSearch.Response jsstring.
Variable fetchUrl : nat → jsstring → MultiEngineSearch.Response jsstring.
Variable now : jsstring.

Local Abbreviation analyze i :=
  (analyzeSearchResult extractStructuralFeatures hasLoginForm extractAllData (fetchUrl i) now).
Local Abbreviation analyzeEach :=
  (BrandReport.analyzeEach extractStructuralFeatures hasLoginForm extractAllData fetchUrl now).
Local Abbreviation analyzeSearchResults :=
  (BrandReport.analyzeSearchResults extractStructuralFeatures hasLoginForm extractAllData
     fetchReal fetchUrl now).
Local Abbreviation candidateFindings :=
  (Props.candidateFindings extractStructuralFeatures hasLoginForm extractAllData
     fetchReal fetchUrl now).

Lemma analyzeSearchResult_calls i searchResult companyProfile realSiteHtml options :
  (analyze i searchResult companyProfile realSiteHtml options).2
  = if shouldCrawl (checkBrandSimilarity (MultiEngineSearch.url searchResult)
                      (keywords companyProfile)) realSiteHtml options
    then [MultiEngineSearch.url searchResult] else [].
Proof.
  unfold analyzeSearchResult, analyzeFrom.
  destruct (shouldCrawl _ _ _); [destruct (fetchUrl _ _)|]; reflexivity.
Qed.

Lemma found_cons analyse searchResult rest :
  found analyse (searchResult :: rest)
  = from_option (λ f, [f]) [] (analyse 0 searchResult) ++ found (analyse ∘ S) rest.
Proof. unfold found. simpl. by destruct (analyse 0 searchResult). Qed.

Lemma found_length searchResults : ∀ analyse,
  length (found analyse searchResults) ≤ length searchResults.
Proof.
  induction searchResults as [|sr rest IH]; intros analyse; [done|].
  rewrite found_cons, length_app. specialize (IH (analyse ∘ S)).
  destruct (analyse 0 sr); simpl; lia.
Qed.

Lemma counted_app findings1 findings2 c :
  counted (findings1 ++ findings2) c = counted findings2 (counted findings1 c).
Proof. apply foldl_app. Qed.

Lemma analyzeEach_found searchResults :
  ∀ i companyProfile realSiteHtml options findings counts calls,
  analyzeEach i searchResults companyProfile realSiteHtml options findings counts calls
  = (findings
       ++ found (λ k sr, (analyze (i + k) sr companyProfile realSiteHtml options).1)
            searchResults,
     counted (found (λ k sr, (analyze (i + k) sr companyProfile realSiteHtml options).1)
                searchResults) counts,
     calls
       ++ map MultiEngineSearch.url
            (List.filter
               (λ sr, shouldCrawl (checkBrandSimilarity (MultiEngineSearch.url sr)
                                     (keywords companyProfile)) realSiteHtml options)
               searchResults)).
Proof.
  induction searchResults as [|sr rest IH];
    intros i companyProfile realSiteHtml options findings counts calls.
  { simpl. by rewrite !app_nil_r. }
  cbn [BrandReport.analyzeEach]. rewrite found_cons.
  pose proof (analyzeSearchResult_calls i sr companyProfile realSiteHtml options) as Hasked.
  replace (i + 0) with i by lia.
  destruct (analyze i sr companyProfile realSiteHtml options) as [finding asked].
  simpl in Hasked. subst asked.
  assert (found ((λ k sr0, (analyze (i + k) sr0 companyProfile realSiteHtml options).1) ∘ S) rest
          = found (λ k sr0, (analyze (S i + k) sr0 companyProfile realSiteHtml options).1) rest)
    as ->.
  { unfold found. f_equal. apply imap_ext. intros k x _. simpl.
    by replace (i + S k) with (S (i + k)) by lia. }
  cbn [List.filter].
  destruct finding as [finding|]; rewrite IH; cbn [fst from_option];
    destruct (shouldCrawl _ _ _); cbn [map];
    rewrite ?counted_app, <- ?(assoc_L (++)); simpl; by rewrite ?app_nil_r.
Qed.

Lemma analyzeSearchResults_unfold searchResults companyProfile options :
  analyzeSearchResults searchResults companyProfile options
  = ({| BrandReport.companyName := companyName companyProfile;
        BrandReport.analyzedAt := now;
        BrandReport.totalAnalyzed := length searchResults;
        BrandReport.totalFindings :=
          length (candidateFindings searchResults companyProfile options);
        BrandReport.findings :=
          BrandReport.sortFindings (candidateFindings searchResults companyProfile options);
        BrandReport.severityCounts :=
          counted (candidateFindings searchResults companyProfile options)
            {| BrandReport.critical := 0; BrandReport.high := 0;
               BrandReport.medium := 0; BrandReport.low := 0 |} |},
     match realLoginUrl companyProfile with
     | Some realLoginUrl =>
         if default true (BrandReport.downloadRealSite options) && truthy realLoginUrl
         then [realLoginUrl] else []
     | None => []
     end ++ map MultiEngineSearch.url (gated fetchReal searchResults companyProfile options)).
Proof.
  unfold BrandReport.analyzeSearchResults, Props.candidateFindings, gated, realSite, handedOn.
  destruct (realLoginUrl companyProfile) as [realLoginUrl|];
    [destruct (default true (BrandReport.downloadRealSite options) && truthy realLoginUrl)|];
    rewrite analyzeEach_found; reflexivity.
Qed.

Lemma insertFinding_filter (P : Finding → Prop) `{!∀ f, Decision (P f)} a sorted :
  (∀ b, P a → P b → severity a = severity b) →
  filter P (BrandReport.insertFinding a sorted) = filter P (a :: sorted).
Proof.
  intros Hsame. induction sorted as [|b rest IH]; [done|].
  cbn [BrandReport.insertFinding]. destruct (_ <=? 0)%Z eqn:Hle; [done|].
  apply Z.leb_gt in Hle.
  rewrite filter_cons, IH, !filter_cons.
  destruct (decide (P a)) as [Ha|]; [|done].
  destruct (decide (P b)) as [Hb|]; [|done].
  rewrite (Hsame b Ha Hb) in Hle. lia.
Qed.

(** The sort keeps the findings of each severity in the order they had. *)
Lemma sortFindings_stable s findings :
  filter (λ f, severity f = s) (BrandReport.sortFindings findings)
  = filter (λ f, severity f = s) findings.
Proof.
  induction findings as [|a rest IH]; [done|].
  cbn [BrandReport.sortFindings foldr]. rewrite insertFinding_filter.
  - rewrite !filter_cons. fold (BrandReport.sortFindings rest). by rewrite IH.
  - intros b. congruence.
Qed.

Lemma insertFinding_Permutation a sorted :
  BrandReport.insertFinding a sorted ≡ₚ a :: sorted.
Proof.
  induction sorted as [|b rest IH]; [done|].
  cbn [BrandReport.insertFinding]. destruct (_ <=? 0)%Z; [done|].
  rewrite IH. apply Permutation_swap.
Qed.

Lemma sortFindings_Permutation findings :
  BrandReport.sortFindings findings ≡ₚ findings.
Proof.
  induction findings as [|a rest IH]; [done|].
  cbn [BrandReport.sortFindings foldr]. rewrite insertFinding_Permutation.
  by apply Permutation_skip.
Qed.

Lemma insertFinding_sorted a sorted :
  StronglySorted (λ a b, BrandReport.severityOrder (severity a)
                         ≤ BrandReport.severityOrder (severity b))%Z sorted →
  StronglySorted (λ a b, BrandReport.severityOrder (severity a)
                         ≤ BrandReport.severityOrder (severity b))%Z
    (BrandReport.insertFinding a sorted).
Proof.
  induction 1 as [|b rest Hrest IH Hb]; [repeat constructor|].
  cbn [BrandReport.insertFinding]. destruct (_ <=? 0)%Z eqn:Hle.
  - apply Z.leb_le in Hle. constructor; [by constructor|].
    constructor; [lia|]. eapply Forall_impl; [exact Hb|]. simpl. intros. lia.
  - apply Z.leb_gt in Hle. constructor; [done|].
    rewrite insertFinding_Permutation. constructor; [lia|done].
Qed.

Lemma sortFindings_sorted findings :
  StronglySorted (λ a b, BrandReport.severityOrder (severity a)
                         ≤ BrandReport.severityOrder (severity b))%Z
    (BrandReport.sortFindings findings).
Proof.
  induction findings as [|a rest IH]; [constructor|].
  by apply insertFinding_sorted.
Qed.

Lemma counted_tally findings : ∀ c,
  BrandReport.critical (counted findings c) = BrandReport.critical c + tally critical findings
  ∧ BrandReport.high (counted findings c) = BrandReport.high c + tally high findings
  ∧ BrandReport.medium (counted findings c) = BrandReport.medium c + tally medium findings
  ∧ BrandReport.low (counted findings c) = BrandReport.low c + tally low findings.
Proof.
  unfold tally. induction findings as [|f rest IH]; intros c.
  { simpl. lia. }
  cbn [counted foldl]. fold (counted rest (BrandReport.count (severity f) c)).
  destruct (IH (BrandReport.count (severity f) c)) as (-> & -> & -> & ->).
  rewrite !filter_cons.
  destruct (severity f); simpl; repeat case_decide; try done; simpl; lia.
Qed.

Lemma tally_total findings :
  tally critical findings + tally high findings + tally medium findings + tally low findings
  = length findings.
Proof.
  unfold tally. induction findings as [|f rest IH]; [done|].
  rewrite !filter_cons.
  destruct (severity f); repeat case_decide; try done; simpl; lia.
Qed.

(** X17.  The totals of the report of [analyzeSearchResults] agree with its
    lists: [totalAnalyzed] is the number of candidates, [totalFindings] the
    number of findings, at most [totalAnalyzed], and each severity count is
    the number of findings of that severity, so the four counts add up to
    [totalFindings]. *)
Theorem analyzeSearchResults_totals (searchResults : list MultiEngineSearch.SearchResult)
    (companyProfile : CompanyProfile) (options : BrandReport.Options) :
  let results := (analyzeSearchResults searchResults companyProfile options).1 in
  let counts := BrandReport.severityCounts results in
  BrandReport.totalAnalyzed results = length searchResults
  ∧ BrandReport.totalFindings results = length (BrandReport.findings results)
  ∧ BrandReport.totalFindings results ≤ BrandReport.totalAnalyzed results
  ∧ BrandReport.critical counts = tally critical (BrandReport.findings results)
  ∧ BrandReport.high counts = tally high (BrandReport.findings results)
  ∧ BrandReport.medium counts = tally medium (BrandReport.findings results)
  ∧ BrandReport.low counts = tally low (BrandReport.findings results)
  ∧ BrandReport.critical counts + BrandReport.high counts
    + BrandReport.medium counts + BrandReport.low counts
    = BrandReport.totalFindings results.
Proof.
  rewrite analyzeSearchResults_unfold. cbn [fst]. simpl.
  set (new := candidateFindings searchResults companyProfile options).
  destruct (counted_tally new
              {| BrandReport.critical := 0; BrandReport.high := 0;
                 BrandReport.medium := 0; BrandReport.low := 0 |}) as (-> & -> & -> & ->).
  unfold tally. rewrite !sortFindings_stable. fold (tally critical new) (tally high new)
    (tally medium new) (tally low new). simpl.
  pose proof (tally_total new). pose proof (sortFindings_Permutation new) as Hperm.
  apply Permutation_length in Hperm.
  assert (length new ≤ length searchResults) by apply found_length.
  repeat split; lia.
Qed.

(** X18.  The findings of the report are those that [analyzeSearchResult]
    returns for the candidates, arranged by severity from [critical] down to
    [low]; findings of the same severity stay in candidate order. *)
Theorem analyzeSearchResults_sorted (searchResults : list MultiEngineSearch.SearchResult)
    (companyProfile : CompanyProfile) (options : BrandReport.Options) :
  let findings := BrandReport.findings
                    (analyzeSearchResults searchResults companyProfile options).1 in
  StronglySorted (λ a b, BrandReport.severityOrder (severity a)
                         ≤ BrandReport.severityOrder (severity b))%Z findings
  ∧ findings ≡ₚ candidateFindings searchResults companyProfile options
  ∧ ∀ s, filter (λ f, severity f = s) findings
         = filter (λ f, severity f = s)
             (candidateFindings searchResults companyProfile options).
Proof.
  rewrite analyzeSearchResults_unfold. cbn [fst BrandReport.findings].
  split; [apply sortFindings_sorted|].
  split; [apply sortFindings_Permutation|]. intros s. apply sortFindings_stable.
Qed.

(** X19.  The calls of [httpFetcher.fetchUrl] that [analyzeSearchResults]
    makes, in order: one with the real login URL when there is one to
    download, then one with the URL of each candidate whose crawl gate is
    open, in candidate order; so at most one call more than there are
    candidates. *)
Theorem analyzeSearchResults_calls (searchResults : list MultiEngineSearch.SearchResult)
    (companyProfile : CompanyProfile) (options : BrandReport.Options) :
  let calls := (analyzeSearchResults searchResults companyProfile options).2 in
  calls
  = match realLoginUrl companyProfile with
    | Some realLoginUrl =>
        if default true (BrandReport.downloadRealSite options) && truthy realLoginUrl
        then [realLoginUrl] else []
    | None => []
    end ++ map MultiEngineSearch.url (gated fetchReal searchResults companyProfile options)
  ∧ length calls ≤ S (length searchResults).
Proof.
  rewrite analyzeSearchResults_unfold. cbn [snd]. split; [done|].
  rewrite length_app, length_map.
  assert (length (gated fetchReal searchResults companyProfile options)
          ≤ length searchResults) by apply List.filter_length_le.
  destruct (realLoginUrl companyProfile) as [u|]; [destruct (_ && _)|]; simpl; lia.
Qed.

(** X20.  The option [crawlHighSimilarity] has no effect: two calls that
    differ in it alone give the same report and make the same fetcher
    calls. *)
Theorem analyzeSearchResults_crawlHighSimilarity
    (searchResults : list MultiEngineSearch.SearchResult) (companyProfile : CompanyProfile)
    (checkSimilarity downloadRealSite crawl1 crawl2 : option bool)
    (similarityThreshold : option Q) :
  analyzeSearchResults searchResults companyProfile
    {| BrandReport.checkSimilarity := checkSimilarity;
       BrandReport.downloadRealSite := downloadRealSite;
       BrandReport.crawlHighSimilarity := crawl1;
       BrandReport.similarityThreshold := similarityThreshold |}
  = analyzeSearchResults searchResults companyProfile
      {| BrandReport.checkSimilarity := checkSimilarity;
         BrandReport.downloadRealSite := downloadRealSite;
         BrandReport.crawlHighSimilarity := crawl2;
         BrandReport.similarityThreshold := similarityThreshold |}.
Proof. rewrite !analyzeSearchResults_unfold. reflexivity. Qed.

End report.

(** ** The retry loop of [fetchUrl] *)

Section fetcher.
Import Props HttpFetcher.

Lemma tryAttempt_inl a data :
  tryAttempt a = inl data ↔ ∃ status, a = Answered status data ∧ status < 400.
Proof.
  destruct a as [status d|code message]; simpl.
  - case_bool_decide; split.
    + done.
    + intros (? & [= <- <-] & ?). lia.
    + intros [= <-]. exists status. split; [done|lia].
    + intros (? & [= <- <-] & ?). done.
  - split; [done|]. by intros (? & ? & ?).
Qed.

Lemma tryAttempt_inr a e :
  tryAttempt a = inr e ↔ failing a ∧ e = raised a.
Proof.
  destruct a as [status d|code message]; simpl.
  - case_bool_decide; split.
    + by intros [= <-].
    + by intros [_ ->].
    + done.
    + intros [? _]. lia.
  - split; [by intros [= <-]|by intros [_ ->]].
Qed.

Lemma failing_not_answered a status data :
  failing a → a = Answered status data → status < 400 → False.
Proof. intros Hfail ->. simpl in Hfail. lia. Qed.

(** An attempt number is at most [retries] exactly when it is at most its
    integer part. *)
Lemma attempt_le_floor (k : nat) (retries : Q) :
  (inject_Z (Z.of_nat k) <= retries)%Q ↔ (Z.of_nat k ≤ Qfloor retries)%Z.
Proof.
  pose proof (Qfloor_le retries) as Hle. pose proof (Qlt_floor retries) as Hlt. split.
  - intros Hk. apply Z.lt_succ_r. rewrite Zlt_Qlt. unfold Z.succ. lra.
  - intros Hk. rewrite Zle_Qle in Hk. lra.
Qed.

Lemma attempt_eq_floor (r : nat) (retries : Q) :
  (inject_Z (Z.of_nat r) == retries)%Q → Qfloor retries = Z.of_nat r.
Proof. intros <-. apply Qfloor_Z. Qed.

Lemma retryLoop_spec axios retries rounds : ∀ attempt,
  Z.of_nat (attempt + rounds) = (Qfloor retries + 1)%Z →
  match retryLoop axios retries attempt rounds with
  | (Returned data, n) =>
      ∃ k status, n = S k ∧ attempt ≤ k ∧ (Z.of_nat k ≤ Qfloor retries)%Z
                  ∧ axios k = Answered status data ∧ status < 400
                  ∧ ∀ j, attempt ≤ j → j < k → failing (axios j)
  | (Thrown message, n) =>
      ∃ r, n = S r ∧ attempt ≤ r ∧ (inject_Z (Z.of_nat r) == retries)%Q
           ∧ (∀ j, attempt ≤ j → j ≤ r → failing (axios j))
           ∧ message = uncurry simplify (raised (axios r))
  | (ReturnedUndefined, n) =>
      Z.of_nat n = (Qfloor retries + 1)%Z
      ∧ (∀ j, attempt ≤ j → j < n → failing (axios j))
      ∧ (0 < rounds → ¬ (inject_Z (Qfloor retries) == retries)%Q)
  end.
Proof.
  induction rounds as [|rounds IH]; intros attempt Hrounds.
  { simpl. split; [lia|]. split; [intros; lia|lia]. }
  cbn [retryLoop]. destruct (tryAttempt (axios attempt)) as [data|[code message]] eqn:Htry.
  { apply tryAttempt_inl in Htry as (status & Hk & Hstatus).
    exists attempt, status. split; [done|]. split; [done|]. split; [lia|].
    split; [done|]. split; [done|]. intros; lia. }
  apply tryAttempt_inr in Htry as [Hfail Hraised].
  destruct (Qeq_bool (inject_Z (Z.of_nat attempt)) retries) eqn:Hlast.
  { apply Qeq_bool_iff in Hlast. exists attempt. split; [done|]. split; [done|].
    split; [done|]. split; [|by rewrite <- Hraised].
    intros j ? ?. by replace j with attempt by lia. }
  apply Qeq_bool_neq in Hlast.
  specialize (IH (S attempt) ltac:(lia)).
  destruct (retryLoop axios retries (S attempt) rounds) as [[data| |thrown] n].
  - destruct IH as (k & status & -> & ? & ? & ? & ? & Hbefore).
    exists k, status. split; [done|]. split; [lia|]. split; [done|].
    split; [done|]. split; [done|].
    intros j ? ?. destruct (decide (j = attempt)) as [->|]; [done|]. apply Hbefore; lia.
  - destruct IH as (Hn & Hall & Hwhole). split; [done|]. split.
    + intros j ? ?. destruct (decide (j = attempt)) as [->|]; [done|]. apply Hall; lia.
    + intros _. destruct rounds as [|rounds]; [|apply Hwhole; lia].
      replace (Qfloor retries) with (Z.of_nat attempt) by lia. done.
  - destruct IH as (r & -> & ? & ? & Hall & ->).
    exists r. split; [done|]. split; [lia|]. split; [done|]. split; [|done].
    intros j ? ?. destruct (decide (j = attempt)) as [->|]; [done|]. apply Hall; lia.
Qed.

Lemma fetchUrl_default axios retries :
  fetchUrl axios retries = fetchUrl axios (Some (default 1%Q retries)).
Proof. by destruct retries. Qed.

Lemma fetchUrl_spec axios retries :
  match fetchUrl axios (Some retries) with
  | (Returned data, n) =>
      ∃ k status, n = S k ∧ (inject_Z (Z.of_nat k) <= retries)%Q
                  ∧ axios k = Answered status data ∧ status < 400
                  ∧ ∀ j, j < k → failing (axios j)
  | (Thrown message, n) =>
      ∃ r, (inject_Z (Z.of_nat r) == retries)%Q ∧ n = S r
           ∧ (∀ j, j ≤ r → failing (axios j))
           ∧ message = uncurry simplify (raised (axios r))
  | (ReturnedUndefined, n) =>
      ((retries < 0)%Q ∧ n = 0)
      ∨ ((0 <= retries)%Q ∧ ¬ (inject_Z (Qfloor retries) == retries)%Q
         ∧ Z.of_nat n = (Qfloor retries + 1)%Z
         ∧ ∀ j, j < n → failing (axios j))
  end.
Proof.
  unfold fetchUrl. cbn [default from_option id].
  destruct (Qlt_le_dec retries 0) as [Hneg|Hpos].
  { assert (Qfloor retries < 0)%Z as Hfloor.
    { pose proof (Qfloor_le retries). rewrite Zlt_Qlt.
      change (inject_Z 0) with 0%Q. lra. }
    replace (Z.to_nat (Qfloor retries + 1)) with 0 by lia. left. done. }
  assert (0 ≤ Qfloor retries)%Z as Hfloor.
  { change 0%Z with (Qfloor (inject_Z 0)). by apply Qfloor_resp_le. }
  pose proof (retryLoop_spec axios retries (Z.to_nat (Qfloor retries + 1)) 0
                ltac:(lia)) as Hspec.
  destruct (retryLoop axios retries 0 (Z.to_nat (Qfloor retries + 1)))
    as [[data| |message] n].
  - destruct Hspec as (k & status & -> & _ & ? & ? & ? & Hbefore).
    exists k, status. split; [done|]. split; [by apply attempt_le_floor|].
    split; [done|]. split; [done|]. intros j ?. apply Hbefore; lia.
  - destruct Hspec as (Hn & Hall & Hwhole). right. split; [done|].
    split; [apply Hwhole; lia|]. split; [done|]. intros j ?. apply Hall; lia.
  - destruct Hspec as (r & -> & _ & ? & Hall & ->).
    exists r. split; [done|]. split; [done|]. split; [|done].
    intros j ?. apply Hall; lia.
Qed.

(** X21.  [fetchUrl] returns a body exactly when some request, no later
    than the one numbered [retries] (1 when the option is absent), is
    answered with a status below 400 and every request before it failed; the
    body is that of the first such answer, and no request is made after
    it. *)
Theorem fetchUrl_returns (axios : nat → Attempt) (retries : option Q)
    (data : jsstring) (n : nat) :
  fetchUrl axios retries = (Returned data, n)
  ↔ ∃ k status, n = S k ∧ (inject_Z (Z.of_nat k) <= default 1%Q retries)%Q
                ∧ axios k = Answered status data ∧ status < 400
                ∧ ∀ j, j < k → failing (axios j).
Proof.
  rewrite fetchUrl_default.
  pose proof (fetchUrl_spec axios (default 1%Q retries)) as Hspec. split.
  { intros Hrun. by rewrite Hrun in Hspec. }
  intros (k & status & -> & Hk & Hanswer & Hstatus & Hbefore).
  destruct (fetchUrl axios (Some (default 1%Q retries))) as [[data'| |message] n'].
  - destruct Hspec as (k' & status' & -> & _ & Hanswer' & Hstatus' & Hbefore').
    destruct (lt_eq_lt_dec k k') as [[Hlt| ->]|Hlt].
    + destruct (failing_not_answered _ _ _ (Hbefore' k Hlt) Hanswer Hstatus).
    + congruence.
    + destruct (failing_not_answered _ _ _ (Hbefore k' Hlt) Hanswer' Hstatus').
  - destruct Hspec as [[Hneg _]|(_ & _ & Hn & Hall)].
    + assert (0 <= inject_Z (Z.of_nat k))%Q
        by (change 0%Q with (inject_Z 0); rewrite <- Zle_Qle; lia).
      lra.
    + apply attempt_le_floor in Hk.
      destruct (failing_not_answered _ _ _ (Hall k ltac:(lia)) Hanswer Hstatus).
  - destruct Hspec as (r & Hr & _ & Hall & _).
    rewrite <- Hr in Hk. rewrite <- Zle_Qle in Hk.
    destruct (failing_not_answered _ _ _ (Hall k ltac:(lia)) Hanswer Hstatus).
Qed.

(** X22.  [fetchUrl] throws exactly when [retries] is a whole number that is
    not negative and each of the [retries + 1] requests fails; it has then
    made all of them, and the message is the simplified error of the last
    one. *)
Theorem fetchUrl_throws (axios : nat → Attempt) (retries : option Q)
    (message : jsstring) (n : nat) :
  fetchUrl axios retries = (Thrown message, n)
  ↔ ∃ r : nat,
      (inject_Z (Z.of_nat r) == default 1%Q retries)%Q ∧ n = S r
      ∧ (∀ j, j ≤ r → failing (axios j))
      ∧ message = uncurry simplify (raised (axios r)).
Proof.
  rewrite fetchUrl_default.
  pose proof (fetchUrl_spec axios (default 1%Q retries)) as Hspec. split.
  { intros Hrun. by rewrite Hrun in Hspec. }
  intros (r & Hr & -> & Hall & ->).
  destruct (fetchUrl axios (Some (default 1%Q retries))) as [[data'| |message] n'].
  - destruct Hspec as (k & status & _ & Hk & Hanswer & Hstatus & _).
    rewrite <- Hr in Hk. rewrite <- Zle_Qle in Hk.
    destruct (failing_not_answered _ _ _ (Hall k ltac:(lia)) Hanswer Hstatus).
  - destruct Hspec as [[Hneg _]|(_ & Hwhole & _)].
    + assert (0 <= inject_Z (Z.of_nat r))%Q
        by (change 0%Q with (inject_Z 0); rewrite <- Zle_Qle; lia).
      lra.
    + destruct Hwhole. by rewrite (attempt_eq_floor r).
  - destruct Hspec as (r' & Hr' & -> & _ & ->).
    rewrite <- Hr in Hr'. rewrite inject_Z_injective in Hr'.
    by replace r' with r by lia.
Qed.

(** X23.  For a finite number [retries], [fetchUrl] returns [undefined] in
    two cases and no other: [retries] is negative, and then no request is
    made; or [retries] is not negative and not a whole number, and each of
    the requests numbered 0 to the integer part of [retries] fails (the test
    [attempt === retries] never holds, so nothing is thrown). *)
Theorem fetchUrl_undefined (axios : nat → Attempt) (retries : option Q) (n : nat) :
  fetchUrl axios retries = (ReturnedUndefined, n)
  ↔ ((default 1%Q retries < 0)%Q ∧ n = 0)
    ∨ ((0 <= default 1%Q retries)%Q
       ∧ ¬ (inject_Z (Qfloor (default 1%Q retries)) == default 1%Q retries)%Q
       ∧ Z.of_nat n = (Qfloor (default 1%Q retries) + 1)%Z
       ∧ ∀ j, j < n → failing (axios j)).
Proof.
  rewrite fetchUrl_default.
  pose proof (fetchUrl_spec axios (default 1%Q retries)) as Hspec. split.
  { intros Hrun. by rewrite Hrun in Hspec. }
  intros Hcase.
  destruct (fetchUrl axios (Some (default 1%Q retries))) as [[data'| |message] n'].
  - destruct Hspec as (k & status & _ & Hk & Hanswer & Hstatus & _).
    destruct Hcase as [[Hneg _]|(_ & _ & Hn & Hall)].
    + assert (0 <= inject_Z (Z.of_nat k))%Q
        by (change 0%Q with (inject_Z 0); rewrite <- Zle_Qle; lia).
      lra.
    + apply attempt_le_floor in Hk.
      destruct (failing_not_answered _ _ _ (Hall k ltac:(lia)) Hanswer Hstatus).
  - f_equal. destruct Hspec as [[? ->]|(? & _ & Hn' & _)],
      Hcase as [[? ->]|(? & _ & Hn & _)]; try lia; lra.
  - destruct Hspec as (r & Hr & _).
    destruct Hcase as [[Hneg _]|(_ & Hwhole & _)].
    + assert (0 <= inject_Z (Z.of_nat r))%Q
        by (change 0%Q with (inject_Z 0); rewrite <- Zle_Qle; lia).
      lra.
    + destruct Hwhole. by rewrite (attempt_eq_floor r).
Qed.

(** X24.  [fetchUrl] makes at most [retries + 1] requests, counting the
    integer part of [retries] (two requests when the option is absent), at
    least one when [retries] is not negative, and every request but the
    last one it makes has failed. *)
Theorem fetchUrl_requests (axios : nat → Attempt) (retries : option Q) :
  let n := (fetchUrl axios retries).2 in
  (Z.of_nat n ≤ Z.max 0 (Qfloor (default 1%Q retries) + 1))%Z
  ∧ ((0 <= default 1%Q retries)%Q → 1 ≤ n)
  ∧ ∀ j, S j < n → failing (axios j).
Proof.
  rewrite fetchUrl_default.
  pose proof (fetchUrl_spec axios (default 1%Q retries)) as Hspec.
  destruct (fetchUrl axios (Some (default 1%Q retries))) as [[data| |message] n].
  - destruct Hspec as (k & status & -> & Hk & _ & _ & Hbefore). simpl.
    apply attempt_le_floor in Hk.
    split; [lia|]. split; [lia|]. intros j ?. apply Hbefore. lia.
  - destruct Hspec as [[Hneg ->]|(Hpos & _ & Hn & Hall)]; simpl.
    + split; [lia|]. split; [intros; lra|intros; lia].
    + assert (0 ≤ Qfloor (default 1%Q retries))%Z
        by (change 0%Z with (Qfloor (inject_Z 0)); by apply Qfloor_resp_le).
      split; [lia|]. split; [lia|]. intros j ?. apply Hall. lia.
  - destruct Hspec as (r & Hr & -> & Hall & _). simpl.
    rewrite (attempt_eq_floor r _ Hr).
    split; [lia|]. split; [lia|]. intros j ?. apply Hall. lia.
Qed.

Lemma simplify_client_errors status :
  400 ≤ status < 500 →
  simplify None (js "HTTP " ++ decimal status)
  = if bool_decide (status = 403) then js "Access forbidden (403)"
    else js "HTTP " ++ decimal status.
Proof.
  intros Hstatus.
  assert (forallb (λ status,
                     bool_decide
                       (simplify None (js "HTTP " ++ decimal status)
                        = if bool_decide (status = 403) then js "Access forbidden (403)"
                          else js "HTTP " ++ decimal status))
                  (seq 400 100) = true) as Hall by (vm_compute; reflexivity).
  rewrite forallb_forall in Hall. specialize (Hall status).
  eapply bool_decide_eq_true_1, Hall, in_seq. lia.
Qed.

(** X25.  When [retries] is the whole number [r] and the request numbered
    [r], the last one, is answered with a client-error status (400 to 499)
    after the earlier ones failed, [fetchUrl] throws [HTTP <status>]; for 403
    the message is [Access forbidden (403)] instead. *)
Theorem fetchUrl_client_error (axios : nat → Attempt) (retries : option Q)
    (r status : nat) (data : jsstring) :
  (default 1%Q retries == inject_Z (Z.of_nat r))%Q →
  (∀ j, j < r → failing (axios j)) →
  axios r = Answered status data →
  400 ≤ status < 500 →
  (fetchUrl axios retries).1
  = Thrown (if bool_decide (status = 403) then js "Access forbidden (403)"
            else js "HTTP " ++ decimal status).
Proof.
  intros Hr Hbefore Hlast Hstatus. rewrite fetchUrl_default.
  pose proof (fetchUrl_spec axios (default 1%Q retries)) as Hspec.
  symmetry in Hr. pose proof (attempt_eq_floor r _ Hr) as Hfloor.
  assert (failing (axios r)) as Hfail by (rewrite Hlast; simpl; lia).
  destruct (fetchUrl axios (Some (default 1%Q retries))) as [[data'| |message] n].
  - destruct Hspec as (k & status' & _ & Hk & Hanswer & Hstatus' & _).
    apply attempt_le_floor in Hk.
    destruct (decide (k = r)) as [->|].
    + destruct (failing_not_answered _ _ _ Hfail Hanswer Hstatus').
    + destruct (failing_not_answered _ _ _ (Hbefore k ltac:(lia)) Hanswer Hstatus').
  - destruct Hspec as [[Hneg _]|(_ & Hwhole & _)].
    + assert (0 <= inject_Z (Z.of_nat r))%Q
        by (change 0%Q with (inject_Z 0); rewrite <- Zle_Qle; lia).
      lra.
    + destruct Hwhole. by rewrite Hfloor.
  - destruct Hspec as (r' & Hr' & _ & _ & ->).
    rewrite <- Hr in Hr'. rewrite inject_Z_injective in Hr'.
    replace r' with r by lia. rewrite Hlast. simpl fst. f_equal.
    by apply simplify_client_errors.
Qed.

(** X25 on a page that is not found, with the default options: both
    requests are answered with 404. *)
Lemma fetchUrl_client_error_witness :
  (fetchUrl (λ _, Answered 404 (js "Not Found")) None).1 = Thrown (js "HTTP 404").
Proof.
  apply (fetchUrl_client_error (λ _, Answered 404 (js "Not Found")) None 1 404
           (js "Not Found")).
  - reflexivity.
  - intros j _. simpl. lia.
  - reflexivity.
  - lia.
Defined.

(** With [retries] 1/2 and a page that is not found, one request is made
    and [undefined] is returned: nothing is thrown. *)
Example fetchUrl_half_retry :
  fetchUrl (λ _, Answered 404 (js "Not Found")) (Some (1 # 2)%Q) = (ReturnedUndefined, 1).
Proof. reflexivity. Qed.

End fetcher.

(** ** The results of a search *)

Section results.
Context {lc : CaseMapping}.
Import Spec MultiEngineSearch.

Lemma startsWith_app (p s : jsstring) : startsWith (p ++ s) p = true.
Proof. apply startsWith_spec. by exists s. Qed.

Lemma startsWith_http (s : jsstring) :
  startsWith s (js "http://") = true → startsWith s (js "http") = true.
Proof.
  rewrite !startsWith_spec. intros [rest ->]. by exists (js "://" ++ rest).
Qed.

Lemma normalizeOnionUrl_stripped (rest : jsstring) :
  (if negb (startsWith rest (js "http")) then js "http://" ++ rest else rest)
  = if startsWith rest (js "http") then rest else js "http://" ++ rest.
Proof. by destruct (startsWith rest (js "http")). Qed.

(** X26.  [normalizeOnionUrl] always returns a string that starts with
    [http]; the schemes [http://] and [https://] are stripped alike, and
    [http://] is put back unless what remains itself starts with [http], in
    which case the result has lost its scheme. *)
Theorem normalizeOnionUrl_scheme (rest : jsstring) :
  (∀ url, startsWith (normalizeOnionUrl url) (js "http") = true)
  ∧ normalizeOnionUrl (js "https://" ++ rest) = normalizeOnionUrl (js "http://" ++ rest)
  ∧ normalizeOnionUrl (js "http://" ++ rest)
    = (if startsWith rest (js "http") then rest else js "http://" ++ rest)
  ∧ (startsWith rest (js "http") = false → normalizeOnionUrl rest = js "http://" ++ rest).
Proof.
  assert (normalizeOnionUrl (js "http://" ++ rest)
          = if startsWith rest (js "http") then rest else js "http://" ++ rest) as Hhttp.
  { unfold normalizeOnionUrl. rewrite startsWith_app.
    change (drop 7 (js "http://" ++ rest)) with rest. apply normalizeOnionUrl_stripped. }
  assert (normalizeOnionUrl (js "https://" ++ rest)
          = if startsWith rest (js "http") then rest else js "http://" ++ rest) as Hhttps.
  { unfold normalizeOnionUrl.
    change (startsWith (js "https://" ++ rest) (js "http://")) with false.
    rewrite startsWith_app.
    change (drop 8 (js "https://" ++ rest)) with rest. apply normalizeOnionUrl_stripped. }
  split; [|split; [congruence|split; [done|]]].
  - intros url. unfold normalizeOnionUrl.
    set (normalized := if startsWith url (js "http://") then _ else _).
    destruct (startsWith normalized (js "http")) eqn:Hn; [done|]. simpl.
    apply (startsWith_http (js "http://" ++ normalized)), startsWith_app.
  - intros Hrest. unfold normalizeOnionUrl.
    destruct (startsWith rest (js "http://")) eqn:H1.
    { apply startsWith_http in H1. congruence. }
    destruct (startsWith rest (js "https://")) eqn:H2.
    { apply startsWith_spec in H2 as [tail ->]. by rewrite <- Hrest. }
    by rewrite Hrest.
Qed.

Variable select : jsstring → jsstring → list Anchor.
Variable hiddenInput : jsstring → option jsstring * option jsstring.
Variable matchRedirectUrl : jsstring → option jsstring.
Variable matchAddress : jsstring → option jsstring.
Variable decodeURIComponent : jsstring → Response jsstring.
Variable fetch : nat → Response jsstring.
Variable fetchAhmiaHome : nat → Response jsstring.
Variable fetchAhmiaSearch : nat → Response jsstring.
Variable now : jsstring.

#[local] Abbreviation record := (record now).
#[local] Abbreviation parseEach := (parseEach now).
#[local] Abbreviation ahmiaEach := (ahmiaEach matchRedirectUrl matchAddress decodeURIComponent now).
#[local] Abbreviation searchEngine :=
  (searchEngine select hiddenInput matchRedirectUrl matchAddress decodeURIComponent
     fetch fetchAhmiaHome fetchAhmiaSearch now).
#[local] Abbreviation settle :=
  (settle select hiddenInput matchRedirectUrl matchAddress decodeURIComponent
     fetch fetchAhmiaHome fetchAhmiaSearch now).
#[local] Abbreviation multiEngineSearch :=
  (multiEngineSearch select hiddenInput matchRedirectUrl matchAddress decodeURIComponent
     fetch fetchAhmiaHome fetchAhmiaSearch now).

#[local] Abbreviation shaped := Props.shaped.
#[local] Abbreviation bounded := Props.bounded.

Ltac literal l :=
  let v := eval vm_compute in (js l) in change (js l) with v in *.

Lemma infix_http (rest : jsstring) :
  infix (js ".onion") (js "http://" ++ rest) → infix (js ".onion") rest.
Proof.
  intros (pre & post & H). literal "http://". literal ".onion".
  destruct pre as [|c0 [|c1 [|c2 [|c3 [|c4 [|c5 [|c6 pre]]]]]]]; simplify_eq/=.
  by exists pre, post.
Qed.

Lemma infix_https (rest : jsstring) :
  infix (js ".onion") (js "https://" ++ rest) → infix (js ".onion") rest.
Proof.
  intros (pre & post & H). literal "https://". literal ".onion".
  destruct pre as [|c0 [|c1 [|c2 [|c3 [|c4 [|c5 [|c6 [|c7 pre]]]]]]]]; simplify_eq/=.
  by exists pre, post.
Qed.

Lemma normalizeOnionUrl_shaped (link : jsstring) :
  includes link (js ".onion") = true →
  startsWith (normalizeOnionUrl link) (js "http") = true
  ∧ includes (normalizeOnionUrl link) (js ".onion") = true.
Proof.
  intros Honion. unfold normalizeOnionUrl.
  set (normalized := if startsWith link (js "http://") then _ else _).
  assert (includes normalized (js ".onion") = true) as Hin.
  { subst normalized. destruct (startsWith link (js "http://")) eqn:H1.
    - apply startsWith_spec in H1 as [rest ->].
      change (drop 7 (js "http://" ++ rest)) with rest.
      apply includes_spec, infix_http, includes_spec, Honion.
    - destruct (startsWith link (js "https://")) eqn:H2; [|done].
      apply startsWith_spec in H2 as [rest ->].
      change (drop 8 (js "https://" ++ rest)) with rest.
      apply includes_spec, infix_https, includes_spec, Honion. }
  destruct (startsWith normalized (js "http")) eqn:Hn; cbn [negb]; [done|].
  split; [apply (startsWith_http (js "http://" ++ normalized)), startsWith_app|].
  apply includes_spec. apply includes_spec in Hin as (pre & post & ->).
  exists (js "http://" ++ pre), post. by rewrite <- (assoc_L (++)).
Qed.

Lemma record_bounded (engineName : jsstring) (elem : Anchor) (link : jsstring)
    (maxResults : Z) (results : list SearchResult) (seenUrls : gset jsstring) :
  includes link (js ".onion") = true →
  (Z.of_nat (length results) < maxResults)%Z →
  bounded maxResults results →
  bounded maxResults (record engineName elem link results seenUrls).1.
Proof.
  intros Honion Hroom [Hlen Hall]. unfold MultiEngineSearch.record.
  case_bool_decide; [|done]. simpl. split.
  - rewrite length_app. simpl. lia.
  - apply Forall_app. split; [done|]. apply Forall_singleton.
    destruct (normalizeOnionUrl_shaped link Honion) as [Hhttp Hin].
    split; [done|]. split; [done|]. simpl.
    destruct (truthy (text elem)) eqn:Htext; [done|].
    destruct (normalizeOnionUrl link); [by vm_compute in Hhttp|done].
Qed.

Lemma parseEach_bounded (engineName : jsstring) (maxResults : Z) (elems : list Anchor)
    (results : list SearchResult) (seenUrls : gset jsstring) :
  bounded maxResults results →
  bounded maxResults (parseEach engineName maxResults elems results seenUrls).1.
Proof.
  revert results seenUrls.
  induction elems as [|elem rest IH]; intros results seenUrls Hb; simpl; [done|].
  destruct (_ <=? _)%Z eqn:Hfull; [done|]. apply Z.leb_gt in Hfull.
  destruct (href elem) as [link|]; [|by apply IH].
  destruct (truthy link && includes link (js ".onion")) eqn:Hlink; [|by apply IH].
  apply andb_true_iff in Hlink as [_ Honion].
  pose proof (record_bounded engineName elem link maxResults _ seenUrls Honion Hfull Hb)
    as Hb'.
  destruct (MultiEngineSearch.record _ _ _ _ _ _) as [results' seen'].
  by apply IH.
Qed.

Lemma ahmiaEach_bounded (maxResults : Z) (elems : list Anchor)
    (results : list SearchResult) (seenUrls : gset jsstring) :
  bounded maxResults results →
  match (ahmiaEach maxResults elems results seenUrls).1 with
  | Resolved results' => bounded maxResults results'
  | Threw _ => True
  end.
Proof.
  revert results seenUrls.
  induction elems as [|elem rest IH]; intros results seenUrls Hb; simpl; [done|].
  destruct (_ <=? _)%Z eqn:Hfull; [done|]. apply Z.leb_gt in Hfull.
  destruct (href elem) as [link|]; [|by apply IH].
  destruct (truthy link); [|by apply IH].
  destruct (ahmiaUrl _ _ _ link) as [[target|]|message]; [|by apply IH|done].
  destruct (truthy target && includes target (js ".onion")) eqn:Hlink; [|by apply IH].
  apply andb_true_iff in Hlink as [_ Honion].
  pose proof (record_bounded (js "ahmia") elem target maxResults _ seenUrls Honion Hfull Hb)
    as Hb'.
  destruct (MultiEngineSearch.record _ _ _ _ _ _) as [results' seen'].
  by apply IH.
Qed.

Lemma bounded_nil (maxResults : Z) : bounded maxResults [].
Proof. split; [simpl; lia|constructor]. Qed.

Lemma searchEngine_bounded (task : nat) (engineName : jsstring) (maxResults : Z)
    (seenUrls : gset jsstring) :
  bounded maxResults (results (searchEngine task engineName maxResults seenUrls).1).
Proof.
  unfold MultiEngineSearch.searchEngine. case_bool_decide as Hahmia.
  - unfold searchAhmia.
    destruct (fetchAhmiaHome task) as [home|message]; [|apply bounded_nil].
    destruct (hiddenInput home) as [paramName paramValue].
    destruct (_ || _); [apply bounded_nil|].
    destruct (fetchAhmiaSearch task) as [page|message]; [|apply bounded_nil].
    pose proof (ahmiaEach_bounded maxResults (select page (js "li.result a"))
                  [] seenUrls (bounded_nil _)) as Hb.
    destruct (MultiEngineSearch.ahmiaEach _ _ _ _ _ _ _ _) as [[results'|message] seen'];
      [done|apply bounded_nil].
  - destruct (fetch task) as [html|message]; [|apply bounded_nil].
    unfold parseSearchResults.
    pose proof (parseEach_bounded engineName maxResults
                  (select html (if includes engineName (js "haystak")
                                then js ".result a.title"
                                else if includes engineName (js "torch")
                                then js ".result-block a"
                                else if includes engineName (js "onionland")
                                then js ".title a" else js "a[href]"))
                  [] seenUrls (bounded_nil _)) as Hb.
    by destruct (MultiEngineSearch.parseEach _ _ _ _ _ _) as [results' seen'].
Qed.

Lemma concat_bounded (maxResults : Z) (engineResults : list Settled) :
  Forall (λ s, bounded maxResults (resultsOf s)) engineResults →
  length (concat (resultsOf <$> engineResults))
  ≤ length engineResults * Z.to_nat maxResults
  ∧ Forall shaped (concat (resultsOf <$> engineResults)).
Proof.
  induction 1 as [|s rest [Hlen Hshaped] _ [IHlen IHshaped]]; [by split|].
  rewrite fmap_cons. cbn [concat length]. rewrite length_app.
  split; [lia|]. by apply Forall_app.
Qed.


(** X28.  [multiEngineSearch] returns a report exactly when every backend
    task it started reaches its last response: one task for each engine of
    the table when [engines] is absent, and otherwise one for each requested
    engine whose lower-cased name has a truthy entry in the table object,
    which is one of its 20 keys or one of the names [constructor] and
    [__proto__] that every object inherits. *)
Theorem multiEngineSearch_returns_iff (query : jsstring) (engines : option (list jsstring))
    (options : Options) (order : list nat) :
  is_Some (multiEngineSearch query engines options order)
  ↔ ∀ task, task < length (match engines with
                           | Some engines =>
                               List.filter (λ e, tableHas (toLowerCase e)) engines
                           | None => TOP_SEARCH_ENGINES.*1
                           end) → task ∈ order.
Proof.
  split; [|apply multiEngineSearch_returns].
  intros [report Hrun] task Htask.
  assert (engines_used report
          = match engines with
            | Some engines => List.filter (λ e, tableHas (toLowerCase e)) engines
            | None => TOP_SEARCH_ENGINES.*1
            end) as Hused.
  { revert Hrun. unfold MultiEngineSearch.multiEngineSearch. cbv zeta.
    destruct (MultiEngineSearch.settle _ _ _ _ _ _ _ _ _ _ _ _ _ _) as [settled seen'].
    destruct (allSettled _ settled) as [engineResults|]; [|done]. simpl.
    destruct (collect _ _). by intros [= <-]. }
  rewrite <- Hused in Htask.
  apply multiEngineSearch_report in Hrun as (engineResults & Hall & _).
  apply allSettled_lookup in Hall as [Hlen Hlookup].
  destruct (lookup_lt_is_Some_2 engineResults task) as [s Hs]; [lia|].
  apply Hlookup, settle_origin in Hs as (pre & post & engineName & -> & _).
  apply elem_of_app. right. apply list_elem_of_here.
Qed.

End results.

Section results_examples.
Import Spec MultiEngineSearch.
#[local] Existing Instance asciiLowerCase.


End results_examples.

(** ** The steps of [runFullScan] *)

Section scan.
Import MultiEngineSearch Monitor.

Lemma removeDuplicatesFrom_spec (rest : list SearchResult) :
  ∀ (uniqueResults : list SearchResult) (seenUrls : gset jsstring),
  (∀ u, u ∈ seenUrls ↔ u ∈ url <$> uniqueResults) →
  NoDup (url <$> uniqueResults) →
  ∃ kept,
    removeDuplicatesFrom rest uniqueResults seenUrls = uniqueResults ++ kept
    ∧ NoDup (url <$> (uniqueResults ++ kept))
    ∧ (∀ u, u ∈ url <$> kept ↔ u ∈ url <$> rest ∧ u ∉ seenUrls)
    ∧ sublist kept rest
    ∧ (∀ r, r ∈ kept →
         ∃ pre post, rest = pre ++ r :: post ∧ (url r ∉ url <$> pre) ∧ url r ∉ seenUrls)
    ∧ (NoDup (url <$> rest) → (∀ r, r ∈ rest → url r ∉ seenUrls) → kept = rest).
Proof.
  induction rest as [|r rest IH]; intros uniqueResults seenUrls Hseen Hnodup.
  { exists []. rewrite app_nil_r. simpl. split; [done|]. split; [done|].
    split; [intros u; rewrite elem_of_nil; tauto|]. split; [done|].
    split; [by intros r ?%elem_of_nil|done]. }
  cbn [removeDuplicatesFrom]. case_bool_decide as Hnew.
  - destruct (IH (uniqueResults ++ [r]) ({[url r]} ∪ seenUrls))
      as (kept & -> & Hnd & Hurls & Hsub & Hfirst & Hid).
    { intros u. rewrite fmap_app, elem_of_union, elem_of_singleton, elem_of_app, Hseen.
      simpl. rewrite list_elem_of_singleton. tauto. }
    { rewrite fmap_app. apply NoDup_app. split; [done|]. split; [|apply NoDup_singleton].
      intros u Hu ->%list_elem_of_singleton. by apply Hnew, Hseen. }
    exists (r :: kept). rewrite <- (assoc_L (++)) in *. simpl in *.
    split; [done|]. split; [done|]. split; [|split; [by apply sublist_skip|split]].
    + intros u. rewrite !elem_of_cons, Hurls, elem_of_union, elem_of_singleton.
      destruct (decide (u = url r)) as [->|]; tauto.
    + intros r' [->|Hr']%elem_of_cons.
      * exists [], rest. split; [done|]. split; [apply not_elem_of_nil|done].
      * destruct (Hfirst r' Hr') as (pre & post & -> & Hpre & Hnot).
        exists (r :: pre), post. split; [done|].
        rewrite not_elem_of_union, not_elem_of_singleton in Hnot.
        rewrite fmap_cons, not_elem_of_cons. tauto.
    + intros [Hr Hrest]%NoDup_cons Hall. f_equal. apply Hid; [done|].
      intros r' Hr'. rewrite not_elem_of_union, not_elem_of_singleton. split.
      * intros Heq. apply Hr. rewrite <- Heq. by apply list_elem_of_fmap_2.
      * apply Hall. by right.
  - destruct (IH uniqueResults seenUrls Hseen Hnodup)
      as (kept & -> & Hnd & Hurls & Hsub & Hfirst & Hid).
    exists kept. split; [done|]. split; [done|]. split; [|split; [by apply sublist_cons|split]].
    + intros u. rewrite Hurls, fmap_cons, elem_of_cons.
      destruct (decide (u = url r)) as [->|]; tauto.
    + intros r' Hr'. destruct (Hfirst r' Hr') as (pre & post & -> & Hpre & Hnot).
      exists (r :: pre), post. split; [done|]. split; [|done].
      rewrite fmap_cons, not_elem_of_cons. split; [|done].
      intros Heq. by rewrite Heq in Hnot.
    + intros _ Hall. destruct (Hall r); [by left|done].
Qed.

(** X29.  The search results that [runFullScan] keeps have pairwise distinct
    URLs and the same set of URLs as all results together; they are in the
    order they came, each one is the first result with its URL, and a list
    without a repeated URL is kept as it is. *)
Theorem removeDuplicates_first (allSearchResults : list SearchResult) :
  let uniqueResults := removeDuplicates allSearchResults in
  NoDup (url <$> uniqueResults)
  ∧ (∀ u, u ∈ url <$> uniqueResults ↔ u ∈ url <$> allSearchResults)
  ∧ sublist uniqueResults allSearchResults
  ∧ (∀ r, r ∈ uniqueResults →
       ∃ pre post, allSearchResults = pre ++ r :: post ∧ url r ∉ url <$> pre)
  ∧ (NoDup (url <$> allSearchResults) → uniqueResults = allSearchResults).
Proof.
  unfold removeDuplicates.
  destruct (removeDuplicatesFrom_spec allSearchResults [] ∅)
    as (kept & -> & Hnd & Hurls & Hsub & Hfirst & Hid).
  { intros u. split; [by intros ?%elem_of_empty|by intros ?%elem_of_nil]. }
  { constructor. }
  simpl in *. split; [done|]. split; [|split; [done|split]].
  - intros u. rewrite Hurls. split; [tauto|]. intros Hu. split; [done|apply not_elem_of_empty].
  - intros r Hr. destruct (Hfirst r Hr) as (pre & post & ? & ? & _). eauto.
  - intros Hall. apply Hid; [done|]. intros. apply not_elem_of_empty.
Qed.

Section summary.
Context {lc : CaseMapping}.
Import Props.

Variable extractStructuralFeatures : jsstring → HtmlSimilarity.Features.
Variable hasLoginForm : jsstring → bool.
Variable extractAllData :
  jsstring → jsstring → list jsstring
  → MultiEngineSearch.Response BrandImpersonation.Extracted.
Variable fetchReal : jsstring → Response jsstring.
Variable fetchUrl : nat → jsstring → Response jsstring.
Variable now : jsstring.

(** X30.  [updateSummary] after brand monitoring adds the number of findings
    of the brand report to [totalFindings] and, to each alert counter, the
    number of findings of that severity; a summary whose total is the sum of
    its four counters stays so. *)
Theorem updateSummary_brandReport (summary : Summary)
    (searchResults : list SearchResult)
    (companyProfile : BrandImpersonation.CompanyProfile) (options : BrandReport.Options) :
  let brandReport :=
    (BrandReport.analyzeSearchResults extractStructuralFeatures hasLoginForm extractAllData
       fetchReal fetchUrl now searchResults companyProfile options).1 in
  let updated := updateSummary summary (brandFeatureReport brandReport) in
  totalFindings updated
  = totalFindings summary + length (BrandReport.findings brandReport)
  ∧ criticalAlerts updated
    = criticalAlerts summary
      + tally BrandImpersonation.critical (BrandReport.findings brandReport)
  ∧ highAlerts updated
    = highAlerts summary + tally BrandImpersonation.high (BrandReport.findings brandReport)
  ∧ mediumAlerts updated
    = mediumAlerts summary
      + tally BrandImpersonation.medium (BrandReport.findings brandReport)
  ∧ lowAlerts updated
    = lowAlerts summary + tally BrandImpersonation.low (BrandReport.findings brandReport)
  ∧ (totalFindings summary
     = criticalAlerts summary + highAlerts summary + mediumAlerts summary
       + lowAlerts summary →
     totalFindings updated
     = criticalAlerts updated + highAlerts updated + mediumAlerts updated
       + lowAlerts updated).
Proof.
  rewrite analyzeSearchResults_unfold. cbn [fst]. unfold updateSummary, brandFeatureReport.
  simpl.
  set (new := candidateFindings _ _ _ _ _ _ searchResults companyProfile options).
  destruct (counted_tally new
              {| BrandReport.critical := 0; BrandReport.high := 0;
                 BrandReport.medium := 0; BrandReport.low := 0 |}) as (-> & -> & -> & ->).
  unfold tally. rewrite !sortFindings_stable.
  fold (tally BrandImpersonation.critical new) (tally BrandImpersonation.high new)
    (tally BrandImpersonation.medium new) (tally BrandImpersonation.low new). simpl.
  pose proof (tally_total new). pose proof (sortFindings_Permutation new) as Hperm.
  apply Permutation_length in Hperm. rewrite Hperm.
  case_bool_decide; repeat split; lia.
Qed.

End summary.

End scan.

Section report_examples.
Import Props.

(** A run of [analyzeSearchResults] on three candidates: the second one,
    whose URL contains the keyword, is reported first as [critical] (its
    fetch fails); the first one, with the keyword in its title only, is
    reported [low] and is not fetched; the third one is no finding. *)
Example analyzeSearchResults_sample :
  let run := sampleReport
               [ sampleCandidate (js "http://forum.onion") (js "Market talk");
                 sampleCandidate (js "http://market.onion") (js "Shop");
                 sampleCandidate (js "http://other.onion") (js "Other") ] in
  BrandReport.totalAnalyzed run.1 = 3
  ∧ BrandReport.totalFindings run.1 = 2
  ∧ map (λ f, (BrandImpersonation.url f, BrandImpersonation.severity f,
               BrandImpersonation.was_crawled f))
        (BrandReport.findings run.1)
    = [ (js "http://market.onion", BrandImpersonation.critical, Some false);
        (js "http://forum.onion", BrandImpersonation.low, Some false) ]
  ∧ run.2 = [js "http://market.onion"].
Proof. vm_compute. done. Qed.

End report_examples.
